(** * WindBorne constellation analytics: a shallow embedding

    The analytics engine of the tracker (great-circle distance, coverage
    grid, fixed-radius density clustering, centroid clustering with automatic
    choice of k, silhouette scoring and the hull builder) embedded as Rocq
    functions, with the properties its specification states about it.

    Number model.  JavaScript numbers are IEEE doubles.  The embedding has
    three layers for them.

    - The first modules take them as the real numbers of the Standard
      Library ([R]), so [Math.sin], [Math.cos], [Math.sqrt] are [sin], [cos],
      [sqrt] and [Math.PI] is [PI]; [Infinity], which the code uses to start
      running minima, is an explicit constructor ([xnum]).  Their properties
      are about counts, indices, membership and the order of computed
      values, which rounding leaves as they are.
    - Module [Computed] embeds the functions that add, compare and average
      distances over the distance as the engine computes it: a number that
      is not negative, or NaN.
    - Module [Ieee] embeds [haversineDistance] itself in binary64
      arithmetic.

    Array indices, counts and cluster ids are [nat] or [Z]. *)

From Stdlib Require Import Reals Lra Lia ZArith List Bool.
From stdpp Require Import base list.
Import ListNotations.

Unset Default Proof Using.

(** ** JavaScript primitives *)

Module Js.

(** A number that may be [Infinity] (running minima start there) or [NaN]
    (what [0/0] and [Infinity/Infinity] give). *)
Inductive xnum : Type :=
| Fin (r : R)
| PInf
| NaN.

(** [x < m] for a finite [x]; every comparison with [NaN] is false. *)
Definition lt_x (x : R) (m : xnum) : bool :=
  match m with
  | Fin r => if Rlt_dec x r then true else false
  | PInf => true
  | NaN => false
  end.

(** [Math.min(m, x)] for a finite [x]. *)
Definition min_x (m : xnum) (x : R) : xnum :=
  match m with
  | Fin r => Fin (Rmin r x)
  | PInf => Fin x
  | NaN => NaN
  end.

(** [m * m]. *)
Definition sq_x (m : xnum) : xnum :=
  match m with
  | Fin r => Fin (r * r)
  | PInf => PInf
  | NaN => NaN
  end.

(** [a + b] for summands that are never negative infinity. *)
Definition add_x (a b : xnum) : xnum :=
  match a, b with
  | Fin x, Fin y => Fin (x + y)
  | NaN, _ | _, NaN => NaN
  | _, _ => PInf
  end.

(** [a / b] for a dividend and a divisor that are not negative. *)
Definition div_x (a b : xnum) : xnum :=
  match a, b with
  | Fin x, Fin y =>
      if Req_dec_T y 0 then (if Req_dec_T x 0 then NaN else PInf)
      else Fin (x / y)
  | Fin _, PInf => Fin 0
  | PInf, Fin _ => PInf
  | _, _ => NaN
  end.

(** [a >= x] for a finite [x]. *)
Definition ge_x (a : xnum) (x : R) : bool :=
  match a with
  | Fin r => if Rge_dec r x then true else false
  | PInf => true
  | NaN => false
  end.

(** Comparisons of finite numbers as booleans. *)
Definition ltb (x y : R) : bool := if Rlt_dec x y then true else false.
Definition leb (x y : R) : bool := if Rle_dec x y then true else false.
Definition eqb (x y : R) : bool := if Req_dec_T x y then true else false.

(** [Math.atan2(y, x)] on finite arguments (the zero of the model is the
    positive zero of the doubles, which is the one a difference [v - v]
    produces). *)
Definition atan2 (y x : R) : R :=
  if Rlt_dec 0 x then atan (y / x)
  else if Rlt_dec x 0 then
         if Rle_dec 0 y then (atan (y / x) + PI)%R else (atan (y / x) - PI)%R
  else if Rlt_dec 0 y then (PI / 2)%R
  else if Rlt_dec y 0 then (- (PI / 2))%R
  else 0%R.

(** [Math.floor]. *)
Definition floor (x : R) : Z := Zfloor x.

End Js.

(** ** Geodesy utilities *)

(** A position is the array [[lat, lng, altitude]]; a point keeps the first
    two entries. *)
Definition Position : Type := (R * R * R)%type.
Definition Point : Type := (R * R)%type.

Definition pos0 (p : Position) : R := fst (fst p).
Definition pos1 (p : Position) : R := snd (fst p).
Definition pos2 (p : Position) : R := snd p.

(** The data model's ranges for a position. *)
Definition valid_position (p : Position) : Prop :=
  (-90 <= pos0 p <= 90)%R /\ (-180 <= pos1 p <= 180)%R.

Definition haversineDistance (lat1 lon1 lat2 lon2 : R) : R :=
  let R_earth := 6371%R in
  let dLat := ((lat2 - lat1) * PI / 180)%R in
  let dLon := ((lon2 - lon1) * PI / 180)%R in
  let a :=
    (sin (dLat / 2) * sin (dLat / 2) +
     cos (lat1 * PI / 180) * cos (lat2 * PI / 180) *
     sin (dLon / 2) * sin (dLon / 2))%R in
  let c := (2 * Js.atan2 (sqrt a) (sqrt (1 - a)))%R in
  (R_earth * c)%R.

(** The length in kilometres of [d] degrees of a great circle. *)
Definition arc (d : R) : R := (6371 * (d * PI / 180))%R.

(** [distance(a, b)] of the specification, on positions. *)
Definition distance (a b : Position) : R :=
  haversineDistance (pos0 a) (pos1 a) (pos0 b) (pos1 b).

(** ** Coverage grid analyzer *)

Module Coverage.

Record GridCell : Type := mkCell {
  covered : bool;
  count : nat;
  cell_lat : Z;
  cell_lng : Z
}.

Definition Grid : Type := list (list GridCell).

(** The values of [for (x = start; x < stop; x += step)].  With a step of at
    least one the loop ends within [stop - start] rounds, which is the fuel
    the callers give; the source is only called with steps 15 and 30. *)
Fixpoint loopValues (fuel : nat) (x stop step : Z) : list Z :=
  match fuel with
  | O => []
  | S fuel' =>
      if (x <? stop)%Z then x :: loopValues fuel' (x + step)%Z stop step
      else []
  end.

Definition generateEarthGrid (latStep lngStep : Z) : Grid :=
  map (fun lat =>
         map (fun lng => mkCell false 0 lat lng)
             (loopValues 360 (-180) 180 lngStep))
      (loopValues 180 (-90) 90 latStep).

(** [cell.count++; cell.covered = true]. *)
Definition occupy (c : GridCell) : GridCell :=
  mkCell true (S (count c)) (cell_lat c) (cell_lng c).

Definition latIndexOf (lat : R) : Z := Js.floor ((90 + lat) / 15).
Definition lngIndexOf (lng : R) : Z := Js.floor ((180 + lng) / 30).

(** The guard of the marking loop. *)
Definition inGrid (latIndex lngIndex : Z) : bool :=
  (0 <=? latIndex)%Z && (latIndex <? 12)%Z &&
  (0 <=? lngIndex)%Z && (lngIndex <? 12)%Z.

(** The body of [positions.forEach] in [calculateCoverageMetrics]. *)
Definition markPosition (grid : Grid) (pos : Position) : Grid :=
  let lat := pos0 pos in
  let lng := pos1 pos in
  let latIndex := latIndexOf lat in
  let lngIndex := lngIndexOf lng in
  if inGrid latIndex lngIndex then
    alter (alter occupy (Z.to_nat lngIndex)) (Z.to_nat latIndex) grid
  else grid.

(** The grid of [calculateCoverageMetrics] once every position is marked. *)
Definition markedGrid (positions : list Position) : Grid :=
  fold_left markPosition positions (generateEarthGrid 15 30).

Record GridEntry : Type := mkEntry {
  entry_lat : R;
  entry_lng : R;
  entry_count : nat;
  entry_covered : bool
}.

Definition latCenter (latIndex : nat) : R := (-90 + INR latIndex * 15 + 7.5)%R.
Definition lngCenter (lngIndex : nat) : R := (-180 + INR lngIndex * 30 + 15)%R.

(** The cell [grid[latIndex][lngIndex]]; the loops of the source stay inside
    the 12 by 12 grid, where it is defined. *)
Definition cellAt (grid : Grid) (latIndex lngIndex : nat) : option GridCell :=
  grid !! latIndex ≫= fun row => row !! lngIndex.

Definition cellPairs : list (nat * nat) :=
  flat_map (fun latIndex => map (fun lngIndex => (latIndex, lngIndex)) (seq 0 12))
           (seq 0 12).

Definition gridDistributionOf (grid : Grid) : list GridEntry :=
  omap (fun '(latIndex, lngIndex) =>
          cell ← cellAt grid latIndex lngIndex;
          Some (mkEntry (latCenter latIndex) (lngCenter lngIndex)
                        (count cell) (covered cell)))
       cellPairs.

Definition cellWeight (latIndex : nat) : R := cos (latCenter latIndex * PI / 180).

Definition totalCells : R :=
  fold_left (fun acc '(latIndex, _) => (acc + cellWeight latIndex)%R) cellPairs 0%R.

Definition coveredCells (grid : Grid) : R :=
  fold_left (fun acc '(latIndex, lngIndex) =>
               match cellAt grid latIndex lngIndex with
               | Some cell =>
                   if covered cell then (acc + cellWeight latIndex)%R else acc
               | None => acc
               end)
            cellPairs 0%R.

(** The grid part of the result of [calculateCoverageMetrics].  The density
    figure and the largest-gap estimate are computed beside it and leave the
    grid as it is; they are not part of the model. *)
Record CoverageMetrics : Type := mkCoverage {
  coveredPercentage : R;
  gridDistribution : list GridEntry
}.

Definition calculateCoverageMetrics (positions : list Position) : CoverageMetrics :=
  let grid := markedGrid positions in
  mkCoverage (coveredCells grid / totalCells * 100)%R (gridDistributionOf grid).

(** Sum of the occupant counts of all cells. *)
Definition totalCount (grid : Grid) : nat :=
  list_sum (map (fun row => list_sum (map count row)) grid).

(** The grid has twelve rows of twelve cells. *)
Definition gridShape (grid : Grid) : Prop :=
  length grid = 12%nat /\ Forall (fun row => length row = 12%nat) grid.

(** In every cell, [covered] says whether the count is positive. *)
Definition coveredIffCounted (grid : Grid) : Prop :=
  Forall (Forall (fun cell => covered cell = (0 <? count cell)%nat)) grid.

End Coverage.

(** ** Density and neighbour analyzer: fixed-radius clustering *)

Module Density.

Definition epsilon : R := 500%R.
Definition minPoints : nat := 3.

(** The closure [getNeighbors] of [calculateClusteringMetrics]: the indices
    other than [pointIndex] within [epsilon] of it, in increasing order.  It
    is only called with an index of the array. *)
Definition getNeighbors (positions : list Position) (pointIndex : nat) : list nat :=
  List.filter
    (fun i =>
       negb (i =? pointIndex)%nat &&
       match positions !! pointIndex, positions !! i with
       | Some p, Some q =>
           Js.leb (haversineDistance (pos0 p) (pos1 p) (pos0 q) (pos1 q)) epsilon
       | _, _ => false
       end)
    (seq 0 (length positions)).

(** The mutable state of the scan. *)
Record ScanState : Type := mkScan {
  visited : list bool;
  clusterAssignments : list Z;
  clusterCount : nat
}.

(** [visited[i]], where a missing entry is falsy. *)
Definition isVisited (vis : list bool) (i : nat) : bool := default false (vis !! i).

(** [seedSet.includes(i)]. *)
Definition includes (seedSet : list nat) (i : nat) : bool :=
  existsb (Nat.eqb i) seedSet.

(** The loop over [pointNeighbors] that pushes the new seeds. *)
Definition pushNeighbors (vis : list bool) (seedSet pointNeighbors : list nat) : list nat :=
  fold_left (fun seeds neighbor =>
               if negb (isVisited vis neighbor) && negb (includes seeds neighbor)
               then seeds ++ [neighbor] else seeds)
            pointNeighbors seedSet.

Section Scan.

(** The neighbour query, the only place where the positions are read. *)
Variable neighborsOf : nat -> list nat.

(** One round of [for (let j = 0; j < seedSet.length; j++)]. *)
Definition expandStep (clusterId : Z) (currentPoint : nat)
    (seedSet : list nat) (vis : list bool) (assign : list Z)
  : list nat * list bool * list Z :=
  let '(seedSet', vis') :=
    if negb (isVisited vis currentPoint) then
      let vis1 := <[currentPoint := true]> vis in
      let pointNeighbors := neighborsOf currentPoint in
      if (minPoints - 1 <=? length pointNeighbors)%nat
      then (pushNeighbors vis1 seedSet pointNeighbors, vis1)
      else (seedSet, vis1)
    else (seedSet, vis) in
  let assign' :=
    if bool_decide (assign !! currentPoint = Some (-1)%Z)
    then <[currentPoint := clusterId]> assign else assign in
  (seedSet', vis', assign').

(** The expansion loop; the seed set grows while it is walked, so the model
    takes fuel and answers [None] when it runs out. *)
Fixpoint expand (fuel : nat) (clusterId : Z) (j : nat)
    (seedSet : list nat) (vis : list bool) (assign : list Z)
  : option (list bool * list Z) :=
  match fuel with
  | O => None
  | S fuel' =>
      match seedSet !! j with
      | None => Some (vis, assign)
      | Some currentPoint =>
          let '(seedSet', vis', assign') :=
            expandStep clusterId currentPoint seedSet vis assign in
          expand fuel' clusterId (S j) seedSet' vis' assign'
      end
  end.

(** The body of the outer loop [for (let i = 0; i < positions.length; i++)]. *)
Definition scanPoint (fuel : nat) (st : ScanState) (i : nat) : option ScanState :=
  if isVisited (visited st) i then Some st
  else
    let vis := <[i := true]> (visited st) in
    let neighbors := neighborsOf i in
    if (length neighbors <? minPoints - 1)%nat then
      Some (mkScan vis (<[i := (-1)%Z]> (clusterAssignments st)) (clusterCount st))
    else
      let clusterId := Z.of_nat (clusterCount st) in
      let assign := <[i := clusterId]> (clusterAssignments st) in
      '(vis', assign') ← expand fuel clusterId 0 neighbors vis assign;
      Some (mkScan vis' assign' (S (clusterCount st))).

Definition scanFrom (fuel : nat) (indices : list nat) (st : ScanState) : option ScanState :=
  foldl (fun acc i => st' ← acc; scanPoint fuel st' i) (Some st) indices.

(** The whole scan over [n] points. *)
Definition dbscan (n : nat) : option ScanState :=
  scanFrom (S n) (seq 0 n) (mkScan (replicate n false) (replicate n (-1)%Z) 0).

End Scan.

(** [clusterSizes]: one counter per cluster, bumped for every assignment that
    is not noise (an id outside the array changes no counter of it). *)
Definition countSizes (clusterCount : nat) (assignments : list Z) : list nat :=
  fold_left (fun sizes assignment =>
               if (assignment =? -1)%Z then sizes
               else alter S (Z.to_nat assignment) sizes)
            assignments (replicate clusterCount 0).

Definition countNoise (assignments : list Z) : nat :=
  length (List.filter (fun assignment => (assignment =? -1)%Z) assignments).

(** The result object; the two arrays are missing from the object returned
    for an empty input. *)
Record ClusteringMetrics : Type := mkMetrics {
  m_clusterCount : nat;
  avgClusterSize : R;
  isolationIndex : R;
  largestCluster : nat;
  m_clusterAssignments : option (list Z);
  clusterSizes : option (list nat)
}.

Definition calculateClusteringMetrics (positions : list Position)
  : option ClusteringMetrics :=
  if (length positions =? 0)%nat then
    Some (mkMetrics 0 0%R 0%R 0 None None)
  else
    st ← dbscan (getNeighbors positions) (length positions);
    let clusterCount := clusterCount st in
    let clusterAssignments := clusterAssignments st in
    let clusterSizes := countSizes clusterCount clusterAssignments in
    let noiseCount := countNoise clusterAssignments in
    let totalInClusters := (length positions - noiseCount)%nat in
    let avgClusterSize :=
      if (0 <? clusterCount)%nat then (INR totalInClusters / INR clusterCount)%R
      else 0%R in
    let isolationIndex := (INR noiseCount / INR (length positions))%R in
    let largestCluster := foldr Nat.max 0%nat clusterSizes in
    Some (mkMetrics clusterCount avgClusterSize isolationIndex largestCluster
                    (Some clusterAssignments) (Some clusterSizes)).

(** An assignment is noise or the id of one of the first [c] clusters. *)
Definition validAssignment (c : nat) (a : Z) : Prop :=
  a = (-1)%Z \/ (0 <= a < Z.of_nat c)%Z.

(** The invariant of the outer loop over [n] points. *)
Definition scanInv (n : nat) (st : ScanState) : Prop :=
  length (visited st) = n /\ length (clusterAssignments st) = n /\
  Forall (validAssignment (clusterCount st)) (clusterAssignments st).

End Density.

(** ** Centroid clustering engine *)

Module Centroid.

(** *** The random source and the monad of the clustering code

    [Math.random()] reads the engine's global generator; a value of it lies
    in the unit interval.  The generator is the sequence of the values it
    will give, the computations thread it, and [None] stands for a
    [TypeError] (reading a coordinate of [undefined]). *)

Record unit01 : Type := mkUnit01 {
  u_val : R;
  u_range : (0 <= u_val < 1)%R
}.

Definition RandomSource : Type := nat -> unit01.

Definition Run (A : Type) : Type := RandomSource -> option (A * RandomSource).

Definition ret {A : Type} (a : A) : Run A := fun g => Some (a, g).

Definition bind {A B : Type} (m : Run A) (f : A -> Run B) : Run B :=
  fun g => match m g with
           | Some (a, g') => f a g'
           | None => None
           end.

(** [Math.random()]. *)
Definition random : Run R := fun g => Some (u_val (g 0%nat), fun n => g (S n)).

(** An array read that must be defined. *)
Definition defined {A : Type} (o : option A) : Run A :=
  fun g => match o with
           | Some a => Some (a, g)
           | None => None
           end.

Declare Scope run_scope.
Delimit Scope run_scope with run.
Notation "'let*' x := m 'in' f" := (bind m (fun x => f))
  (at level 10, x pattern, m at level 100, f at level 200) : run_scope.

Definition dist (p q : Point) : R :=
  haversineDistance (fst p) (snd p) (fst q) (snd q).

(** *** Seeding *)

(** The running minimum of the distances from [point] to the centroids. *)
Definition minDistanceTo (point : Point) (centroids : list Point) : Js.xnum :=
  fold_left (fun minDistance centroid => Js.min_x minDistance (dist point centroid))
            centroids Js.PInf.

Definition seedDistances (points centroids : list Point) : list Js.xnum :=
  map (fun point => Js.sq_x (minDistanceTo point centroids)) points.

(** The loop over the probabilities: the first index where the running sum
    reaches [randomValue], and 0 when none does. *)
Fixpoint pickFrom (j : nat) (cumulativeProbability : Js.xnum)
    (probabilities : list Js.xnum) (randomValue : R) : nat :=
  match probabilities with
  | [] => 0%nat
  | p :: rest =>
      let cumulativeProbability' := Js.add_x cumulativeProbability p in
      if Js.ge_x cumulativeProbability' randomValue then j
      else pickFrom (S j) cumulativeProbability' rest randomValue
  end.

Definition chooseNext (points centroids : list Point) (randomValue : R) : nat :=
  let distances := seedDistances points centroids in
  let sum := fold_left Js.add_x distances (Js.Fin 0) in
  let probabilities := map (fun d => Js.div_x d sum) distances in
  pickFrom 0 (Js.Fin 0) probabilities randomValue.

(** The rounds [i = 1 .. k - 1] of the seeding loop. *)
Fixpoint seedLoop (rounds : nat) (points centroids : list Point) : Run (list Point) :=
  match rounds with
  | O => ret centroids
  | S rounds' =>
      (let* randomValue := random in
       let nextCentroid := chooseNext points centroids randomValue in
       let* p := defined (points !! nextCentroid) in
       seedLoop rounds' points (centroids ++ [p]))%run
  end.

Definition initializeCentroids (points : list Point) (k : nat) : Run (list Point) :=
  if (length points =? 0)%nat || (k =? 0)%nat then ret []
  else
    (let* r := random in
     let firstCentroid := Z.to_nat (Js.floor (r * INR (length points))) in
     let* p := defined (points !! firstCentroid) in
     seedLoop (k - 1) points [p])%run.

(** *** Refinement *)

(** One round of the inner loop of the assignment step; the state is the
    loop index, the running minimum and the index that reached it. *)
Definition closestStep (point : Point) (state : nat * Js.xnum * nat)
    (centroid : Point) : nat * Js.xnum * nat :=
  let '(j, minDistance, closestCentroid) := state in
  let distance := dist point centroid in
  if Js.lt_x distance minDistance
  then (S j, Js.Fin distance, j)
  else (S j, minDistance, closestCentroid).

(** Index of the nearest centroid, the first one among equals, and 0 for an
    empty list. *)
Definition closestCentroid (point : Point) (centroids : list Point) : nat :=
  snd (fold_left (closestStep point) centroids (0%nat, Js.PInf, 0%nat)).

Definition assignPoints (points centroids : list Point) : list Z :=
  map (fun point => Z.of_nat (closestCentroid point centroids)) points.

(** The convergence test: no index below [n] where the two arrays differ. *)
Definition unchanged (n : nat) (assignments oldAssignments : list Z) : bool :=
  forallb (fun i => bool_decide (assignments !! i = oldAssignments !! i)) (seq 0 n).

(** The accumulation of the coordinate sums and the counts. *)
Definition accumulate (acc : list Point * list nat) (point : Point) (clusterId : Z)
  : option (list Point * list nat) :=
  let '(newCentroids, counts) := acc in
  if (0 <=? clusterId)%Z && (Z.to_nat clusterId <? length newCentroids)%nat then
    Some (alter (fun s => (fst s + fst point, snd s + snd point)%R)
                (Z.to_nat clusterId) newCentroids,
          alter S (Z.to_nat clusterId) counts)
  else None.

Fixpoint accumulateAll (acc : list Point * list nat)
    (points : list Point) (assignments : list Z) : option (list Point * list nat) :=
  match points, assignments with
  | point :: points', clusterId :: assignments' =>
      acc' ← accumulate acc point clusterId;
      accumulateAll acc' points' assignments'
  | [], _ => Some acc
  | _ :: _, [] => None
  end.

(** The loop [for (let i = 0; i < k; i++)] that moves the centroids of the
    clusters that have points. *)
Fixpoint moveCentroids (i rounds : nat) (newCentroids : list Point)
    (counts : list nat) (centroids : list Point) : option (list Point) :=
  match rounds with
  | O => Some centroids
  | S rounds' =>
      match counts !! i, newCentroids !! i with
      | Some c, Some s =>
          if (0 <? c)%nat then
            if (i <? length centroids)%nat then
              moveCentroids (S i) rounds' newCentroids counts
                (<[i := (fst s / INR c, snd s / INR c)%R]> centroids)
            else None
          else moveCentroids (S i) rounds' newCentroids counts centroids
      | _, _ => moveCentroids (S i) rounds' newCentroids counts centroids
      end
  end.

Definition updateCentroids (k : nat) (points : list Point) (assignments : list Z)
    (centroids : list Point) : option (list Point) :=
  '(newCentroids, counts) ←
    accumulateAll (replicate k (0%R, 0%R), replicate k 0%nat) points assignments;
  moveCentroids 0 k newCentroids counts centroids.

(** The [while] loop, [fuel] rounds at most.  [assignments] is the array
    as the previous round left it. *)
Fixpoint refine (fuel k : nat) (points centroids : list Point)
    (oldAssignments assignments : list Z) : option (list Z * list Point) :=
  match fuel with
  | O => Some (assignments, centroids)
  | S fuel' =>
      let assignments' := assignPoints points centroids in
      if unchanged (length points) assignments' oldAssignments
      then Some (assignments', centroids)
      else
        centroids' ← updateCentroids k points assignments' centroids;
        refine fuel' k points centroids' assignments' assignments'
  end.

(** The state (assignments, centroids) at the end of every round of the loop
    that ran to its end, in order. *)
Fixpoint refineStates (fuel k : nat) (points centroids : list Point)
    (oldAssignments : list Z) : option (list (list Z * list Point)) :=
  match fuel with
  | O => Some []
  | S fuel' =>
      let assignments' := assignPoints points centroids in
      if unchanged (length points) assignments' oldAssignments
      then Some []
      else
        centroids' ← updateCentroids k points assignments' centroids;
        states ← refineStates fuel' k points centroids' assignments';
        Some ((assignments', centroids') :: states)
  end.

(** The inertia loop: sum of the squared distances to the assigned centroid. *)
Fixpoint inertiaOf (points : list Point) (assignments : list Z)
    (centroids : list Point) : option R :=
  match points, assignments with
  | point :: points', clusterId :: assignments' =>
      if (0 <=? clusterId)%Z then
        centroid ← centroids !! Z.to_nat clusterId;
        rest ← inertiaOf points' assignments' centroids;
        Some (dist point centroid * dist point centroid + rest)%R
      else None
  | [], _ => Some 0%R
  | _ :: _, [] => None
  end.

Record KMeansResult : Type := mkResult {
  assignments : list Z;
  centroids : list Point;
  inertia : R
}.

Definition maxIterations : nat := 100.

Definition pointsOf (positions : list Position) : list Point :=
  map (fun pos => (pos0 pos, pos1 pos)) positions.

Definition kMeansCluster (positions : list Position) (k : nat) : Run KMeansResult :=
  if (length positions =? 0)%nat || (k =? 0)%nat then ret (mkResult [] [] 0%R)
  else
    let points := pointsOf positions in
    (let* seeds := initializeCentroids points k in
     let start := replicate (length points) (-1)%Z in
     let* (assignments, centroids) :=
       defined (refine maxIterations k points seeds start start) in
     let* inertia := defined (inertiaOf points assignments centroids) in
     ret (mkResult assignments centroids inertia))%run.

(** *** Specification predicates *)

(** An assignment is the index of one of [k] centroids. *)
Definition inRange (k : nat) (a : Z) : Prop := (0 <= a < Z.of_nat k)%Z.

(** What the inner loop knows after the centroids [pre]. *)
Definition closestInv (p : Point) (pre : list Point) (st : nat * Js.xnum * nat) : Prop :=
  let '(j, m, cl) := st in
  j = length pre /\
  ((pre = [] /\ m = Js.PInf /\ cl = 0%nat) \/
   (exists best, pre !! cl = Some best /\ m = Js.Fin (dist p best) /\
                 forall i c, pre !! i = Some c -> (dist p best <= dist p c)%R)).

End Centroid.

(** ** Silhouette scoring and the choice of k *)

Module Scoring.

Import Centroid.

(** [array.filter((_, i) => keep(i))], the index counted from [start]. *)
Fixpoint filterIndex {A : Type} (start : nat) (keep : nat -> bool) (l : list A) : list A :=
  match l with
  | [] => []
  | x :: l' =>
      if keep start then x :: filterIndex (S start) keep l'
      else filterIndex (S start) keep l'
  end.

(** The sum of the distances from [p] to the positions of [others]. *)
Definition totalDistanceFrom (p : Position) (others : list Position) : R :=
  fold_left (fun totalDistance otherPoint =>
               (totalDistance +
                haversineDistance (pos0 p) (pos1 p) (pos0 otherPoint) (pos1 otherPoint))%R)
            others 0%R.

(** [===] on two array reads; [None] is [undefined]. *)
Definition sameCluster (a b : option Z) : bool := bool_decide (a = b).

Definition calculateAverageDistanceToSameCluster (pointIndex : nat)
    (positions : list Position) (assignments : list Z) : option R :=
  let pointCluster := assignments !! pointIndex in
  let pointsInSameCluster :=
    filterIndex 0
      (fun i => negb (i =? pointIndex)%nat && sameCluster (assignments !! i) pointCluster)
      positions in
  if (length pointsInSameCluster =? 0)%nat then Some 0%R
  else
    p ← positions !! pointIndex;
    Some (totalDistanceFrom p pointsInSameCluster / INR (length pointsInSameCluster))%R.

(** One round of the loop over the cluster ids in
    [calculateAverageDistanceToNearestCluster]. *)
Definition nearestStep (pointIndex : nat) (positions : list Position)
    (assignments : list Z) (nearest : option Js.xnum) (clusterId : nat)
  : option Js.xnum :=
  nearestClusterDistance ← nearest;
  if sameCluster (Some (Z.of_nat clusterId)) (assignments !! pointIndex)
  then Some nearestClusterDistance
  else
    let pointsInCluster :=
      filterIndex 0
        (fun i => sameCluster (assignments !! i) (Some (Z.of_nat clusterId)))
        positions in
    if (length pointsInCluster =? 0)%nat then Some nearestClusterDistance
    else
      p ← positions !! pointIndex;
      let avgDistance :=
        (totalDistanceFrom p pointsInCluster / INR (length pointsInCluster))%R in
      Some (Js.min_x nearestClusterDistance avgDistance).

Definition calculateAverageDistanceToNearestCluster (pointIndex : nat)
    (positions : list Position) (assignments : list Z) (centroids : list Point)
  : option R :=
  nearestClusterDistance ←
    fold_left (nearestStep pointIndex positions assignments)
              (seq 0 (length centroids)) (Some Js.PInf);
  match nearestClusterDistance with
  | Js.Fin d => Some d
  | Js.PInf => Some 0%R
  | Js.NaN => None
  end.

(** The silhouette of one point from its two averages. *)
Definition silhouetteOf (a b : R) : R :=
  if Js.eqb a 0 && Js.eqb b 0 then 0%R
  else ((b - a) / Rmax a b)%R.

Definition silhouetteValue (positions : list Position) (assignments : list Z)
    (centroids : list Point) (i : nat) : option R :=
  a ← calculateAverageDistanceToSameCluster i positions assignments;
  b ← calculateAverageDistanceToNearestCluster i positions assignments centroids;
  Some (silhouetteOf a b).

Definition calculateSilhouetteScore (positions : list Position)
    (assignments : list Z) (centroids : list Point) : option R :=
  if (length positions <=? 1)%nat || (length centroids <=? 1)%nat then Some 0%R
  else
    silhouetteValues ←
      mapM (silhouetteValue positions assignments centroids)
           (seq 0 (length positions));
    let sum := fold_left Rplus silhouetteValues 0%R in
    Some (sum / INR (length silhouetteValues))%R.

(** The running minimum is infinite or a distance that is not negative. *)
Definition nonnegMin (m : Js.xnum) : Prop :=
  match m with
  | Js.Fin d => (0 <= d)%R
  | Js.PInf => True
  | Js.NaN => False
  end.

(** *** Automatic choice of k *)

(** The result object; the three diagnostic arrays are missing from the
    object returned for an empty input. *)
Record Selection : Type := mkSelection {
  k : nat;
  sel_assignments : list Z;
  sel_centroids : list Point;
  clusterSizes : list nat;
  silhouetteScores : option (list R);
  inertiaValues : option (list R);
  kRange : option (list nat)
}.

(** [new Array(k).fill(0)] with one increment per assignment. *)
Definition sizesOf (k : nat) (assignments : list Z) : list nat :=
  fold_left (fun sizes assignment => alter S (Z.to_nat assignment) sizes)
            assignments (replicate k 0%nat).

(** The variables the loop over the candidates updates.  [bestScore] starts
    at minus infinity, which is [None] here. *)
Record Sweep : Type := mkSweep {
  optimalK : nat;
  bestScore : option R;
  finalAssignments : list Z;
  finalCentroids : list Point;
  finalClusterSizes : list nat;
  scores : list R;
  inertias : list R
}.

Definition better (score : R) (best : option R) : bool :=
  match best with
  | Some b => Js.ltb b score
  | None => true
  end.

Definition tryK (positions : list Position) (sw : Sweep) (k : nat) : Run Sweep :=
  (let* res := kMeansCluster positions k in
   let* silhouetteScore :=
     defined (calculateSilhouetteScore positions (assignments res) (centroids res)) in
   let scores' := scores sw ++ [silhouetteScore] in
   let inertias' := inertias sw ++ [inertia res] in
   if better silhouetteScore (bestScore sw) then
     ret (mkSweep k (Some silhouetteScore) (assignments res) (centroids res)
                  (sizesOf k (assignments res)) scores' inertias')
   else
     ret (mkSweep (optimalK sw) (bestScore sw) (finalAssignments sw)
                  (finalCentroids sw) (finalClusterSizes sw) scores' inertias'))%run.

Fixpoint sweep (positions : list Position) (candidates : list nat) (sw : Sweep) : Run Sweep :=
  match candidates with
  | [] => ret sw
  | k :: rest => (let* sw' := tryK positions sw k in sweep positions rest sw')%run
  end.

(** [Array.from({length: maxK - 1}, (_, i) => i + 2)]; a length that is not
    positive gives the empty array. *)
Definition candidateRange (n : nat) : list nat :=
  let maxK := Nat.min 20 (n / 10) in
  map (fun i => (i + 2)%nat) (seq 0 (maxK - 1)).

Definition performKMeansClustering (positions : list Position) : Run Selection :=
  if (length positions =? 0)%nat then
    ret (mkSelection 0 [] [] [] None None None)
  else
    let kRange := candidateRange (length positions) in
    (let* sw := sweep positions kRange (mkSweep 2 None [] [] [] [] []) in
     ret (mkSelection (optimalK sw) (finalAssignments sw) (finalCentroids sw)
                      (finalClusterSizes sw) (Some (scores sw)) (Some (inertias sw))
                      (Some kRange)))%run.

End Scoring.

(** ** Convex hull builder *)

Module Hull.

(** The test of the loop that looks for the pivot. *)
Definition lower (p lowestPoint : Point) : bool :=
  Js.ltb (fst p) (fst lowestPoint) ||
  (Js.eqb (fst p) (fst lowestPoint) && Js.ltb (snd p) (snd lowestPoint)).

Definition lowestOf (first : Point) (rest : list Point) : Point :=
  fold_left (fun lowestPoint p => if lower p lowestPoint then p else lowestPoint)
            rest first.

(** The comparator given to [sort]. *)
Definition compareAngle (lowestPoint a b : Point) : R :=
  let angleA := Js.atan2 (fst a - fst lowestPoint) (snd a - snd lowestPoint) in
  let angleB := Js.atan2 (fst b - fst lowestPoint) (snd b - snd lowestPoint) in
  if negb (Js.eqb angleA angleB) then (angleB - angleA)%R
  else
    let distA := (Rsqr (fst a - fst lowestPoint) + Rsqr (snd a - snd lowestPoint))%R in
    let distB := (Rsqr (fst b - fst lowestPoint) + Rsqr (snd b - snd lowestPoint))%R in
    (distA - distB)%R.

(** [Array.prototype.sort] is stable: an element goes behind the ones the
    comparator does not put after it.  This is insertion from the left. *)
Fixpoint insertSorted (cmp : Point -> Point -> R) (x : Point) (sorted : list Point) : list Point :=
  match sorted with
  | [] => [x]
  | y :: sorted' =>
      if Js.ltb (cmp x y) 0 then x :: y :: sorted'
      else y :: insertSorted cmp x sorted'
  end.

Definition sortBy (cmp : Point -> Point -> R) (l : list Point) : list Point :=
  fold_left (fun sorted x => insertSorted cmp x sorted) l [].

Definition isCounterClockwise (p1 p2 p3 : Point) : bool :=
  Js.ltb 0 ((snd p2 - snd p1) * (fst p3 - fst p2) -
            (fst p2 - fst p1) * (snd p3 - snd p2)).

(** The inner [while]: the stack is kept with its top first. *)
Fixpoint popWhile (stack : list Point) (p : Point) : list Point :=
  match stack with
  | top :: (below :: _) as rest =>
      if isCounterClockwise below top p then stack else popWhile rest p
  | _ => stack
  end.

Definition scan (stack : list Point) (sortedRest : list Point) : list Point :=
  fold_left (fun hull p => p :: popWhile hull p) sortedRest stack.

Definition calculateConvexHull (points : list Point) : list Point :=
  if (length points <? 3)%nat then points
  else
    match points with
    | [] => points
    | first :: rest =>
        let lowestPoint := lowestOf first rest in
        let sortedPoints := sortBy (compareAngle lowestPoint) points in
        rev (scan (rev (take 2 sortedPoints)) (drop 2 sortedPoints))
    end.

(** *** What a hull must be *)

(** The turn of [p1], [p2], [p3], with the longitude as abscissa: the
    quantity [isCounterClockwise] tests. *)
Definition turn (p1 p2 p3 : Point) : R :=
  ((snd p2 - snd p1) * (fst p3 - fst p2) -
   (fst p2 - fst p1) * (snd p3 - snd p2))%R.

(** The edges of the closed polygon. *)
Definition edges (polygon : list Point) : list (Point * Point) :=
  match polygon with
  | [] => []
  | first :: rest => zip polygon (rest ++ [first])
  end.

(** [p] is inside or on the polygon: on the same side of every edge, or on it. *)
Definition insideOrOn (polygon : list Point) (p : Point) : Prop :=
  (forall e, In e (edges polygon) -> (0 <= turn (fst e) (snd e) p)%R) \/
  (forall e, In e (edges polygon) -> (turn (fst e) (snd e) p <= 0)%R).

End Hull.

(** ** Sample inputs *)

Module Samples.

Import Centroid.

(** Values of the generator. *)
Definition zero01 : unit01 := mkUnit01 0 (conj (Rle_refl 0) Rlt_0_1).
Definition half01 : unit01 := mkUnit01 (1 / 2) ltac:(lra).

(** A generator that always gives zero. *)
Definition zeroSource : RandomSource := fun _ => zero01.

(** A generator that gives zero once and one half ever after. *)
Definition zeroThenHalf : RandomSource :=
  fun n => match n with O => zero01 | S _ => half01 end.

(** A generator that always gives one half. *)
Definition halfSource : RandomSource := fun _ => half01.

(** A generator that gives zero, one half, and zero ever after. *)
Definition zeroHalfZero : RandomSource :=
  fun n => match n with
           | O => zero01
           | S O => half01
           | S (S _) => zero01
           end.


(** Two positions on the equator, a quarter of a great circle apart. *)
Definition twoPoints : list Position := [(0, 0, 10); (0, 90, 10)]%R.

(** Three positions on the equator, two of them on either side of the
    antimeridian. *)
Definition straddle : list Position := [(0, -170, 10); (0, 170, 10); (0, -100, 10)]%R.

(** The four corners of the unit square, as [[lat, lng]] pairs. *)
Definition square : list Point := [(0, 0); (0, 1); (1, 1); (1, 0)]%R.

End Samples.
(** ** Metrics of the selected clustering *)

Module Metrics.

Import Centroid Scoring.

(** The result of [Math.max] and [Math.min] on a list of counts: the
    functions give minus and plus infinity on no argument. *)
Inductive Extreme : Type :=
  | NegInfinity
  | Count (n : nat)
  | PosInfinity.

(** [Math.max(...sizes)]. *)
Definition maxOf (sizes : list nat) : Extreme :=
  match sizes with
  | [] => NegInfinity
  | size :: rest => Count (fold_left Nat.max rest size)
  end.

(** [Math.min(...sizes)]. *)
Definition minOf (sizes : list nat) : Extreme :=
  match sizes with
  | [] => PosInfinity
  | size :: rest => Count (fold_left Nat.min rest size)
  end.

Definition calculateGlobalCentroid (positions : list Position) : Point :=
  if (length positions =? 0)%nat then (0, 0)%R
  else
    let sumLat := fold_left (fun sum pos => (sum + pos0 pos)%R) positions 0%R in
    let sumLng := fold_left (fun sum pos => (sum + pos1 pos)%R) positions 0%R in
    (sumLat / INR (length positions), sumLng / INR (length positions))%R.

(** The loop that adds up the distance of every position to the centroid of
    its cluster, from index [i] on.  [centroids[clusterId]] is [undefined]
    for an id that is [undefined] or no index of the array, and reading its
    coordinate is the [TypeError] ([None]). *)
Fixpoint distanceToCentroids (rest : list Position) (i : nat)
    (assignments : list Z) (centroids : list Point)
    (totalDistanceToCentroid : R) : option R :=
  match rest with
  | [] => Some totalDistanceToCentroid
  | pos :: rest' =>
      clusterId ← assignments !! i;
      if (0 <=? clusterId)%Z then
        centroid ← centroids !! Z.to_nat clusterId;
        distanceToCentroids rest' (S i) assignments centroids
          (totalDistanceToCentroid +
           haversineDistance (pos0 pos) (pos1 pos) (fst centroid) (snd centroid))%R
      else None
  end.

(** The distances of the pairs [i < j] of centroids, in the order of the
    two loops. *)
Fixpoint pairDistances (centroids : list Point) : list R :=
  match centroids with
  | [] => []
  | c :: rest => map (dist c) rest ++ pairDistances rest
  end.

Definition totalVarianceOf (positions : list Position) (globalCentroid : Point) : R :=
  fold_left (fun totalVariance position =>
               let distance :=
                 haversineDistance (pos0 position) (pos1 position)
                                   (fst globalCentroid) (snd globalCentroid) in
               (totalVariance + distance * distance)%R)
            positions 0%R.

(** The loop over the centroids from index [i] on; a size that is missing
    or zero leaves the sum as it is. *)
Fixpoint betweenVariance (rest : list Point) (i : nat) (clusterSizes : list nat)
    (globalCentroid : Point) (betweenClusterVariance : R) : R :=
  match rest with
  | [] => betweenClusterVariance
  | centroid :: rest' =>
      match clusterSizes !! i with
      | Some clusterSize =>
          if (0 <? clusterSize)%nat then
            let distance := dist centroid globalCentroid in
            betweenVariance rest' (S i) clusterSizes globalCentroid
              (betweenClusterVariance + INR clusterSize * distance * distance)%R
          else betweenVariance rest' (S i) clusterSizes globalCentroid
                 betweenClusterVariance
      | None => betweenVariance rest' (S i) clusterSizes globalCentroid
                  betweenClusterVariance
      end
  end.

(** The result object.  [silhouetteScore] is [undefined] ([None]) when
    [k - 2] is no index of the list of scores. *)
Record ClusterMetrics : Type := mkClusterMetrics {
  silhouetteScore : option R;
  avgDistanceToCentroid : R;
  largestCluster : Extreme;
  smallestCluster : Extreme;
  avgInterClusterDistance : R;
  varianceExplained : R
}.

(** [silhouetteScores[k - 2]]. *)
Definition scoreAt (silhouetteScores : list R) (k : nat) : option R :=
  if (2 <=? k)%nat then silhouetteScores !! (k - 2)%nat else None.

Definition calculateClusterMetrics (positions : list Position)
    (kMeansResults : Selection) : option ClusterMetrics :=
  let k := Scoring.k kMeansResults in
  let assignments := sel_assignments kMeansResults in
  let centroids := sel_centroids kMeansResults in
  let clusterSizes := Scoring.clusterSizes kMeansResults in
  if (length positions =? 0)%nat || (k =? 0)%nat then
    Some (mkClusterMetrics (Some 0%R) 0%R (Count 0) (Count 0) 0%R 0%R)
  else
    totalDistanceToCentroid ←
      distanceToCentroids positions 0 assignments centroids 0%R;
    let avgDistanceToCentroid :=
      (totalDistanceToCentroid / INR (length positions))%R in
    let largestCluster := maxOf clusterSizes in
    let smallestCluster :=
      minOf (List.filter (fun size => (0 <? size)%nat) clusterSizes) in
    let distances := pairDistances centroids in
    let totalInterClusterDistance := fold_left Rplus distances 0%R in
    let pairCount := length distances in
    let avgInterClusterDistance :=
      if (0 <? pairCount)%nat
      then (totalInterClusterDistance / INR pairCount)%R else 0%R in
    let globalCentroid := calculateGlobalCentroid positions in
    let totalVariance := totalVarianceOf positions globalCentroid in
    let betweenClusterVariance :=
      betweenVariance centroids 0 clusterSizes globalCentroid 0%R in
    let varianceExplained :=
      if Js.ltb 0 totalVariance
      then (betweenClusterVariance / totalVariance)%R else 0%R in
    let computed :=
      score ← calculateSilhouetteScore positions assignments centroids;
      Some (Some score) in
    silhouetteScore ←
      match silhouetteScores kMeansResults with
      | Some scores =>
          if (0 <? length scores)%nat then Some (scoreAt scores k) else computed
      | None => computed
      end;
    Some (mkClusterMetrics silhouetteScore avgDistanceToCentroid largestCluster
            smallestCluster avgInterClusterDistance varianceExplained).

(** The two computations of [displayClusterStatistics], whose results it
    renders: the clustering, then its metrics; a [TypeError] of the second
    ends the run. *)
Definition displayClusterStatistics (positions : list Position)
  : Run (Selection * ClusterMetrics) :=
  (let* kMeansResults := performKMeansClustering positions in
   let* clusterMetrics := defined (calculateClusterMetrics positions kMeansResults) in
   ret (kMeansResults, clusterMetrics))%run.

End Metrics.

(** ** Altitude statistics *)

Module Altitude.

(** [[...values].sort((a, b) => a - b)], as the stable insertion of the
    hull's sort; on numbers every sort that follows the comparator gives
    the same array. *)
Fixpoint insertNumber (x : R) (sorted : list R) : list R :=
  match sorted with
  | [] => [x]
  | y :: sorted' =>
      if Js.ltb (x - y) 0 then x :: y :: sorted'
      else y :: insertNumber x sorted'
  end.

Definition sortNumbers (values : list R) : list R :=
  fold_left (fun sorted x => insertNumber x sorted) values [].

(** The two reads [sorted[middle - 1]] and [sorted[middle]] are inside the
    array whenever it is not empty, so the default of [nth] is never seen. *)
Definition calculateMedian (values : list R) : R :=
  if (length values =? 0)%nat then 0%R
  else
    let sorted := sortNumbers values in
    let middle := (length sorted / 2)%nat in
    if (length sorted mod 2 =? 0)%nat then
      ((nth (middle - 1) sorted 0 + nth middle sorted 0) / 2)%R
    else nth middle sorted 0%R.

(** A bin object without its label (a rendering of the two bounds). *)
Record Bin : Type := mkBin {
  bin_count : nat;
  lowerBound : R;
  upperBound : R
}.

Definition ceil (x : R) : Z := Zceil x.

Definition binIndexOf (binSize min : R) (numBins : Z) (value : R) : Z :=
  Z.min (Js.floor ((value - min) / binSize)) (numBins - 1).

(** [bins[binIndex]++]: a negative index names no element of the array, and
    the array keeps its elements. *)
Definition countValue (binSize min : R) (numBins : Z) (bins : list nat) (value : R)
  : list nat :=
  let binIndex := binIndexOf binSize min numBins value in
  if (0 <=? binIndex)%Z then alter S (Z.to_nat binIndex) bins else bins.

(** [Array(numBins)] throws a [RangeError] ([None]) unless [numBins] is an
    integer from 0 to 2^32 - 1; a [binSize] of zero makes the quotient
    infinite or NaN. *)
Definition createHistogramBins (values : list R) (binSize min max : R)
  : option (list Bin) :=
  if Js.eqb binSize 0 then None
  else
    let numBins := ceil ((max - min) / binSize) in
    if (numBins <? 0)%Z || (4294967295 <? numBins)%Z then None
    else
      let bins :=
        fold_left (countValue binSize min numBins) values
                  (replicate (Z.to_nat numBins) 0%nat) in
      Some (imap (fun i count =>
                    mkBin count (min + INR i * binSize) (min + (INR i + 1) * binSize))%R
                 bins).

(** [region.reduce((sum, pos) => sum + pos[2], 0) / region.length], or 0 for
    an empty region. *)
Definition averageAltitude (region : list Position) : R :=
  if (0 <? length region)%nat then
    (fold_left (fun sum pos => sum + pos2 pos) region 0 / INR (length region))%R
  else 0%R.

Record RegionalAltitudes : Type := mkRegional {
  northernAvg : R;
  southernAvg : R;
  easternAvg : R;
  westernAvg : R
}.

Definition northernOf (positions : list Position) : list Position :=
  List.filter (fun pos => Js.ltb 0 (pos0 pos)) positions.
Definition southernOf (positions : list Position) : list Position :=
  List.filter (fun pos => Js.leb (pos0 pos) 0) positions.
Definition easternOf (positions : list Position) : list Position :=
  List.filter (fun pos => Js.ltb 0 (pos1 pos)) positions.
Definition westernOf (positions : list Position) : list Position :=
  List.filter (fun pos => Js.leb (pos1 pos) 0) positions.

Definition calculateRegionalAltitudes (positions : list Position) : RegionalAltitudes :=
  let northernPos := northernOf positions in
  let southernPos := southernOf positions in
  let easternPos := easternOf positions in
  let westernPos := westernOf positions in
  mkRegional (averageAltitude northernPos) (averageAltitude southernPos)
             (averageAltitude easternPos) (averageAltitude westernPos).

(** One hour of [balloonData]: an entry of the array may be missing, be
    flagged as corrupted, or have no positions.  The timestamp is a value
    that the trend only copies; a number stands for it. *)
Record TimeData : Type := mkTimeData {
  corrupted : bool;
  positions : option (list Position);
  timestamp : Z
}.

Record TrendEntry : Type := mkTrend {
  hour : nat;
  trend_timestamp : Z;
  mean : R;
  median : R;
  trend_count : nat
}.

(** The test [timeData && !timeData.corrupted && timeData.positions &&
    timeData.positions.length > 0], giving the positions it lets through. *)
Definition usable (timeData : option TimeData) : option (TimeData * list Position) :=
  match timeData with
  | Some td =>
      if corrupted td then None
      else match positions td with
           | Some ps => if (0 <? length ps)%nat then Some (td, ps) else None
           | None => None
           end
  | None => None
  end.

(** The loop of [calculateAltitudeTrend] from hour [i] on; [balloonData] is
    the global array the function reads. *)
Fixpoint trendFrom (i : nat) (rest : list (option TimeData)) : list TrendEntry :=
  match rest with
  | [] => []
  | timeData :: rest' =>
      match usable timeData with
      | Some (td, ps) =>
          let altitudes := map pos2 ps in
          let mean := (fold_left Rplus altitudes 0 / INR (length altitudes))%R in
          let median := calculateMedian altitudes in
          mkTrend i (timestamp td) mean median (length altitudes)
            :: trendFrom (S i) rest'
      | None => trendFrom (S i) rest'
      end
  end.

Definition calculateAltitudeTrend (balloonData : list (option TimeData))
  : list TrendEntry :=
  trendFrom 0 balloonData.

End Altitude.

(** ** Regions: hemispheres, latitude bands and named regions *)

From Stdlib Require String.

Module Regions.

Import String.StringSyntax.
Local Open Scope string_scope.

(** [(count / positions.length) * 100]; for no position the quotient is
    [0 / 0]. *)
Definition percentOf (count : Z) (total : nat) : Js.xnum :=
  if (total =? 0)%nat then Js.NaN
  else Js.Fin (IZR count / INR total * 100)%R.

Record RegionalDistribution : Type := mkDistribution {
  northern : nat;
  southern : nat;
  equatorial : nat;
  polar : nat;
  temperate : Z;
  northernPercent : Js.xnum;
  southernPercent : Js.xnum;
  equatorialPercent : Js.xnum;
  polarPercent : Js.xnum;
  temperatePercent : Js.xnum
}.

Definition calculateRegionalDistribution (positions : list Position)
  : RegionalDistribution :=
  let northern := length (List.filter (fun pos => Js.ltb 0 (pos0 pos)) positions) in
  let southern := length (List.filter (fun pos => Js.leb (pos0 pos) 0) positions) in
  let equatorial :=
    length (List.filter (fun pos => Js.leb (Rabs (pos0 pos)) 23.5) positions) in
  let polar :=
    length (List.filter (fun pos => Js.leb 66.5 (Rabs (pos0 pos))) positions) in
  let temperate :=
    (Z.of_nat (length positions) - Z.of_nat equatorial - Z.of_nat polar)%Z in
  mkDistribution northern southern equatorial polar temperate
    (percentOf (Z.of_nat northern) (length positions))
    (percentOf (Z.of_nat southern) (length positions))
    (percentOf (Z.of_nat equatorial) (length positions))
    (percentOf (Z.of_nat polar) (length positions))
    (percentOf temperate (length positions)).

(** *** [identifyCoverageGaps] *)

Definition regions : list String.string :=
  ["North Pacific"; "North Atlantic"; "Arctic"; "Northern Europe";
   "Russia"; "North America"; "Central Asia"; "East Asia";
   "South Pacific"; "South Atlantic"; "Antarctica"; "Africa";
   "Middle East"; "South America"; "Australia"; "Indian Ocean"].

Definition regionMap : list (list nat) :=
  [[8; 0; 2; 3; 4; 5; 6; 7; 7; 8; 8; 8];
   [8; 0; 2; 3; 4; 5; 6; 7; 7; 8; 8; 8];
   [0; 0; 1; 3; 4; 5; 6; 7; 0; 0; 0; 0];
   [0; 0; 1; 11; 12; 5; 13; 7; 0; 0; 0; 0];
   [15; 15; 11; 11; 12; 13; 13; 15; 15; 15; 15; 15];
   [15; 15; 11; 11; 12; 13; 13; 15; 15; 15; 15; 15];
   [9; 9; 11; 11; 12; 13; 14; 15; 8; 8; 8; 9];
   [9; 9; 9; 10; 10; 10; 14; 14; 8; 8; 8; 9];
   [9; 9; 9; 10; 10; 10; 10; 10; 10; 9; 9; 9]]%nat.

Definition regionLatIndex (lat : R) : Z := Z.min (Js.floor ((90 + lat) / 20)) 8.
Definition regionLngIndex (lng : R) : Z := Z.min (Js.floor ((180 + lng) / 30)) 11.

(** The guard of the counting loop: the two indices name a cell of
    [regionMap]. *)
Definition inRegionMap (latIndex lngIndex : Z) : bool :=
  (0 <=? latIndex)%Z && (latIndex <? Z.of_nat (length regionMap))%Z &&
  (0 <=? lngIndex)%Z &&
  (lngIndex <? Z.of_nat (length (nth 0 regionMap [])))%Z.

(** The body of [positions.forEach]. *)
Definition countRegion (regionCounts : list nat) (pos : Position) : list nat :=
  let latIndex := regionLatIndex (pos0 pos) in
  let lngIndex := regionLngIndex (pos1 pos) in
  if inRegionMap latIndex lngIndex then
    match regionMap !! Z.to_nat latIndex ≫= fun row => row !! Z.to_nat lngIndex with
    | Some regionIndex => alter S regionIndex regionCounts
    | None => regionCounts
    end
  else regionCounts.

(** One round of the loop that looks for the two extreme regions; the two
    reads of [regionCounts] are inside the array. *)
Definition extremeStep (regionCounts : list nat) (state : nat * nat) (i : nat)
  : nat * nat :=
  let '(minRegion, maxRegion) := state in
  let minRegion' :=
    if (nth i regionCounts 0 <? nth minRegion regionCounts 0)%nat
    then i else minRegion in
  let maxRegion' :=
    if (nth maxRegion regionCounts 0 <? nth i regionCounts 0)%nat
    then i else maxRegion in
  (minRegion', maxRegion').

(** The result object; each of the two texts is given by the name and the
    count it renders. *)
Record CoverageGaps : Type := mkGaps {
  largestGapRegion : String.string * nat;
  mostConcentratedRegion : String.string * nat;
  regionCounts : list nat
}.

Definition identifyCoverageGaps (positions : list Position) : CoverageGaps :=
  let regionCounts :=
    fold_left countRegion positions (replicate (length regions) 0%nat) in
  let '(minRegion, maxRegion) :=
    fold_left (extremeStep regionCounts) (seq 0 (length regionCounts)) (0%nat, 0%nat) in
  mkGaps (nth minRegion regions String.EmptyString, nth minRegion regionCounts 0%nat)
         (nth maxRegion regions String.EmptyString, nth maxRegion regionCounts 0%nat)
         regionCounts.

(** *** [getRegionName] *)

Record Region : Type := mkRegion {
  name : String.string;
  latRange : R * R;
  lngRange : R * R
}.

Definition regionTable : list Region :=
  [mkRegion "North America" (15, 70) (-170, -50);
   mkRegion "South America" (-60, 15) (-90, -30);
   mkRegion "Europe" (35, 70) (-10, 40);
   mkRegion "Africa" (-40, 35) (-20, 50);
   mkRegion "Asia" (0, 70) (40, 150);
   mkRegion "Australia/Oceania" (-50, 0) (110, 180);
   mkRegion "Antarctica" (-90, -60) (-180, 180);
   mkRegion "Arctic" (70, 90) (-180, 180);
   mkRegion "North Atlantic" (0, 70) (-80, -10);
   mkRegion "South Atlantic" (-60, 0) (-70, 20);
   mkRegion "North Pacific" (0, 70) (150, -170);
   mkRegion "South Pacific" (-60, 0) (150, -70);
   mkRegion "Indian Ocean" (-60, 30) (50, 110)]%R.

(** The test of the loop body: the latitude is in the range, and the
    longitude is in the range, which wraps around the antimeridian when its
    first bound is the larger one. *)
Definition inRegion (lat lng : R) (region : Region) : bool :=
  Js.leb (fst (latRange region)) lat && Js.leb lat (snd (latRange region)) &&
  (if Js.ltb (snd (lngRange region)) (fst (lngRange region))
   then Js.leb (fst (lngRange region)) lng || Js.leb lng (snd (lngRange region))
   else Js.leb (fst (lngRange region)) lng && Js.leb lng (snd (lngRange region))).

Definition getRegionName (lat lng : R) : String.string :=
  match List.find (inRegion lat lng) regionTable with
  | Some region => name region
  | None => "Open Ocean"
  end.

End Regions.

(** ** Arrays with their indices *)

Module Spread.

(** The elements of an array with their indices, as a counting loop meets
    them. *)
Definition indexed {A : Type} (l : list A) : list (nat * A) :=
  zip (seq 0 (length l)) l.

End Spread.

(** ** The largest gap of the coverage grid *)

Module Gaps.

Import Coverage.

(** One round of the two loops of [estimateGapSize], for the cell
    [(latIndex, lngIndex)] and the cell [(i, j)] of the grid. *)
Definition nearer (grid : Grid) (latIndex lngIndex : nat) (minDistance : Js.xnum)
    (p : nat * nat) : Js.xnum :=
  let '(i, j) := p in
  match cellAt grid i j with
  | Some cell =>
      if covered cell then
        let lat1 := latCenter latIndex in
        let lng1 := lngCenter lngIndex in
        let lat2 := latCenter i in
        let lng2 := lngCenter j in
        let distance := haversineDistance lat1 lng1 lat2 lng2 in
        Js.min_x minDistance distance
      else minDistance
  | None => minDistance
  end.

(** [estimateGapSize]: the distance from the centre of a cell to the centre
    of the nearest covered cell, [Infinity] when no cell is covered. *)
Definition estimateGapSize (grid : Grid) (latIndex lngIndex : nat) : Js.xnum :=
  fold_left (nearer grid latIndex lngIndex) cellPairs Js.PInf.

(** [a > b] on numbers that may be [Infinity]. *)
Definition gt_x (a b : Js.xnum) : bool :=
  match a, b with
  | Js.Fin x, Js.Fin y => Js.ltb y x
  | Js.PInf, Js.Fin _ => true
  | _, _ => false
  end.

(** The three variables [maxGapDistance], [maxGapLat] and [maxGapLng] of
    [calculateCoverageMetrics]. *)
Record GapState : Type := mkGap {
  maxGapDistance : Js.xnum;
  maxGapLat : R;
  maxGapLng : R
}.

(** What the loop over the cells does for a cell that is not covered. *)
Definition gapStep (grid : Grid) (state : GapState) (p : nat * nat) : GapState :=
  let '(latIndex, lngIndex) := p in
  match cellAt grid latIndex lngIndex with
  | Some cell =>
      if covered cell then state
      else
        let gapSize := estimateGapSize grid latIndex lngIndex in
        if gt_x gapSize (maxGapDistance state)
        then mkGap gapSize (latCenter latIndex) (lngCenter lngIndex)
        else state
  | None => state
  end.

(** The gap part of the result of [calculateCoverageMetrics]:
    [maxGapDistance] and [maxGapLocation]. *)
Definition largestGap (positions : list Position) : GapState :=
  fold_left (gapStep (markedGrid positions)) cellPairs (mkGap (Js.Fin 0) 0 0).

(** [density]: balloons per million square kilometres. *)
Definition density (positions : list Position) : R :=
  (INR (length positions) / (510100000 / 1000000))%R.

End Gaps.

(** ** The density map *)

Module DensityMap.

Import Coverage Regions Spread Gaps.

Record DensityCell : Type := mkDensityCell {
  dc_lat : R;
  dc_lng : R;
  dc_count : nat;
  region : String.string
}.

Definition gridSize : Z := 10.

(** The grid of 10 degree cells, one flat array, with the centre and the
    region name of each cell. *)
Definition densityGrid : list DensityCell :=
  flat_map (fun lat =>
              map (fun lng =>
                     mkDensityCell (IZR lat + IZR gridSize / 2) (IZR lng + IZR gridSize / 2) 0
                       (getRegionName (IZR lat + IZR gridSize / 2)
                                      (IZR lng + IZR gridSize / 2)))%R
                  (loopValues 360 (-180) 180 gridSize))
           (loopValues 180 (-90) 90 gridSize).

(** The distance in degrees that the search for the cell of a position
    uses; the longitude difference is taken around the globe. *)
Definition cellDistance (cell : DensityCell) (lat lng : R) : R :=
  let latDiff := Rabs (dc_lat cell - lat) in
  let lngDiff := Rmin (Rabs (dc_lng cell - lng)) (360 - Rabs (dc_lng cell - lng)) in
  sqrt (latDiff * latDiff + lngDiff * lngDiff).

(** One round of [for (const cell of grid)]: [nearestCell] is kept as the
    index of the cell object in the grid, [None] for [null]. *)
Definition nearestCellStep (lat lng : R) (state : option nat * Js.xnum)
    (ic : nat * DensityCell) : option nat * Js.xnum :=
  let '(nearestCell, minDistance) := state in
  let '(i, cell) := ic in
  let distance := cellDistance cell lat lng in
  if Js.lt_x distance minDistance then (Some i, Js.Fin distance) else state.

Definition nearestCellOf (grid : list DensityCell) (lat lng : R) : option nat :=
  fst (fold_left (nearestCellStep lat lng) (indexed grid) (None, Js.PInf)).

(** [nearestCell.count++] on the cell object of the grid. *)
Definition bump (cell : DensityCell) : DensityCell :=
  mkDensityCell (dc_lat cell) (dc_lng cell) (S (dc_count cell)) (region cell).

(** The body of [positions.forEach]. *)
Definition countPosition (grid : list DensityCell) (pos : Position) : list DensityCell :=
  match nearestCellOf grid (pos0 pos) (pos1 pos) with
  | Some i => alter bump i grid
  | None => grid
  end.

(** The loop that looks for the cell with the highest count, the first one
    among equals; the loop for [lowestDensityCell] feeds no part of the
    result. *)
Definition highestDensityCellOf (first : DensityCell) (grid : list DensityCell)
  : DensityCell :=
  fold_left (fun highestDensityCell cell =>
               if (dc_count highestDensityCell <? dc_count cell)%nat
               then cell else highestDensityCell)
            grid first.

Record IsolationScore : Type := mkIsolation {
  iso_position : Position;
  iso_distance : Js.xnum;
  iso_region : String.string
}.

(** The distance from the position of index [idx] to its nearest
    neighbour, [Infinity] when there is no other position. *)
Definition nearestNeighbourDistance (positions : list Position) (idx : nat)
    (pos : Position) : Js.xnum :=
  fold_left (fun nearestDistance '(j, pj) =>
               if (idx =? j)%nat then nearestDistance
               else Js.min_x nearestDistance
                      (haversineDistance (pos0 pos) (pos1 pos) (pos0 pj) (pos1 pj)))
            (indexed positions) Js.PInf.

Definition isolationScoresOf (positions : list Position) : list IsolationScore :=
  map (fun '(idx, pos) =>
         mkIsolation pos (nearestNeighbourDistance positions idx pos)
                     (getRegionName (pos0 pos) (pos1 pos)))
      (indexed positions).

(** The [reduce] that looks for the most isolated balloon; its start, an
    object with the distance minus infinity and nothing else, is [None]. *)
Definition mostIsolatedOf (isolationScores : list IsolationScore)
  : option IsolationScore :=
  fold_left (fun most current =>
               match most with
               | None => match iso_distance current with
                         | Js.NaN => None
                         | _ => Some current
                         end
               | Some m =>
                   if gt_x (iso_distance current) (iso_distance m)
                   then Some current else most
               end)
            isolationScores None.

(** The result object: for no position the two texts are ["N/A"] and there
    are no isolation scores; otherwise each text is given by the region and
    the number it renders. *)
Inductive DensityDistribution : Type :=
  | NotAvailable
  | Distribution (highestDensityRegion : String.string * nat)
                 (mostIsolatedRegion : option (String.string * Js.xnum))
                 (densityMap : list DensityCell)
                 (isolationScores : list IsolationScore).

(** [grid[0]] is read before the loop over the cells: on an empty grid the
    read of its count is a [TypeError] ([None]). *)
Definition calculateDensityDistribution (positions : list Position)
  : option DensityDistribution :=
  if (length positions =? 0)%nat then Some NotAvailable
  else
    let grid := fold_left countPosition positions densityGrid in
    first ← head grid;
    let highestDensityCell := highestDensityCellOf first grid in
    let isolationScores := isolationScoresOf positions in
    let mostIsolated := mostIsolatedOf isolationScores in
    Some (Distribution
            (region highestDensityCell, dc_count highestDensityCell)
            (option_map (fun m => (iso_region m, iso_distance m)) mostIsolated)
            (List.filter (fun cell => (0 <? dc_count cell)%nat) grid)
            isolationScores).

End DensityMap.


(** ** The great-circle distance in double precision

    The arithmetic of [haversineDistance] as the engine performs it: the
    binary64 numbers of the kernel, whose sum, difference, product, quotient
    and square root round as IEEE 754 prescribes.  [Math.sin], [Math.cos] and
    [Math.atan2] belong to the engine and not to the code; the standard
    leaves their last digit to the implementation, so they are a parameter
    of the function. *)

From Stdlib Require Floats.

Module Ieee.

Import Floats.
Local Open Scope float_scope.

(** The three functions of [Math] that [haversineDistance] calls. *)
Record MathLib : Type := mkMath {
  sin : float -> float;
  cos : float -> float;
  atan2 : float -> float -> float
}.

(** [Math.PI], 3.141592653589793. *)
Definition PI : float := 0x1.921fb54442d18p+1.

Definition haversineDistance (m : MathLib) (lat1 lon1 lat2 lon2 : float) : float :=
  let R := 6371 in
  let dLat := (lat2 - lat1) * PI / 180 in
  let dLon := (lon2 - lon1) * PI / 180 in
  let a :=
    sin m (dLat / 2) * sin m (dLat / 2) +
    cos m (lat1 * PI / 180) * cos m (lat2 * PI / 180) *
    sin m (dLon / 2) * sin m (dLon / 2) in
  let c := 2 * atan2 m (sqrt a) (sqrt (1 - a)) in
  R * c.

(** The angle of 12 degrees in radians, 0.20943951023931953, and a quarter
    of a turn, 1.5707963267948966, as the conversions of the function
    compute them. *)
Definition deg12 : float := 0x1.acee9f37bebd5p-3.
Definition deg90 : float := 0x1.921fb54442d18p+0.

(** The doubles nearest to the sine and the cosine of [deg12],
    0.20791169081775931 and 0.9781476007338057. *)
Definition sin12 : float := 0x1.a9cd9ac4258f5p-3.
Definition cos12 : float := 0x1.f4cfc327a0080p-1.

(** A table of [Math] at the arguments that the distances between the
    positions (12, 0) and (-12, -180) reach, with the nearest double as the
    value; it is NaN at every other argument. *)
Definition nearestAt12 : MathLib :=
  mkMath
    (fun x =>
       if x =? 0 then 0
       else if x =? deg12 then sin12
       else if x =? - deg12 then - sin12
       else if x =? deg90 then 1
       else if x =? - deg90 then -1
       else nan)
    (fun x => if abs x =? deg12 then cos12 else nan)
    (fun y x =>
       if is_nan y || is_nan x then nan
       else if (y =? 0) && (x =? 1) then 0
       else nan).

End Ieee.

(** ** Clustering and scoring over computed distances

    In double precision [haversineDistance] returns a number that is not
    negative, or NaN: both square roots are NaN or not negative, and
    [Math.atan2] of two numbers that are not negative lies between 0 and a
    quarter of a turn (module [Ieee] shows a valid pair whose distance is
    NaN).  The functions that add, compare and divide distances are embedded
    here over such a distance function, which is their parameter: a NaN
    spreads through the sums and quotients and makes every comparison false,
    as in the code.  Coordinates stay real numbers. *)

Module Computed.

Import Js Centroid.

(** What a distance can be. *)
Definition distanceValue (d : xnum) : Prop :=
  match d with
  | Fin r => (0 <= r)%R
  | PInf => False
  | NaN => True
  end.

(** The distance function never leaves these values. *)
Definition lawful (haversine : R -> R -> R -> R -> xnum) : Prop :=
  forall lat1 lon1 lat2 lon2, distanceValue (haversine lat1 lon1 lat2 lon2).

(** The distances of exact arithmetic, where no NaN arises. *)
Definition exactDistance (lat1 lon1 lat2 lon2 : R) : xnum :=
  Fin (haversineDistance lat1 lon1 lat2 lon2).

(** [Math.min(m, x)]. *)
Definition min_xx (m x : xnum) : xnum :=
  match x with
  | Fin r => min_x m r
  | PInf => m
  | NaN => NaN
  end.

(** [x < m]; every comparison with NaN is false. *)
Definition lt_xx (x m : xnum) : bool :=
  match x with
  | Fin r => lt_x r m
  | PInf => false
  | NaN => false
  end.

(** [x === 0]. *)
Definition isZero (x : xnum) : bool :=
  match x with
  | Fin r => eqb r 0
  | _ => false
  end.

(** [a / n] for a count [n]. *)
Definition over (a : xnum) (n : nat) : xnum := div_x a (Fin (INR n)).

(** [n * d * d] for a count [n] that is not zero. *)
Definition weighted (n : nat) (d : xnum) : xnum :=
  match d with
  | Fin r => Fin (INR n * r * r)
  | PInf => PInf
  | NaN => NaN
  end.

(** [Math.sqrt(Math.max(0, meanSquare - mean * mean))]: with an infinite
    mean the difference is minus infinity or NaN. *)
Definition rootOfVariance (meanSquare mean : xnum) : xnum :=
  match meanSquare, mean with
  | Fin s, Fin m => Fin (sqrt (Rmax 0 (s - m * m)))
  | PInf, Fin _ => PInf
  | Fin _, PInf => Fin 0
  | _, _ => NaN
  end.

(** [x > 0]. *)
Definition isPositive (x : xnum) : bool :=
  match x with
  | Fin r => ltb 0 r
  | PInf => true
  | NaN => false
  end.

Section Distances.

Variable haversine : R -> R -> R -> R -> xnum.

Definition dist (p q : Point) : xnum :=
  haversine (fst p) (snd p) (fst q) (snd q).

(** *** Seeding *)

Definition minDistanceTo (point : Point) (centroids : list Point) : xnum :=
  fold_left (fun minDistance centroid => min_xx minDistance (dist point centroid))
            centroids PInf.

Definition seedDistances (points centroids : list Point) : list xnum :=
  map (fun point => sq_x (minDistanceTo point centroids)) points.

Definition chooseNext (points centroids : list Point) (randomValue : R) : nat :=
  let distances := seedDistances points centroids in
  let sum := fold_left add_x distances (Fin 0) in
  let probabilities := map (fun d => div_x d sum) distances in
  pickFrom 0 (Fin 0) probabilities randomValue.

Fixpoint seedLoop (rounds : nat) (points centroids : list Point) : Run (list Point) :=
  match rounds with
  | O => ret centroids
  | S rounds' =>
      (let* randomValue := random in
       let nextCentroid := chooseNext points centroids randomValue in
       let* p := defined (points !! nextCentroid) in
       seedLoop rounds' points (centroids ++ [p]))%run
  end.

Definition initializeCentroids (points : list Point) (k : nat) : Run (list Point) :=
  if (length points =? 0)%nat || (k =? 0)%nat then ret []
  else
    (let* r := random in
     let firstCentroid := Z.to_nat (Js.floor (r * INR (length points))) in
     let* p := defined (points !! firstCentroid) in
     seedLoop (k - 1) points [p])%run.

(** *** Refinement *)

Definition closestStep (point : Point) (state : nat * xnum * nat)
    (centroid : Point) : nat * xnum * nat :=
  let '(j, minDistance, closestCentroid) := state in
  let distance := dist point centroid in
  if lt_xx distance minDistance
  then (S j, distance, j)
  else (S j, minDistance, closestCentroid).

Definition closestCentroid (point : Point) (centroids : list Point) : nat :=
  snd (fold_left (closestStep point) centroids (0%nat, PInf, 0%nat)).

Definition assignPoints (points centroids : list Point) : list Z :=
  map (fun point => Z.of_nat (closestCentroid point centroids)) points.

(** The [while] loop; the centroid update adds and divides coordinates only
    and is the one of module [Centroid]. *)
Fixpoint refine (fuel k : nat) (points centroids : list Point)
    (oldAssignments assignments : list Z) : option (list Z * list Point) :=
  match fuel with
  | O => Some (assignments, centroids)
  | S fuel' =>
      let assignments' := assignPoints points centroids in
      if unchanged (length points) assignments' oldAssignments
      then Some (assignments', centroids)
      else
        centroids' ← updateCentroids k points assignments' centroids;
        refine fuel' k points centroids' assignments' assignments'
  end.

Fixpoint inertiaOf (points : list Point) (assignments : list Z)
    (centroids : list Point) (inertia : xnum) : option xnum :=
  match points, assignments with
  | point :: points', clusterId :: assignments' =>
      if (0 <=? clusterId)%Z then
        centroid ← centroids !! Z.to_nat clusterId;
        inertiaOf points' assignments' centroids
                  (add_x inertia (sq_x (dist point centroid)))
      else None
  | [], _ => Some inertia
  | _ :: _, [] => None
  end.

Record KMeansResult : Type := mkResult {
  assignments : list Z;
  centroids : list Point;
  inertia : xnum
}.

Definition kMeansCluster (positions : list Position) (k : nat) : Run KMeansResult :=
  if (length positions =? 0)%nat || (k =? 0)%nat then ret (mkResult [] [] (Fin 0))
  else
    let points := pointsOf positions in
    (let* seeds := initializeCentroids points k in
     let start := replicate (length points) (-1)%Z in
     let* (assignments, centroids) :=
       defined (refine maxIterations k points seeds start start) in
     let* inertia := defined (inertiaOf points assignments centroids (Fin 0)) in
     ret (mkResult assignments centroids inertia))%run.

(** *** Silhouette scoring *)

Definition totalDistanceFrom (p : Position) (others : list Position) : xnum :=
  fold_left (fun totalDistance otherPoint =>
               add_x totalDistance
                     (haversine (pos0 p) (pos1 p) (pos0 otherPoint) (pos1 otherPoint)))
            others (Fin 0).

Definition calculateAverageDistanceToSameCluster (pointIndex : nat)
    (positions : list Position) (assignments : list Z) : option xnum :=
  let pointCluster := assignments !! pointIndex in
  let pointsInSameCluster :=
    Scoring.filterIndex 0
      (fun i => negb (i =? pointIndex)%nat &&
                Scoring.sameCluster (assignments !! i) pointCluster)
      positions in
  if (length pointsInSameCluster =? 0)%nat then Some (Fin 0)
  else
    p ← positions !! pointIndex;
    Some (over (totalDistanceFrom p pointsInSameCluster) (length pointsInSameCluster)).

Definition nearestStep (pointIndex : nat) (positions : list Position)
    (assignments : list Z) (nearest : option xnum) (clusterId : nat)
  : option xnum :=
  nearestClusterDistance ← nearest;
  if Scoring.sameCluster (Some (Z.of_nat clusterId)) (assignments !! pointIndex)
  then Some nearestClusterDistance
  else
    let pointsInCluster :=
      Scoring.filterIndex 0
        (fun i => Scoring.sameCluster (assignments !! i) (Some (Z.of_nat clusterId)))
        positions in
    if (length pointsInCluster =? 0)%nat then Some nearestClusterDistance
    else
      p ← positions !! pointIndex;
      let avgDistance :=
        over (totalDistanceFrom p pointsInCluster) (length pointsInCluster) in
      Some (min_xx nearestClusterDistance avgDistance).

(** [nearestClusterDistance === Infinity ? 0 : nearestClusterDistance]. *)
Definition calculateAverageDistanceToNearestCluster (pointIndex : nat)
    (positions : list Position) (assignments : list Z) (centroids : list Point)
  : option xnum :=
  nearestClusterDistance ←
    fold_left (nearestStep pointIndex positions assignments)
              (seq 0 (length centroids)) (Some PInf);
  match nearestClusterDistance with
  | PInf => Some (Fin 0)
  | d => Some d
  end.

(** The silhouette of one point from its two averages, which are numbers
    that are not negative, or NaN; with an operand that is no number the
    quotient is NaN. *)
Definition silhouetteOf (a b : xnum) : xnum :=
  if isZero a && isZero b then Fin 0
  else
    match a, b with
    | Fin x, Fin y => Fin ((y - x) / Rmax x y)
    | _, _ => NaN
    end.

Definition silhouetteValue (positions : list Position) (assignments : list Z)
    (centroids : list Point) (i : nat) : option xnum :=
  a ← calculateAverageDistanceToSameCluster i positions assignments;
  b ← calculateAverageDistanceToNearestCluster i positions assignments centroids;
  Some (silhouetteOf a b).

Definition calculateSilhouetteScore (positions : list Position)
    (assignments : list Z) (centroids : list Point) : option xnum :=
  if (length positions <=? 1)%nat || (length centroids <=? 1)%nat then Some (Fin 0)
  else
    silhouetteValues ←
      mapM (silhouetteValue positions assignments centroids)
           (seq 0 (length positions));
    let sum := fold_left add_x silhouetteValues (Fin 0) in
    Some (over sum (length silhouetteValues)).

(** *** Automatic choice of k *)

Record Selection : Type := mkSelection {
  k : nat;
  sel_assignments : list Z;
  sel_centroids : list Point;
  clusterSizes : list nat;
  silhouetteScores : option (list xnum);
  inertiaValues : option (list xnum);
  kRange : option (list nat)
}.

(** The variables of the loop over the candidates.  [bestScore] starts at
    minus infinity, which is [None] here; afterwards it is a score that
    passed the comparison. *)
Record Sweep : Type := mkSweep {
  optimalK : nat;
  bestScore : option xnum;
  finalAssignments : list Z;
  finalCentroids : list Point;
  finalClusterSizes : list nat;
  scores : list xnum;
  inertias : list xnum
}.

(** [silhouetteScore > bestScore]: false for a score that is NaN. *)
Definition better (score : xnum) (best : option xnum) : bool :=
  match score, best with
  | NaN, _ => false
  | _, None => true
  | _, Some b => lt_xx b score
  end.

Definition tryK (positions : list Position) (sw : Sweep) (k : nat) : Run Sweep :=
  (let* res := kMeansCluster positions k in
   let* silhouetteScore :=
     defined (calculateSilhouetteScore positions (assignments res) (centroids res)) in
   let scores' := scores sw ++ [silhouetteScore] in
   let inertias' := inertias sw ++ [inertia res] in
   if better silhouetteScore (bestScore sw) then
     ret (mkSweep k (Some silhouetteScore) (assignments res) (centroids res)
                  (Scoring.sizesOf k (assignments res)) scores' inertias')
   else
     ret (mkSweep (optimalK sw) (bestScore sw) (finalAssignments sw)
                  (finalCentroids sw) (finalClusterSizes sw) scores' inertias'))%run.

Fixpoint sweep (positions : list Position) (candidates : list nat) (sw : Sweep) : Run Sweep :=
  match candidates with
  | [] => ret sw
  | k :: rest => (let* sw' := tryK positions sw k in sweep positions rest sw')%run
  end.

Definition performKMeansClustering (positions : list Position) : Run Selection :=
  if (length positions =? 0)%nat then
    ret (mkSelection 0 [] [] [] None None None)
  else
    let kRange := Scoring.candidateRange (length positions) in
    (let* sw := sweep positions kRange (mkSweep 2 None [] [] [] [] []) in
     ret (mkSelection (optimalK sw) (finalAssignments sw) (finalCentroids sw)
                      (finalClusterSizes sw) (Some (scores sw)) (Some (inertias sw))
                      (Some kRange)))%run.

(** *** Statistics of the selected clustering *)

(** The loop that adds up the distance of every position to the centroid of
    its cluster, from index [i] on; reading a coordinate of
    [centroids[clusterId]] for an id that names no centroid is the
    [TypeError] ([None]). *)
Fixpoint distanceToCentroids (rest : list Position) (i : nat)
    (assignments : list Z) (centroids : list Point)
    (totalDistanceToCentroid : xnum) : option xnum :=
  match rest with
  | [] => Some totalDistanceToCentroid
  | pos :: rest' =>
      clusterId ← assignments !! i;
      if (0 <=? clusterId)%Z then
        centroid ← centroids !! Z.to_nat clusterId;
        distanceToCentroids rest' (S i) assignments centroids
          (add_x totalDistanceToCentroid
                 (haversine (pos0 pos) (pos1 pos) (fst centroid) (snd centroid)))
      else None
  end.

(** The distances of the pairs [i < j] of centroids, in the order of the
    two loops. *)
Fixpoint pairDistances (centroids : list Point) : list xnum :=
  match centroids with
  | [] => []
  | c :: rest => map (dist c) rest ++ pairDistances rest
  end.

Definition totalVarianceOf (positions : list Position) (globalCentroid : Point) : xnum :=
  fold_left (fun totalVariance position =>
               let distance :=
                 haversine (pos0 position) (pos1 position)
                           (fst globalCentroid) (snd globalCentroid) in
               add_x totalVariance (sq_x distance))
            positions (Fin 0).

Fixpoint betweenVariance (rest : list Point) (i : nat) (clusterSizes : list nat)
    (globalCentroid : Point) (betweenClusterVariance : xnum) : xnum :=
  match rest with
  | [] => betweenClusterVariance
  | centroid :: rest' =>
      match clusterSizes !! i with
      | Some clusterSize =>
          if (0 <? clusterSize)%nat then
            let distance := dist centroid globalCentroid in
            betweenVariance rest' (S i) clusterSizes globalCentroid
              (add_x betweenClusterVariance (weighted clusterSize distance))
          else betweenVariance rest' (S i) clusterSizes globalCentroid
                 betweenClusterVariance
      | None => betweenVariance rest' (S i) clusterSizes globalCentroid
                  betweenClusterVariance
      end
  end.

(** The result object.  [silhouetteScore] is [undefined] ([None]) when
    [k - 2] is no index of the list of scores. *)
Record ClusterMetrics : Type := mkClusterMetrics {
  silhouetteScore : option xnum;
  avgDistanceToCentroid : xnum;
  largestCluster : Metrics.Extreme;
  smallestCluster : Metrics.Extreme;
  avgInterClusterDistance : xnum;
  varianceExplained : xnum
}.

(** [silhouetteScores[k - 2]]. *)
Definition scoreAt (silhouetteScores : list xnum) (k : nat) : option xnum :=
  if (2 <=? k)%nat then silhouetteScores !! (k - 2)%nat else None.

Definition calculateClusterMetrics (positions : list Position)
    (kMeansResults : Selection) : option ClusterMetrics :=
  let k := k kMeansResults in
  let assignments := sel_assignments kMeansResults in
  let centroids := sel_centroids kMeansResults in
  let clusterSizes := clusterSizes kMeansResults in
  if (length positions =? 0)%nat || (k =? 0)%nat then
    Some (mkClusterMetrics (Some (Fin 0)) (Fin 0) (Metrics.Count 0)
                           (Metrics.Count 0) (Fin 0) (Fin 0))
  else
    totalDistanceToCentroid ←
      distanceToCentroids positions 0 assignments centroids (Fin 0);
    let avgDistanceToCentroid := over totalDistanceToCentroid (length positions) in
    let largestCluster := Metrics.maxOf clusterSizes in
    let smallestCluster :=
      Metrics.minOf (List.filter (fun size => (0 <? size)%nat) clusterSizes) in
    let distances := pairDistances centroids in
    let totalInterClusterDistance := fold_left add_x distances (Fin 0) in
    let pairCount := length distances in
    let avgInterClusterDistance :=
      if (0 <? pairCount)%nat
      then over totalInterClusterDistance pairCount else Fin 0 in
    let globalCentroid := Metrics.calculateGlobalCentroid positions in
    let totalVariance := totalVarianceOf positions globalCentroid in
    let betweenClusterVariance :=
      betweenVariance centroids 0 clusterSizes globalCentroid (Fin 0) in
    let varianceExplained :=
      if isPositive totalVariance
      then div_x betweenClusterVariance totalVariance else Fin 0 in
    let computed :=
      score ← calculateSilhouetteScore positions assignments centroids;
      Some (Some score) in
    silhouetteScore ←
      match silhouetteScores kMeansResults with
      | Some scores =>
          if (0 <? length scores)%nat then Some (scoreAt scores k) else computed
      | None => computed
      end;
    Some (mkClusterMetrics silhouetteScore avgDistanceToCentroid largestCluster
            smallestCluster avgInterClusterDistance varianceExplained).

(** The two computations of [displayClusterStatistics], whose results it
    renders: the clustering, then its metrics; a [TypeError] of the second
    ends the run. *)
Definition displayClusterStatistics (positions : list Position)
  : Run (Selection * ClusterMetrics) :=
  (let* kMeansResults := performKMeansClustering positions in
   let* clusterMetrics := defined (calculateClusterMetrics positions kMeansResults) in
   ret (kMeansResults, clusterMetrics))%run.

(** *** Pairwise distances *)

(** The body of the inner loop of [calculateDensityMetrics] over [j], for
    the point [pi] of index [i]: the state is the three running sums and the
    nearest distance so far. *)
Definition innerStep (i : nat) (pi : Position) (state : xnum * xnum * nat * xnum)
    (jp : nat * Position) : xnum * xnum * nat * xnum :=
  let '(totalDistance, distanceSquaredSum, distanceCount, nearestDistance) := state in
  let '(j, pj) := jp in
  if (i =? j)%nat then state
  else
    let distance := haversine (pos0 pi) (pos1 pi) (pos0 pj) (pos1 pj) in
    (add_x totalDistance distance, add_x distanceSquaredSum (sq_x distance),
     S distanceCount, min_xx nearestDistance distance).

(** The body of the outer loop over [i]; a nearest distance that is still
    [Infinity] is not added. *)
Definition outerStep (positions : list Position) (state : xnum * xnum * nat * xnum)
    (ip : nat * Position) : xnum * xnum * nat * xnum :=
  let '(totalDistance, distanceSquaredSum, distanceCount, nearestNeighborSum) := state in
  let '(i, pi) := ip in
  let '(totalDistance', distanceSquaredSum', distanceCount', nearestDistance) :=
    fold_left (innerStep i pi) (Spread.indexed positions)
              (totalDistance, distanceSquaredSum, distanceCount, PInf) in
  (totalDistance', distanceSquaredSum', distanceCount',
   match nearestDistance with
   | PInf => nearestNeighborSum
   | d => add_x nearestNeighborSum d
   end).

Record DensityMetrics : Type := mkDensity {
  meanDistance : xnum;
  stdDevDistance : xnum;
  nearestNeighborAvg : xnum
}.

Definition calculateDensityMetrics (positions : list Position) : DensityMetrics :=
  let '(totalDistance, distanceSquaredSum, distanceCount, nearestNeighborSum) :=
    fold_left (outerStep positions) (Spread.indexed positions)
              (Fin 0, Fin 0, 0%nat, Fin 0) in
  let meanDistance :=
    if (0 <? distanceCount)%nat then over totalDistance distanceCount else Fin 0 in
  let stdDevDistance :=
    if (0 <? distanceCount)%nat
    then rootOfVariance (over distanceSquaredSum distanceCount) meanDistance
    else Fin 0 in
  let nearestNeighborAvg :=
    if (0 <? length positions)%nat
    then over nearestNeighborSum (length positions) else Fin 0 in
  mkDensity meanDistance stdDevDistance nearestNeighborAvg.

End Distances.

(** The positions of [Samples.twoPoints] as centroids. *)
Definition twoCentroids : list Point := [(0, 0); (0, 90)]%R.

(** *** Specification predicates *)

(** Every distance between two of the positions is a number. *)
Definition allNumbers (haversine : R -> R -> R -> R -> xnum)
    (positions : list Position) : Prop :=
  forall p q, p ∈ positions -> q ∈ positions ->
    haversine (pos0 p) (pos1 p) (pos0 q) (pos1 q) <> NaN.

(** A number that is not negative; NaN as well unless [strict] holds. *)
Definition valueIf (strict : Prop) (x : xnum) : Prop :=
  match x with
  | Fin r => (0 <= r)%R
  | PInf => False
  | NaN => ~ strict
  end.

(** The same for a running minimum, which starts at infinity. *)
Definition minimumIf (strict : Prop) (m : xnum) : Prop :=
  match m with
  | Fin r => (0 <= r)%R
  | PInf => True
  | NaN => ~ strict
  end.

(** A number between -1 and 1; NaN as well unless [strict] holds. *)
Definition scoreIf (strict : Prop) (score : xnum) : Prop :=
  match score with
  | Fin s => (-1 <= s <= 1)%R
  | PInf => False
  | NaN => ~ strict
  end.

(** A sum of [n] such scores added to the number [acc]. *)
Definition sumIf (strict : Prop) (acc : R) (n : nat) (sum : xnum) : Prop :=
  match sum with
  | Fin s => (acc - INR n <= s <= acc + INR n)%R
  | PInf => False
  | NaN => ~ strict
  end.

(** A score is NaN or a number between -1 and 1. *)
Definition scoreValue (score : xnum) : Prop := scoreIf False score.

(** The arrays the loop over the candidates keeps for the selected [k]
    agree with each other, for [n] positions. *)
Definition wellFormed (n : nat) (sw : Sweep) : Prop :=
  length (finalAssignments sw) = n /\
  Forall (inRange (optimalK sw)) (finalAssignments sw) /\
  length (finalCentroids sw) = optimalK sw /\
  finalClusterSizes sw = Scoring.sizesOf (optimalK sw) (finalAssignments sw).

(** Nothing was selected: the variables of the loop are as they started. *)
Definition untouched (sw : Sweep) : Prop :=
  optimalK sw = 2%nat /\ finalAssignments sw = [] /\ finalCentroids sw = [] /\
  finalClusterSizes sw = [].

(** What the loop knows after the candidates [done]: one score and one
    inertia per candidate; while every score was NaN nothing is selected;
    afterwards the selected candidate is the first one whose score is the
    highest of the scores that are numbers. *)
Definition bestSoFar (strict : Prop) (n : nat) (done : list nat) (sw : Sweep) : Prop :=
  length (scores sw) = length done /\
  length (inertias sw) = length done /\
  Forall (scoreIf strict) (scores sw) /\
  match bestScore sw with
  | None => Forall (fun score => score = NaN) (scores sw) /\ untouched sw
  | Some best =>
      wellFormed n sw /\
      exists idx b,
        best = Fin b /\
        done !! idx = Some (optimalK sw) /\
        scores sw !! idx = Some (Fin b) /\
        (forall j s, scores sw !! j = Some (Fin s) -> (s <= b)%R) /\
        (forall j s, (j < idx)%nat -> scores sw !! j = Some (Fin s) -> (s < b)%R)
  end.

(** The selection is a clustering of [n] positions into [k] clusters, [k]
    one of the candidates. *)
Definition consistent (n : nat) (sel : Selection) : Prop :=
  (2 <= k sel <= Nat.min 20 (n / 10))%nat /\
  length (sel_assignments sel) = n /\
  Forall (fun a => (0 <= a < Z.of_nat (k sel))%Z) (sel_assignments sel) /\
  length (sel_centroids sel) = k sel /\
  length (clusterSizes sel) = k sel /\
  list_sum (clusterSizes sel) = n.

(** The selection reports [k = 2] and holds no clustering. *)
Definition nothingSelected (sel : Selection) : Prop :=
  k sel = 2%nat /\ sel_assignments sel = [] /\ sel_centroids sel = [] /\
  clusterSizes sel = [].

End Computed.

(** ** Further sample inputs *)

From Stdlib Require FunctionalExtensionality.

Module Inputs.

(** Three positions of the equator one degree apart and a fourth a quarter
    of the way round: about 111 kilometres between neighbours, and some
    9800 kilometres or more to the fourth. *)
Definition clusterAndOutlier : list Position :=
  [(0, 0, 10); (0, 1, 10); (0, 2, 10); (0, 90, 10)]%R.

(** The indices within 500 kilometres of each of them. *)
Definition neighboursOfSample (i : nat) : list nat :=
  match i with
  | 0 => [1; 2]
  | 1 => [0; 2]
  | 2 => [0; 1]
  | _ => []
  end%nat.

(** Thirty positions of the equator, one degree apart. *)
Definition thirty : list Position :=
  map (fun i => (0, INR i, 10)%R) (seq 0 30).

End Inputs.

(** ** Specification predicates for further properties *)

Module Spec.

Import Coverage Density Centroid Scoring Hull.

(** The guard of the marking loop, on a position. *)
Definition guarded (pos : Position) : bool :=
  inGrid (latIndexOf (pos0 pos)) (lngIndexOf (pos1 pos)).

(** A visited point with at least [minPoints - 1] neighbours is not noise. *)
Definition coreAssigned (neighborsOf : nat -> list nat)
    (vis : list bool) (assign : list Z) : Prop :=
  forall i a,
    isVisited vis i = true ->
    (minPoints - 1 <= length (neighborsOf i))%nat ->
    assign !! i = Some a -> a <> (-1)%Z.


(** The latitude and longitude ranges of the data model, for a point. *)
Definition inBox (p : Point) : Prop :=
  (-90 <= fst p <= 90)%R /\ (-180 <= snd p <= 180)%R.

(** Coordinate sums of [c] points of the box each. *)
Definition boundedSums (sums : list Point) (counts : list nat) : Prop :=
  Forall2 (fun s c =>
             (INR c * -90 <= fst s <= INR c * 90)%R /\
             (INR c * -180 <= snd s <= INR c * 180)%R) sums counts.

(** The list is in ascending order: every element is at most the ones
    behind it. *)
Fixpoint ascending (s : list R) : Prop :=
  match s with
  | [] => True
  | a :: s' => Forall (Rle a) s' /\ ascending s'
  end.


(** A running minimum that has met a distance. *)
Definition finiteNonneg (m : Js.xnum) : Prop :=
  match m with
  | Js.Fin d => (0 <= d)%R
  | _ => False
  end.

(** Every three neighbours of the stack of the scan (its top first) make a
    turn that [isCounterClockwise] accepts. *)
Definition leftTurns (stack : list Point) : Prop :=
  forall i a b c,
    stack !! i = Some a -> stack !! S i = Some b -> stack !! S (S i) = Some c ->
    isCounterClockwise c b a = true.




(** Every point with a cluster id has been visited, and every cluster
    started so far has a point. *)
Definition populated (vis : list bool) (assign : list Z) (count : nat) : Prop :=
  (forall i a, assign !! i = Some a -> a <> (-1)%Z -> isVisited vis i = true) /\
  (forall c, (c < count)%nat -> exists i, assign !! i = Some (Z.of_nat c)).

End Spec.

(** * Properties *)

(** ** Facts about the primitives *)

Module JsFacts.

Import Js.

Lemma ltb_true x y : (x < y)%R -> ltb x y = true.
Proof. intros H. unfold ltb. destruct (Rlt_dec x y); [reflexivity | contradiction]. Qed.

Lemma ltb_false x y : (y <= x)%R -> ltb x y = false.
Proof. intros H. unfold ltb. destruct (Rlt_dec x y); [lra | reflexivity]. Qed.

Lemma leb_true x y : (x <= y)%R -> leb x y = true.
Proof. intros H. unfold leb. destruct (Rle_dec x y); [reflexivity | contradiction]. Qed.

Lemma leb_false x y : (y < x)%R -> leb x y = false.
Proof. intros H. unfold leb. destruct (Rle_dec x y); [lra | reflexivity]. Qed.

Lemma eqb_true x y : x = y -> eqb x y = true.
Proof. intros H. unfold eqb. destruct (Req_dec_T x y); [reflexivity | contradiction]. Qed.

Lemma eqb_false x y : x <> y -> eqb x y = false.
Proof. intros H. unfold eqb. destruct (Req_dec_T x y); [contradiction | reflexivity]. Qed.

Lemma atan2_pos_x y x : (0 < x)%R -> atan2 y x = atan (y / x).
Proof. intros H. unfold atan2. destruct (Rlt_dec 0 x); [reflexivity | contradiction]. Qed.

Lemma atan2_zero_x_pos_y y : (0 < y)%R -> atan2 y 0 = (PI / 2)%R.
Proof.
  intros H. unfold atan2.
  destruct (Rlt_dec 0 0); [lra |].
  destruct (Rlt_dec 0 y); [reflexivity | contradiction].
Qed.

Lemma atan2_0_0 : atan2 0 0 = 0%R.
Proof. unfold atan2. destruct (Rlt_dec 0 0); [lra | reflexivity]. Qed.

Lemma atan2_0_pos x : (0 < x)%R -> atan2 0 x = 0%R.
Proof.
  intros H. rewrite atan2_pos_x by assumption.
  replace (0 / x)%R with 0%R by (unfold Rdiv; ring). apply atan_0.
Qed.

(** On the closed first quadrant the angle lies between 0 and a right angle. *)
Lemma atan2_quadrant y x :
  (0 <= y)%R -> (0 <= x)%R -> (0 <= atan2 y x <= PI / 2)%R.
Proof.
  intros Hy Hx. pose proof PI_RGT_0 as Hpi. unfold atan2.
  destruct (Rlt_dec 0 x) as [Hx0 | Hx0].
  - assert (0 <= y / x)%R as Hq.
    { unfold Rdiv. apply Rmult_le_pos; [assumption |].
      left. apply Rinv_0_lt_compat. assumption. }
    pose proof (atan_bound (y / x)) as [_ Hub].
    split; [| lra].
    destruct Hq as [Hq | Hq].
    + left. rewrite <- atan_0. apply atan_increasing. assumption.
    + rewrite <- Hq, atan_0. lra.
  - destruct (Rlt_dec x 0); [lra |].
    destruct (Rlt_dec 0 y); [lra |].
    destruct (Rlt_dec y 0); lra.
Qed.

End JsFacts.

(** ** Geodesy *)

Module GeodesyFacts.

Import Js JsFacts.

(** The quantity under the square roots, as a function of the two half
    angles and the two latitudes. *)
Lemma haversine_unfold lat1 lon1 lat2 lon2 :
  haversineDistance lat1 lon1 lat2 lon2 =
  (6371 * (2 * atan2
     (sqrt (sin ((lat2 - lat1) * PI / 180 / 2) * sin ((lat2 - lat1) * PI / 180 / 2) +
            cos (lat1 * PI / 180) * cos (lat2 * PI / 180) *
            sin ((lon2 - lon1) * PI / 180 / 2) * sin ((lon2 - lon1) * PI / 180 / 2)))
     (sqrt (1 - (sin ((lat2 - lat1) * PI / 180 / 2) * sin ((lat2 - lat1) * PI / 180 / 2) +
                 cos (lat1 * PI / 180) * cos (lat2 * PI / 180) *
                 sin ((lon2 - lon1) * PI / 180 / 2) * sin ((lon2 - lon1) * PI / 180 / 2))))))%R.
Proof. reflexivity. Qed.

Lemma haversine_self lat lon : haversineDistance lat lon lat lon = 0%R.
Proof.
  rewrite haversine_unfold.
  replace ((lat - lat) * PI / 180 / 2)%R with 0%R by (unfold Rdiv; ring).
  replace ((lon - lon) * PI / 180 / 2)%R with 0%R by (unfold Rdiv; ring).
  rewrite sin_0.
  replace (0 * 0 + cos (lat * PI / 180) * cos (lat * PI / 180) * 0 * 0)%R
    with 0%R by ring.
  rewrite Rminus_0_r, sqrt_0, sqrt_1, atan2_0_pos by lra. ring.
Qed.

Lemma sin_half_swap x y :
  (sin ((x - y) * PI / 180 / 2) * sin ((x - y) * PI / 180 / 2) =
   sin ((y - x) * PI / 180 / 2) * sin ((y - x) * PI / 180 / 2))%R.
Proof.
  replace ((x - y) * PI / 180 / 2)%R with (- ((y - x) * PI / 180 / 2))%R
    by (unfold Rdiv; ring).
  rewrite sin_neg. ring.
Qed.

Lemma haversine_sym lat1 lon1 lat2 lon2 :
  haversineDistance lat1 lon1 lat2 lon2 = haversineDistance lat2 lon2 lat1 lon1.
Proof.
  rewrite !haversine_unfold.
  rewrite (sin_half_swap lat2 lat1).
  replace (cos (lat1 * PI / 180) * cos (lat2 * PI / 180) *
           sin ((lon2 - lon1) * PI / 180 / 2) * sin ((lon2 - lon1) * PI / 180 / 2))%R
    with (cos (lat2 * PI / 180) * cos (lat1 * PI / 180) *
          sin ((lon1 - lon2) * PI / 180 / 2) * sin ((lon1 - lon2) * PI / 180 / 2))%R.
  - reflexivity.
  - rewrite !Rmult_assoc, (sin_half_swap lon1 lon2). ring.
Qed.

(** A distance is never negative. *)
Lemma haversine_nonneg lat1 lon1 lat2 lon2 :
  (0 <= haversineDistance lat1 lon1 lat2 lon2)%R.
Proof.
  rewrite haversine_unfold.
  match goal with
  | |- (0 <= 6371 * (2 * atan2 (sqrt ?a) (sqrt ?b)))%R =>
      pose proof (atan2_quadrant (sqrt a) (sqrt b) (sqrt_pos a) (sqrt_pos b))
  end.
  lra.
Qed.

End GeodesyFacts.

(** ** Convex hull: inputs below three points *)

Module HullFacts.

Import Hull.

(** C10: a list of fewer than three points is returned as it is. *)
Theorem hull_small_input_unchanged (points : list Point) :
  (length points < 3)%nat -> calculateConvexHull points = points.
Proof.
  intros Hlen. unfold calculateConvexHull.
  destruct (Nat.ltb_spec (length points) 3) as [_ | Hge]; [reflexivity | lia].
Qed.

(** The statement above for a list of two points. *)
Lemma hull_small_input_unchanged_witness :
  (length [(1, 2)%R; (3, 4)%R] < 3)%nat /\
  calculateConvexHull [(1, 2)%R; (3, 4)%R] = [(1, 2)%R; (3, 4)%R].
Proof.
  assert (length [(1, 2)%R; (3, 4)%R] < 3)%nat as Hlen by (simpl; lia).
  split; [exact Hlen |].
  exact (hull_small_input_unchanged [(1, 2)%R; (3, 4)%R] Hlen).
Defined.

End HullFacts.

(** ** Coverage grid: the upper boundaries *)

Module CoverageFacts.

Import Coverage.

Lemma latIndexOf_north_pole : latIndexOf 90 = 12%Z.
Proof. unfold latIndexOf, Js.floor. apply Zfloor_eq. simpl. lra. Qed.

Lemma lngIndexOf_antimeridian : lngIndexOf 180 = 12%Z.
Proof. unfold lngIndexOf, Js.floor. apply Zfloor_eq. simpl. lra. Qed.

Lemma inGrid_lat_12 lngIndex : inGrid 12 lngIndex = false.
Proof. reflexivity. Qed.

Lemma inGrid_lng_12 latIndex : inGrid latIndex 12 = false.
Proof. unfold inGrid. simpl. rewrite !andb_false_r. reflexivity. Qed.

(** A position on the parallel of 90 degrees marks no cell. *)
Lemma markPosition_north_pole grid lng alt :
  markPosition grid (90, lng, alt)%R = grid.
Proof.
  unfold markPosition, pos0, pos1. simpl.
  rewrite latIndexOf_north_pole, inGrid_lat_12. reflexivity.
Qed.

(** A position on the meridian of 180 degrees marks no cell. *)
Lemma markPosition_antimeridian grid lat alt :
  markPosition grid (lat, 180, alt)%R = grid.
Proof.
  unfold markPosition, pos0, pos1. simpl.
  rewrite lngIndexOf_antimeridian, inGrid_lng_12. reflexivity.
Qed.

Lemma totalCount_fresh_grid : totalCount (generateEarthGrid 15 30) = 0%nat.
Proof. vm_compute. reflexivity. Qed.

(** C4, at the upper boundaries lat = 90 and lng = 180: the valid positions
    (90, 0) and (0, 180) are put in no cell at all; the grid stays as
    generated, every occupant count is zero and no cell is covered. *)
Theorem boundary_positions_fall_outside_grid :
  markedGrid [(90, 0, 10)%R] = generateEarthGrid 15 30 /\
  markedGrid [(0, 180, 10)%R] = generateEarthGrid 15 30 /\
  totalCount (markedGrid [(90, 0, 10)%R]) = 0%nat /\
  totalCount (markedGrid [(0, 180, 10)%R]) = 0%nat /\
  Forall (fun e => entry_count e = 0%nat /\ entry_covered e = false)
         (gridDistribution (calculateCoverageMetrics [(90, 0, 10)%R])).
Proof.
  assert (markedGrid [(90, 0, 10)%R] = generateEarthGrid 15 30) as Hpole.
  { unfold markedGrid. simpl. apply markPosition_north_pole. }
  assert (markedGrid [(0, 180, 10)%R] = generateEarthGrid 15 30) as Hanti.
  { unfold markedGrid. simpl. apply markPosition_antimeridian. }
  split; [exact Hpole |]. split; [exact Hanti |].
  rewrite Hpole, Hanti. split; [apply totalCount_fresh_grid |].
  split; [apply totalCount_fresh_grid |].
  unfold calculateCoverageMetrics. simpl gridDistribution. rewrite Hpole.
  unfold gridDistributionOf, cellPairs. simpl.
  repeat (apply Forall_cons; split; [split; reflexivity |]).
  apply Forall_nil. exact I.
Qed.

(** *** Inside the half-open ranges *)

Lemma list_sum_map_alter {A : Type} (f : A -> nat) (g : A -> A) (l : list A) :
  forall i x,
  l !! i = Some x -> f (g x) = S (f x) ->
  list_sum (map f (alter g i l)) = S (list_sum (map f l)).
Proof.
  induction l as [| y l IH]; intros i x Hi Hg.
  - destruct i; discriminate.
  - destruct i as [| i]; simpl in Hi.
    + injection Hi as ->. simpl. rewrite Hg. reflexivity.
    + simpl. specialize (IH i x Hi Hg). unfold alter in IH. rewrite IH. lia.
Qed.

(** Marking a cell of the grid adds one to the total of the counts. *)
Lemma totalCount_occupy (grid : Grid) (i j : nat) row cell :
  grid !! i = Some row -> row !! j = Some cell ->
  totalCount (alter (alter occupy j) i grid) = S (totalCount grid).
Proof.
  intros Hrow Hcell. unfold totalCount.
  apply (list_sum_map_alter _ _ grid i row Hrow).
  apply (list_sum_map_alter count occupy row j cell Hcell). reflexivity.
Qed.

Lemma latIndexOf_range lat :
  (-90 <= lat < 90)%R -> (0 <= latIndexOf lat < 12)%Z.
Proof.
  intros [Hlo Hhi]. unfold latIndexOf, Js.floor.
  pose proof (Zfloor_bound ((90 + lat) / 15)) as [Hfl _].
  split.
  - apply Zfloor_lub. simpl. lra.
  - apply lt_IZR. lra.
Qed.

Lemma lngIndexOf_range lng :
  (-180 <= lng < 180)%R -> (0 <= lngIndexOf lng < 12)%Z.
Proof.
  intros [Hlo Hhi]. unfold lngIndexOf, Js.floor.
  pose proof (Zfloor_bound ((180 + lng) / 30)) as [Hfl _].
  split.
  - apply Zfloor_lub. simpl. lra.
  - apply lt_IZR. lra.
Qed.

(** A position below both upper boundaries increments one cell, the one of
    its two indices, and no other count changes. *)
Lemma interior_position_counted_once (grid : Grid) (pos : Position) :
  gridShape grid ->
  (-90 <= pos0 pos < 90)%R -> (-180 <= pos1 pos < 180)%R ->
  markPosition grid pos =
    alter (alter occupy (Z.to_nat (lngIndexOf (pos1 pos))))
          (Z.to_nat (latIndexOf (pos0 pos))) grid /\
  totalCount (markPosition grid pos) = S (totalCount grid).
Proof.
  intros [Hrows Hcols] Hlat Hlng.
  pose proof (latIndexOf_range _ Hlat) as Hi.
  pose proof (lngIndexOf_range _ Hlng) as Hj.
  unfold markPosition. cbv zeta.
  assert (inGrid (latIndexOf (pos0 pos)) (lngIndexOf (pos1 pos)) = true) as Hin.
  { unfold inGrid. rewrite !andb_true_iff.
    repeat split; first [apply Z.leb_le | apply Z.ltb_lt]; lia. }
  rewrite Hin. split; [reflexivity |].
  destruct (lookup_lt_is_Some_2 grid (Z.to_nat (latIndexOf (pos0 pos))))
    as [row Hrow]; [lia |].
  assert (length row = 12%nat) as Hlen.
  { rewrite Forall_forall in Hcols. apply Hcols.
    apply list_elem_of_lookup. eauto. }
  destruct (lookup_lt_is_Some_2 row (Z.to_nat (lngIndexOf (pos1 pos))))
    as [cell Hcell]; [lia |].
  apply (totalCount_occupy grid _ _ row cell Hrow Hcell).
Qed.

Lemma markPosition_shape grid pos : gridShape grid -> gridShape (markPosition grid pos).
Proof.
  intros [Hrows Hcols]. unfold markPosition. cbv zeta.
  destruct (inGrid _ _); [| split; assumption].
  split.
  - rewrite <- Hrows. apply length_alter.
  - apply Forall_alter; [assumption |].
    intros row _ Hlen. rewrite length_alter. assumption.
Qed.

(** A cell is covered exactly when its count is positive, in every grid the
    marking loop reaches. *)
Lemma markPosition_covered grid pos :
  coveredIffCounted grid -> coveredIffCounted (markPosition grid pos).
Proof.
  intros Hinv. unfold markPosition. cbv zeta.
  destruct (inGrid _ _); [| assumption].
  unfold coveredIffCounted in *.
  apply Forall_alter; [assumption |].
  intros row _ Hrow.
  apply Forall_alter; [assumption |].
  intros cell _ _. reflexivity.
Qed.

Lemma fresh_grid_shape : gridShape (generateEarthGrid 15 30).
Proof.
  split; [reflexivity |]. vm_compute generateEarthGrid.
  repeat (apply Forall_cons; split; [reflexivity |]).
  apply Forall_nil. exact I.
Qed.

Lemma fresh_grid_covered : coveredIffCounted (generateEarthGrid 15 30).
Proof.
  unfold coveredIffCounted. vm_compute generateEarthGrid.
  repeat (apply Forall_cons; split;
          [repeat (apply Forall_cons; split; [reflexivity |]);
           apply Forall_nil; exact I |]).
  apply Forall_nil. exact I.
Qed.

Lemma markedGrid_invariants positions :
  gridShape (markedGrid positions) /\ coveredIffCounted (markedGrid positions).
Proof.
  unfold markedGrid.
  assert (forall grid, gridShape grid /\ coveredIffCounted grid ->
            gridShape (fold_left markPosition positions grid) /\
            coveredIffCounted (fold_left markPosition positions grid)) as Hgen.
  { induction positions as [| pos positions IH]; intros grid [Hs Hc]; simpl.
    - split; assumption.
    - apply IH. split; [apply markPosition_shape | apply markPosition_covered];
        assumption. }
  apply Hgen. split; [apply fresh_grid_shape | apply fresh_grid_covered].
Qed.

End CoverageFacts.

(** ** Choice of k: the empty candidate range *)

Module SelectionFacts.

Import Centroid Scoring Samples.

(** The candidate range is empty exactly below twenty positions. *)
Lemma candidateRange_empty n : candidateRange n = [] <-> (n < 20)%nat.
Proof.
  unfold candidateRange. split.
  - intros H. apply (f_equal length) in H.
    rewrite length_map, length_seq in H. change (length []) with 0%nat in H.
    destruct (Nat.lt_ge_cases n 20) as [Hlt | Hge]; [assumption |].
    assert (2 <= n / 10)%nat by (apply Nat.div_le_lower_bound; lia). lia.
  - intros H.
    assert (n / 10 < 2)%nat by (apply Nat.Div0.div_lt_upper_bound; lia).
    replace (Nat.min 20 (n / 10) - 1)%nat with 0%nat by lia. reflexivity.
Qed.

(** C1, as the code behaves: for a list that is not empty and whose
    candidate range is empty, the result carries [k = 2] (the initial value
    of [optimalK]) with no assignments, no centroids and no cluster sizes,
    and the generator is not read. *)
Theorem empty_range_reports_k_two (positions : list Position) (g : RandomSource) :
  positions <> [] ->
  candidateRange (length positions) = [] ->
  performKMeansClustering positions g =
  Some (mkSelection 2 [] [] [] (Some []) (Some []) (Some []), g).
Proof.
  intros Hne Hrange. unfold performKMeansClustering.
  destruct (Nat.eqb_spec (length positions) 0) as [Hlen | _].
  - destruct positions; [contradiction | discriminate].
  - rewrite Hrange. reflexivity.
Qed.

(** The statement above for a single position and the constant generator. *)
Lemma empty_range_reports_k_two_witness :
  [(0, 0, 10)%R] <> ([] : list Position) /\
  candidateRange (length [(0, 0, 10)%R]) = [] /\
  performKMeansClustering [(0, 0, 10)%R] zeroSource =
  Some (mkSelection 2 [] [] [] (Some []) (Some []) (Some []), zeroSource).
Proof.
  assert ([(0, 0, 10)%R] <> ([] : list Position)) as Hne by discriminate.
  assert (candidateRange (length [(0, 0, 10)%R]) = []) as Hrange by reflexivity.
  split; [exact Hne |]. split; [exact Hrange |].
  exact (empty_range_reports_k_two [(0, 0, 10)%R] zeroSource Hne Hrange).
Defined.

(** The guard for the empty list is the only path that reports [k = 0]. *)
Lemma empty_list_reports_k_zero (g : RandomSource) :
  performKMeansClustering [] g = Some (mkSelection 0 [] [] [] None None None, g).
Proof. reflexivity. Qed.

End SelectionFacts.

(** ** Density clustering: every point ends in one state *)

Module DensityFacts.

Import Density.

Lemma validAssignment_mono c c' a :
  (c <= c')%nat -> validAssignment c a -> validAssignment c' a.
Proof. unfold validAssignment. lia. Qed.

(** Distinct indices below [n] are at most [n]. *)
Lemma bounded_NoDup_length (n : nat) (l : list nat) :
  NoDup l -> Forall (fun i => (i < n)%nat) l -> (length l <= n)%nat.
Proof.
  intros Hnd Hall.
  assert (length l <= length (seq 0 n))%nat as Hle.
  { apply NoDup_incl_length.
    - apply NoDup_ListNoDup. assumption.
    - intros x Hx. apply in_seq.
      rewrite Forall_forall in Hall.
      apply list_elem_of_In in Hx. specialize (Hall x Hx). lia. }
  rewrite length_seq in Hle. exact Hle.
Qed.

Lemma includes_false_not_in seedSet i : includes seedSet i = false -> i ∉ seedSet.
Proof.
  unfold includes. intros H Hin.
  apply list_elem_of_In in Hin.
  assert (existsb (Nat.eqb i) seedSet = true) as Ht.
  { apply existsb_exists. exists i. split; [assumption | apply Nat.eqb_refl]. }
  congruence.
Qed.

Lemma pushNeighbors_keeps n vis pointNeighbors : forall seedSet,
  NoDup seedSet -> Forall (fun i => (i < n)%nat) seedSet ->
  Forall (fun i => (i < n)%nat) pointNeighbors ->
  NoDup (pushNeighbors vis seedSet pointNeighbors) /\
  Forall (fun i => (i < n)%nat) (pushNeighbors vis seedSet pointNeighbors).
Proof.
  unfold pushNeighbors.
  induction pointNeighbors as [| nb rest IH]; intros seedSet Hnd Hb Hnb; simpl.
  - split; assumption.
  - apply Forall_cons in Hnb as [Hnb1 Hnb2].
    destruct (negb (isVisited vis nb) && negb (includes seedSet nb)) eqn:E.
    + apply andb_true_iff in E as [_ E]. apply negb_true_iff in E.
      apply includes_false_not_in in E.
      apply IH; [| | assumption].
      * apply NoDup_app. split; [assumption |]. split.
        -- intros x Hx Hx'. apply list_elem_of_singleton in Hx'. subst. contradiction.
        -- apply NoDup_singleton.
      * apply Forall_app. split; [assumption |]. apply Forall_singleton. assumption.
    + apply IH; assumption.
Qed.

Section ScanFacts.

Variable neighborsOf : nat -> list nat.
Variable n : nat.
Hypothesis neighbors_NoDup : forall i, NoDup (neighborsOf i).
Hypothesis neighbors_bounded : forall i, Forall (fun j => (j < n)%nat) (neighborsOf i).

Lemma expandStep_keeps clusterId c currentPoint seedSet vis assign :
  NoDup seedSet -> Forall (fun i => (i < n)%nat) seedSet ->
  length vis = n -> length assign = n ->
  validAssignment c clusterId -> Forall (validAssignment c) assign ->
  let '(seedSet', vis', assign') :=
    expandStep neighborsOf clusterId currentPoint seedSet vis assign in
  NoDup seedSet' /\ Forall (fun i => (i < n)%nat) seedSet' /\
  length vis' = n /\ length assign' = n /\ Forall (validAssignment c) assign'.
Proof.
  intros Hnd Hb Hv Ha Hc Hall. unfold expandStep.
  assert (forall a, length a = n ->
            Forall (validAssignment c) a ->
            length (if bool_decide (a !! currentPoint = Some (-1)%Z)
                    then <[currentPoint := clusterId]> a else a) = n /\
            Forall (validAssignment c)
                   (if bool_decide (a !! currentPoint = Some (-1)%Z)
                    then <[currentPoint := clusterId]> a else a)) as Hassign.
  { intros a Hlen Hva. destruct (bool_decide _).
    - split; [rewrite length_insert; assumption |].
      apply Forall_insert; assumption.
    - split; assumption. }
  destruct (negb (isVisited vis currentPoint)).
  - destruct (minPoints - 1 <=? length (neighborsOf currentPoint))%nat.
    + destruct (pushNeighbors_keeps n (<[currentPoint := true]> vis)
                  (neighborsOf currentPoint) seedSet Hnd Hb
                  (neighbors_bounded currentPoint)) as [Hnd' Hb'].
      destruct (Hassign assign Ha Hall) as [Hl Hf].
      repeat split; try assumption. rewrite length_insert. assumption.
    + destruct (Hassign assign Ha Hall) as [Hl Hf].
      repeat split; try assumption. rewrite length_insert. assumption.
  - destruct (Hassign assign Ha Hall) as [Hl Hf].
    repeat split; assumption.
Qed.

(** The expansion ends within the fuel: the seed set never holds more than
    [n] indices. *)
Lemma expand_returns clusterId c : forall fuel j seedSet vis assign,
  (n - j < fuel)%nat ->
  NoDup seedSet -> Forall (fun i => (i < n)%nat) seedSet ->
  length vis = n -> length assign = n ->
  validAssignment c clusterId -> Forall (validAssignment c) assign ->
  exists vis' assign',
    expand neighborsOf fuel clusterId j seedSet vis assign = Some (vis', assign') /\
    length vis' = n /\ length assign' = n /\ Forall (validAssignment c) assign'.
Proof.
  induction fuel as [| fuel IH]; intros j seedSet vis assign Hfuel Hnd Hb Hv Ha Hc Hall.
  - lia.
  - simpl. destruct (seedSet !! j) as [currentPoint |] eqn:Hj.
    + pose proof (expandStep_keeps clusterId c currentPoint seedSet vis assign
                    Hnd Hb Hv Ha Hc Hall) as Hstep.
      destruct (expandStep neighborsOf clusterId currentPoint seedSet vis assign)
        as [[seedSet' vis'] assign'].
      destruct Hstep as (Hnd' & Hb' & Hv' & Ha' & Hall').
      apply IH; try assumption.
      apply lookup_lt_Some in Hj.
      pose proof (bounded_NoDup_length n seedSet Hnd Hb). lia.
    + exists vis, assign. repeat split; assumption.
Qed.

Lemma scanPoint_returns st i :
  scanInv n st ->
  exists st', scanPoint neighborsOf (S n) st i = Some st' /\ scanInv n st'.
Proof.
  intros (Hv & Ha & Hall). unfold scanPoint.
  destruct (isVisited (visited st) i).
  - exists st. split; [reflexivity |]. repeat split; assumption.
  - destruct (length (neighborsOf i) <? minPoints - 1)%nat.
    + eexists. split; [reflexivity |]. unfold scanInv. simpl.
      rewrite !length_insert. repeat split; try assumption.
      apply Forall_insert; [assumption |]. left. reflexivity.
    + assert (validAssignment (S (clusterCount st)) (Z.of_nat (clusterCount st)))
        as Hc by (right; lia).
      destruct (expand_returns (Z.of_nat (clusterCount st)) (S (clusterCount st))
                  (S n) 0 (neighborsOf i) (<[i := true]> (visited st))
                  (<[i := Z.of_nat (clusterCount st)]> (clusterAssignments st)))
        as (vis' & assign' & Hex & Hv' & Ha' & Hall').
      * lia.
      * apply neighbors_NoDup.
      * apply neighbors_bounded.
      * rewrite length_insert. assumption.
      * rewrite length_insert. assumption.
      * assumption.
      * apply Forall_insert; [| assumption].
        eapply Forall_impl; [exact Hall |].
        intros a. apply validAssignment_mono. lia.
      * rewrite Hex. simpl. eexists. split; [reflexivity |].
        unfold scanInv. simpl. repeat split; assumption.
Qed.

Lemma scanFrom_returns indices : forall st,
  scanInv n st ->
  exists st', scanFrom neighborsOf (S n) indices st = Some st' /\ scanInv n st'.
Proof.
  unfold scanFrom.
  induction indices as [| i rest IH]; intros st Hinv; simpl.
  - exists st. split; [reflexivity | assumption].
  - destruct (scanPoint_returns st i Hinv) as (st1 & Hst1 & Hinv1).
    rewrite Hst1. apply IH. assumption.
Qed.

Lemma dbscan_returns :
  exists st, dbscan neighborsOf n = Some st /\ scanInv n st.
Proof.
  unfold dbscan.
  pose proof (scanFrom_returns (seq 0 n)
                (mkScan (replicate n false) (replicate n (-1)%Z) 0)) as H.
  apply H. unfold scanInv. simpl. rewrite !length_replicate.
  repeat split. apply Forall_replicate. left. reflexivity.
Qed.

End ScanFacts.

Lemma getNeighbors_NoDup positions i : NoDup (getNeighbors positions i).
Proof.
  unfold getNeighbors. apply NoDup_ListNoDup.
  apply List.NoDup_filter. apply List.seq_NoDup.
Qed.

Lemma getNeighbors_bounded positions i :
  Forall (fun j => (j < length positions)%nat) (getNeighbors positions i).
Proof.
  unfold getNeighbors. apply Forall_forall. intros j Hj.
  apply list_elem_of_In in Hj. apply filter_In in Hj as [Hj _].
  apply in_seq in Hj. lia.
Qed.

Lemma list_sum_alter_S (sizes : list nat) : forall i,
  (i < length sizes)%nat -> list_sum (alter S i sizes) = S (list_sum sizes).
Proof.
  induction sizes as [| x sizes IH]; intros i Hi; simpl in *.
  - lia.
  - destruct i as [| i]; simpl.
    + reflexivity.
    + specialize (IH i). unfold alter in IH. rewrite IH by lia. lia.
Qed.

(** Counting the assignments: every entry is counted once, as noise or in
    the counter of its cluster. *)
Lemma countSizes_partition c (l : list Z) :
  Forall (validAssignment c) l ->
  length (countSizes c l) = c /\
  (list_sum (countSizes c l) + countNoise l = length l)%nat.
Proof.
  unfold countSizes, countNoise. intros Hall.
  assert (forall sizes, length sizes = c ->
            length (fold_left
                      (fun sizes assignment =>
                         if (assignment =? -1)%Z then sizes
                         else alter S (Z.to_nat assignment) sizes) l sizes) = c /\
            (list_sum (fold_left
                      (fun sizes assignment =>
                         if (assignment =? -1)%Z then sizes
                         else alter S (Z.to_nat assignment) sizes) l sizes) +
             length (List.filter (fun a => (a =? -1)%Z) l) =
             list_sum sizes + length l)%nat) as Hgen.
  { induction Hall as [| a l Ha Hl IH]; intros sizes Hlen; simpl.
    - split; [assumption | lia].
    - destruct (Z.eqb_spec a (-1)) as [-> | Hne].
      + destruct (IH sizes Hlen) as [IH1 IH2]. simpl. split; [assumption | lia].
      + destruct Ha as [Ha | Ha]; [contradiction |].
        destruct (IH (alter S (Z.to_nat a) sizes)) as [IH1 IH2].
        { rewrite length_alter. assumption. }
        split; [assumption |].
        rewrite IH2, list_sum_alter_S by lia. lia. }
  destruct (Hgen (replicate c 0%nat)) as [H1 H2].
  { apply length_replicate. }
  split; [assumption |].
  rewrite H2. clear. induction c; simpl; lia.
Qed.

(** C5: density clustering returns; for a list that is not empty the
    assignment array has one entry per point, every entry is either noise
    (-1) or a cluster id in [0, clusterCount) and never both, and the
    cluster sizes and the noise points add up to the number of points.  For
    the empty list the result has zero clusters and no arrays. *)
Theorem density_clustering_partitions_points (positions : list Position) :
  exists m,
    calculateClusteringMetrics positions = Some m /\
    match m_clusterAssignments m, clusterSizes m with
    | Some assignments, Some sizes =>
        length assignments = length positions /\
        length sizes = m_clusterCount m /\
        (forall i, (i < length positions)%nat ->
           exists a, assignments !! i = Some a /\
             ((a = (-1)%Z /\ ~ (0 <= a < Z.of_nat (m_clusterCount m))%Z) \/
              (a <> (-1)%Z /\ (0 <= a < Z.of_nat (m_clusterCount m))%Z))) /\
        (list_sum sizes + countNoise assignments = length positions)%nat
    | None, None => positions = [] /\ m_clusterCount m = 0%nat
    | _, _ => False
    end.
Proof.
  unfold calculateClusteringMetrics.
  destruct (Nat.eqb_spec (length positions) 0) as [Hlen | Hlen].
  - eexists. split; [reflexivity |]. simpl.
    split; [| reflexivity]. destruct positions; [reflexivity | discriminate].
  - destruct (dbscan_returns (getNeighbors positions) (length positions)
                (getNeighbors_NoDup positions) (getNeighbors_bounded positions))
      as (st & Hst & Hv & Ha & Hall).
    rewrite Hst. simpl. eexists. split; [reflexivity |]. simpl.
    destruct (countSizes_partition (clusterCount st) (clusterAssignments st) Hall)
      as [Hsz Hsum].
    split; [assumption |]. split; [assumption |]. split.
    + intros i Hi.
      destruct (lookup_lt_is_Some_2 (clusterAssignments st) i) as [a Hlk]; [lia |].
      exists a. split; [assumption |].
      rewrite Forall_lookup in Hall. specialize (Hall i a Hlk).
      destruct Hall as [-> | Hin]; [left | right]; lia.
    + rewrite Hsum. assumption.
Qed.

End DensityFacts.

(** ** Centroid clustering: the assignments stay in range *)

Module CentroidFacts.

Import Js Centroid.

(** *** Seeding *)

Lemma pickFrom_range randomValue : forall probabilities j cumulative,
  pickFrom j cumulative probabilities randomValue = 0%nat \/
  (j <= pickFrom j cumulative probabilities randomValue < j + length probabilities)%nat.
Proof.
  induction probabilities as [| p rest IH]; intros j cumulative; simpl.
  - left. reflexivity.
  - destruct (ge_x (add_x cumulative p) randomValue).
    + right. lia.
    + destruct (IH (S j) (add_x cumulative p)) as [H | H]; [left | right]; lia.
Qed.

Lemma chooseNext_lt points centroids randomValue :
  points <> [] -> (chooseNext points centroids randomValue < length points)%nat.
Proof.
  intros Hne. unfold chooseNext. cbv zeta.
  assert (0 < length points)%nat as Hpos.
  { destruct points; [contradiction | simpl; lia]. }
  match goal with
  | |- (pickFrom 0 ?c ?probs ?r < _)%nat =>
      destruct (pickFrom_range r probs 0%nat c) as [H | H];
      [rewrite H; assumption |]
  end.
  unfold seedDistances in H. rewrite !length_map in H.
  unfold seedDistances. lia.
Qed.

Lemma seedLoop_returns points : forall rounds centroids g,
  points <> [] ->
  exists seeds g',
    seedLoop rounds points centroids g = Some (seeds, g') /\
    length seeds = (length centroids + rounds)%nat.
Proof.
  induction rounds as [| rounds IH]; intros centroids g Hne; simpl.
  - exists centroids, g. split; [reflexivity | lia].
  - unfold bind, random at 1.
    destruct (lookup_lt_is_Some_2 points
                (chooseNext points centroids (u_val (g 0%nat)))) as [p Hp].
    { apply chooseNext_lt. assumption. }
    rewrite Hp. simpl.
    destruct (IH (centroids ++ [p]) (fun n => g (S n)) Hne) as (seeds & g' & Hs & Hl).
    exists seeds, g'. split; [assumption |].
    rewrite Hl, length_app. simpl. lia.
Qed.

(** The first seed is an index of the array: the random value is below one. *)
Lemma firstCentroid_lt (u : unit01) (n : nat) :
  (0 < n)%nat -> (Z.to_nat (floor (u_val u * INR n)) < n)%nat.
Proof.
  intros Hn. destruct u as [r [Hr0 Hr1]]. simpl. unfold floor.
  assert (0 < INR n)%R as Hpos by (apply lt_0_INR; assumption).
  pose proof (Zfloor_bound (r * INR n)) as [Hlo Hhi].
  assert (r * INR n < INR n)%R as Hlt by nra.
  assert (0 <= r * INR n)%R as Hge by nra.
  assert (IZR (Zfloor (r * INR n)) < IZR (Z.of_nat n))%R as Hz.
  { rewrite <- INR_IZR_INZ. lra. }
  apply lt_IZR in Hz.
  assert (0 <= Zfloor (r * INR n))%Z as Hz0.
  { apply Zfloor_lub. simpl. assumption. }
  lia.
Qed.

Lemma initializeCentroids_returns points k g :
  points <> [] -> (1 <= k)%nat ->
  exists seeds g',
    initializeCentroids points k g = Some (seeds, g') /\ length seeds = k.
Proof.
  intros Hne Hk. unfold initializeCentroids.
  assert (0 < length points)%nat as Hpos.
  { destruct points; [contradiction | simpl; lia]. }
  destruct (Nat.eqb_spec (length points) 0) as [Hz | _]; [lia |].
  destruct (Nat.eqb_spec k 0) as [Hz | _]; [lia |]. simpl.
  unfold bind, random at 1.
  destruct (lookup_lt_is_Some_2 points
              (Z.to_nat (floor (u_val (g 0%nat) * INR (length points))))) as [p Hp].
  { apply firstCentroid_lt. assumption. }
  rewrite Hp. simpl.
  destruct (seedLoop_returns points (k - 1) [p] (fun n => g (S n)) Hne)
    as (seeds & g' & Hs & Hl).
  exists seeds, g'. split; [assumption |]. rewrite Hl. simpl. lia.
Qed.

(** *** Assignment *)

Lemma closest_fold_range point : forall cs j minDistance closest,
  snd (fold_left (closestStep point) cs (j, minDistance, closest)) = closest \/
  (j <= snd (fold_left (closestStep point) cs (j, minDistance, closest))
     < j + length cs)%nat.
Proof.
  induction cs as [| c rest IH]; intros j minDistance closest; simpl.
  - left. reflexivity.
  - destruct (lt_x (dist point c) minDistance).
    + destruct (IH (S j) (Fin (dist point c)) j) as [H | H]; right; lia.
    + destruct (IH (S j) minDistance closest) as [H | H]; [left | right];
        [assumption | lia].
Qed.

Lemma closestCentroid_lt point centroids :
  centroids <> [] -> (closestCentroid point centroids < length centroids)%nat.
Proof.
  intros Hne. unfold closestCentroid.
  assert (0 < length centroids)%nat as Hpos.
  { destruct centroids; [contradiction | simpl; lia]. }
  destruct (closest_fold_range point centroids 0%nat PInf 0%nat) as [H | H];
    simpl in H; lia.
Qed.

Lemma assignPoints_length points centroids :
  length (assignPoints points centroids) = length points.
Proof. unfold assignPoints. apply length_map. Qed.

Lemma assignPoints_inRange points centroids :
  centroids <> [] ->
  Forall (inRange (length centroids)) (assignPoints points centroids).
Proof.
  intros Hne. unfold assignPoints. apply Forall_map, Forall_forall.
  intros p _. simpl. pose proof (closestCentroid_lt p centroids Hne).
  unfold inRange. lia.
Qed.

(** *** Centroid update *)

Lemma accumulateAll_returns k : forall points assignments newCentroids counts,
  length assignments = length points ->
  Forall (inRange k) assignments ->
  length newCentroids = k -> length counts = k ->
  exists newCentroids' counts',
    accumulateAll (newCentroids, counts) points assignments =
      Some (newCentroids', counts') /\
    length newCentroids' = k /\ length counts' = k.
Proof.
  induction points as [| p points IH]; intros assignments newCentroids counts Hl Hall Hn Hc.
  - destruct assignments; simpl; eauto.
  - destruct assignments as [| a assignments]; [discriminate |].
    apply Forall_cons in Hall as [Ha Hall]. unfold inRange in Ha.
    simpl. unfold accumulate.
    destruct (Z.leb_spec 0 a) as [_ | Hneg]; [| lia].
    destruct (Nat.ltb_spec (Z.to_nat a) (length newCentroids)) as [_ | Hge]; [| lia].
    simpl. apply IH.
    + simpl in Hl. lia.
    + assumption.
    + rewrite length_alter. assumption.
    + rewrite length_alter. assumption.
Qed.

Lemma moveCentroids_returns k newCentroids counts : forall rounds i centroids,
  length centroids = k -> (i + rounds <= k)%nat ->
  exists centroids',
    moveCentroids i rounds newCentroids counts centroids = Some centroids' /\
    length centroids' = k.
Proof.
  induction rounds as [| rounds IH]; intros i centroids Hl Hi; simpl.
  - eauto.
  - destruct (counts !! i) as [c |]; [| apply IH; [assumption | lia]].
    destruct (newCentroids !! i) as [s |]; [| apply IH; [assumption | lia]].
    destruct (0 <? c)%nat; [| apply IH; [assumption | lia]].
    destruct (Nat.ltb_spec i (length centroids)) as [_ | Hge]; [| lia].
    apply IH; [| lia]. rewrite length_insert. assumption.
Qed.

Lemma updateCentroids_returns k points assignments centroids :
  length assignments = length points ->
  Forall (inRange k) assignments ->
  length centroids = k ->
  exists centroids',
    updateCentroids k points assignments centroids = Some centroids' /\
    length centroids' = k.
Proof.
  intros Hl Hall Hc. unfold updateCentroids.
  destruct (accumulateAll_returns k points assignments
              (replicate k (0%R, 0%R)) (replicate k 0%nat) Hl Hall)
    as (nc & cnt & Hacc & Hnc & Hcnt); try apply length_replicate.
  match goal with
  | |- context [accumulateAll ?acc ?ps ?asg] =>
      replace (accumulateAll acc ps asg) with (Some (nc, cnt))
        by (symmetry; exact Hacc)
  end.
  simpl. apply moveCentroids_returns; [assumption | lia].
Qed.

(** *** The loop *)

Lemma refine_returns k points : forall fuel centroids oldAssignments assignments,
  (1 <= k)%nat -> length centroids = k ->
  length assignments = length points -> Forall (inRange k) assignments ->
  exists assignments' centroids',
    refine fuel k points centroids oldAssignments assignments =
      Some (assignments', centroids') /\
    length centroids' = k /\
    length assignments' = length points /\ Forall (inRange k) assignments'.
Proof.
  induction fuel as [| fuel IH]; intros centroids old assignments Hk Hc Hl Hall; simpl.
  - eauto 10.
  - assert (centroids <> []) as Hne by (destruct centroids; [simpl in Hc; lia | discriminate]).
    pose proof (assignPoints_inRange points centroids Hne) as Hin.
    rewrite Hc in Hin.
    pose proof (assignPoints_length points centroids) as Hlen.
    destruct (unchanged _ _ _).
    + eauto 10.
    + destruct (updateCentroids_returns k points (assignPoints points centroids)
                  centroids Hlen Hin Hc) as (centroids' & Hup & Hc').
      rewrite Hup. simpl. apply IH; assumption.
Qed.

(** The first round always runs: whatever the arrays hold before the loop,
    the assignments it returns come from an assignment step. *)
Lemma refine_first_round k points fuel centroids oldAssignments assignments :
  (1 <= k)%nat -> length centroids = k ->
  exists assignments' centroids',
    refine (S fuel) k points centroids oldAssignments assignments =
      Some (assignments', centroids') /\
    length centroids' = k /\
    length assignments' = length points /\ Forall (inRange k) assignments'.
Proof.
  intros Hk Hc. simpl.
  assert (centroids <> []) as Hne by (destruct centroids; [simpl in Hc; lia | discriminate]).
  pose proof (assignPoints_inRange points centroids Hne) as Hin.
  rewrite Hc in Hin.
  pose proof (assignPoints_length points centroids) as Hlen.
  destruct (unchanged _ _ _).
  - eauto 10.
  - destruct (updateCentroids_returns k points (assignPoints points centroids)
                centroids Hlen Hin Hc) as (centroids' & Hup & Hc').
    rewrite Hup. simpl. apply refine_returns; assumption.
Qed.

Lemma inertiaOf_returns k centroids : forall points assignments,
  length centroids = k ->
  length assignments = length points -> Forall (inRange k) assignments ->
  exists inertia, inertiaOf points assignments centroids = Some inertia /\ (0 <= inertia)%R.
Proof.
  induction points as [| p points IH]; intros assignments Hc Hl Hall.
  - destruct assignments; simpl; exists 0%R; split; try reflexivity; lra.
  - destruct assignments as [| a assignments]; [discriminate |].
    apply Forall_cons in Hall as [Ha Hall]. unfold inRange in Ha. simpl.
    destruct (Z.leb_spec 0 a) as [_ | Hneg]; [| lia].
    destruct (lookup_lt_is_Some_2 centroids (Z.to_nat a)) as [c Hlk]; [lia |].
    rewrite Hlk. simpl.
    destruct (IH assignments Hc) as (rest & Hrest & Hpos);
      [simpl in Hl; lia | assumption |].
    rewrite Hrest. simpl. eexists. split; [reflexivity |].
    pose proof (Rle_0_sqr (dist p c)) as Hsq. unfold Rsqr in Hsq. lra.
Qed.

Lemma pointsOf_length positions : length (pointsOf positions) = length positions.
Proof. unfold pointsOf. apply length_map. Qed.

(** C7: for a list of positions that is not empty and [k >= 1],
    [kMeansCluster] returns, its assignment array has one entry per point,
    and every entry is a cluster id in [0, k). *)
Theorem kmeans_assignments_in_range (positions : list Position) (k : nat)
    (g : RandomSource) :
  positions <> [] -> (1 <= k)%nat ->
  exists res g',
    kMeansCluster positions k g = Some (res, g') /\
    length (assignments res) = length positions /\
    length (centroids res) = k /\
    Forall (fun a => (0 <= a < Z.of_nat k)%Z) (assignments res).
Proof.
  intros Hne Hk. unfold kMeansCluster.
  assert (0 < length positions)%nat as Hpos.
  { destruct positions; [contradiction | simpl; lia]. }
  destruct (Nat.eqb_spec (length positions) 0) as [Hz | _]; [lia |].
  destruct (Nat.eqb_spec k 0) as [Hz | _]; [lia |]. cbn [orb]. cbv zeta.
  assert (pointsOf positions <> []) as Hpne.
  { destruct positions; [contradiction | discriminate]. }
  destruct (initializeCentroids_returns (pointsOf positions) k g Hpne Hk)
    as (seeds & g' & Hseeds & Hlen).
  unfold bind at 1. rewrite Hseeds.
  destruct (refine_first_round k (pointsOf positions) 99 seeds
              (replicate (length (pointsOf positions)) (-1)%Z)
              (replicate (length (pointsOf positions)) (-1)%Z) Hk Hlen)
    as (a & c & Href & Hc & Ha & Hall).
  unfold bind at 1, defined at 1. unfold maxIterations. rewrite Href.
  destruct (inertiaOf_returns k c (pointsOf positions) a Hc Ha Hall)
    as (inertia & Hin & _).
  unfold bind, defined, ret. rewrite Hin.
  eexists. eexists. split; [reflexivity |]. simpl.
  rewrite Ha, pointsOf_length. repeat split; assumption.
Qed.

(** The statement above for a single position, k = 1 and the constant generator. *)
Lemma kmeans_assignments_in_range_witness :
  [(0, 0, 10)%R] <> ([] : list Position) /\ (1 <= 1)%nat /\
  exists res g',
    kMeansCluster [(0, 0, 10)%R] 1 Samples.zeroSource = Some (res, g') /\
    length (assignments res) = length [(0, 0, 10)%R] /\
    length (centroids res) = 1%nat /\
    Forall (fun a => (0 <= a < Z.of_nat 1)%Z) (assignments res).
Proof.
  assert ([(0, 0, 10)%R] <> ([] : list Position)) as Hne by discriminate.
  assert (1 <= 1)%nat as Hk by lia.
  split; [exact Hne |]. split; [exact Hk |].
  exact (kmeans_assignments_in_range [(0, 0, 10)%R] 1 Samples.zeroSource Hne Hk).
Defined.


End CentroidFacts.

(** ** Silhouette score *)

Module ScoringFacts.

Import Js Centroid Scoring.

(** The silhouette of a point lies between -1 and 1. *)
Lemma silhouetteOf_bounds a b :
  (0 <= a)%R -> (0 <= b)%R -> (-1 <= silhouetteOf a b <= 1)%R.
Proof.
  intros Ha Hb. unfold silhouetteOf, eqb.
  destruct (Req_dec_T a 0) as [Ha0 | Ha0];
    destruct (Req_dec_T b 0) as [Hb0 | Hb0]; simpl; try lra.
  all: assert (0 < Rmax a b)%R as Hmax
         by (unfold Rmax; destruct (Rle_dec a b); lra).
  all: assert (a <= Rmax a b)%R as Ha' by apply Rmax_l.
  all: assert (b <= Rmax a b)%R as Hb' by apply Rmax_r.
  all: split.
  all: try (apply (Rmult_le_reg_r (Rmax a b)); [assumption |];
            unfold Rdiv; rewrite Rmult_assoc, Rinv_l by lra; lra).
Qed.

End ScoringFacts.

(** ** Convex hull: the unit square *)

Module SquareHull.

Import Js JsFacts Hull Samples.

(** Decides the comparisons of a goal whose operands [lra] can order. *)
Ltac order_by tac :=
  repeat (cbn [fst snd orb andb negb];
          match goal with
          | |- context [ltb ?x ?y] =>
              first [ rewrite (ltb_true x y) by tac
                    | rewrite (ltb_false x y) by tac ]
          | |- context [eqb ?x ?y] =>
              first [ rewrite (eqb_true x y) by tac
                    | rewrite (eqb_false x y) by tac ]
          end);
  cbn [fst snd orb andb negb].

Lemma square_lowest : lowestOf (0, 0)%R [(0, 1); (1, 1); (1, 0)]%R = (0, 0)%R.
Proof.
  unfold lowestOf, lower. cbn [fold_left].
  order_by lra. reflexivity.
Qed.

Lemma angle_pivot : atan2 (0 - 0) (0 - 0) = 0%R.
Proof. rewrite Rminus_diag. apply atan2_0_0. Qed.

Lemma angle_east : atan2 (0 - 0) (1 - 0) = 0%R.
Proof. rewrite Rminus_diag, Rminus_0_r. apply atan2_0_pos. lra. Qed.

Lemma angle_diagonal : atan2 (1 - 0) (1 - 0) = (PI / 4)%R.
Proof.
  rewrite Rminus_0_r, atan2_pos_x by lra.
  replace (1 / 1)%R with 1%R by lra. apply atan_1.
Qed.

Lemma angle_north : atan2 (1 - 0) (0 - 0) = (PI / 2)%R.
Proof. rewrite Rminus_diag, Rminus_0_r. apply atan2_zero_x_pos_y. lra. Qed.

(** Among the two points at angle zero the pivot, which is nearer, stays first. *)
Lemma compare_east_pivot : (0 <= compareAngle (0, 0) (0, 1) (0, 0))%R.
Proof.
  unfold compareAngle. cbn [fst snd].
  rewrite angle_pivot, angle_east, (eqb_true 0 0) by reflexivity.
  cbn [negb]. unfold Rsqr. lra.
Qed.

(** The larger angle goes first: the order is by decreasing angle. *)
Lemma compare_diagonal_pivot : (compareAngle (0, 0) (1, 1) (0, 0) < 0)%R.
Proof.
  pose proof PI_RGT_0.
  unfold compareAngle. cbn [fst snd].
  rewrite angle_pivot, angle_diagonal, (eqb_false (PI / 4) 0) by lra.
  cbn [negb]. lra.
Qed.

Lemma compare_north_diagonal : (compareAngle (0, 0) (1, 0) (1, 1) < 0)%R.
Proof.
  pose proof PI_RGT_0.
  unfold compareAngle. cbn [fst snd].
  rewrite angle_north, angle_diagonal, (eqb_false (PI / 2) (PI / 4)) by lra.
  cbn [negb]. lra.
Qed.

Lemma square_sorted :
  sortBy (compareAngle (0, 0)%R) square = [(1, 0); (1, 1); (0, 0); (0, 1)]%R.
Proof.
  unfold sortBy, square. cbn [fold_left insertSorted].
  rewrite (ltb_false _ 0 compare_east_pivot). cbn [insertSorted].
  rewrite (ltb_true _ 0 compare_diagonal_pivot). cbn [insertSorted].
  rewrite (ltb_true _ 0 compare_north_diagonal).
  reflexivity.
Qed.

Lemma square_scan :
  scan [(1, 1); (1, 0)]%R [(0, 0); (0, 1)]%R = [(0, 1); (0, 0); (1, 0)]%R.
Proof.
  unfold scan. cbn [fold_left popWhile].
  unfold isCounterClockwise. cbn [fst snd].
  rewrite (ltb_false 0 ((1 - 0) * (0 - 1) - (1 - 1) * (0 - 1))) by lra.
  cbn [popWhile]. unfold isCounterClockwise. cbn [fst snd].
  rewrite (ltb_true 0 ((0 - 0) * (0 - 0) - (0 - 1) * (1 - 0))) by lra.
  reflexivity.
Qed.

Lemma square_hull :
  calculateConvexHull square = [(1, 0); (0, 0); (0, 1)]%R.
Proof.
  unfold calculateConvexHull.
  change (length square <? 3)%nat with false. cbv iota.
  unfold square at 1. cbv zeta.
  rewrite square_lowest, square_sorted.
  cbn [firstn skipn List.rev app]. exact (f_equal (@rev Point) square_scan).
Qed.

(** C3, at the unit square: the result is the triangle (1,0), (0,0), (0,1);
    the input corner (1,1) is not one of its points and lies strictly
    outside it (on the far side of the edge from (0,1) to (1,0)). *)
Theorem square_hull_leaves_corner_outside :
  calculateConvexHull square = [(1, 0); (0, 0); (0, 1)]%R /\
  In (1, 1)%R square /\
  ~ In (1, 1)%R (calculateConvexHull square) /\
  ~ insideOrOn (calculateConvexHull square) (1, 1)%R.
Proof.
  split; [apply square_hull |]. rewrite square_hull. split.
  - unfold square. simpl. auto.
  - split.
    + simpl. intros [H | [H | [H | []]]]; injection H; intros; lra.
    + unfold insideOrOn, edges. simpl. intros [H | H].
      * specialize (H ((0, 1), (1, 0))%R). unfold turn in H. simpl in H.
        assert (0 <= (0 - 1) * (1 - 1) - (1 - 0) * (1 - 0))%R by (apply H; auto).
        lra.
      * specialize (H ((1, 0), (0, 0))%R). unfold turn in H. simpl in H.
        assert ((0 - 0) * (1 - 0) - (0 - 1) * (1 - 0) <= 0)%R by (apply H; auto).
        lra.
Qed.

End SquareHull.

(** ** Distances along the equator *)

Module EquatorFacts.

Import Js JsFacts GeodesyFacts.

(** In the first quadrant [atan2] gives back the angle. *)
Lemma atan2_sin_cos t :
  (0 <= t <= PI / 2)%R -> atan2 (sin t) (cos t) = t.
Proof.
  intros [Ht0 Ht1]. destruct Ht1 as [Hlt | Heq].
  - assert (0 < cos t)%R as Hcos by (apply cos_gt_0; lra).
    rewrite atan2_pos_x by assumption.
    change (sin t / cos t)%R with (tan t). apply atan_tan. lra.
  - subst t. rewrite sin_PI2, cos_PI2. apply atan2_zero_x_pos_y. lra.
Qed.

(** The haversine of two points of the equator only depends on the half
    difference of the longitudes. *)
Lemma haversine_equator_unfold x y :
  haversineDistance 0 x 0 y =
  (6371 * (2 * atan2
     (sqrt (sin ((y - x) * PI / 180 / 2) * sin ((y - x) * PI / 180 / 2)))
     (sqrt (1 - sin ((y - x) * PI / 180 / 2) * sin ((y - x) * PI / 180 / 2)))))%R.
Proof.
  rewrite haversine_unfold.
  replace ((0 - 0) * PI / 180 / 2)%R with 0%R by (unfold Rdiv; ring).
  replace (0 * PI / 180)%R with 0%R by (unfold Rdiv; ring).
  rewrite sin_0, cos_0.
  replace (0 * 0 + 1 * 1 * sin ((y - x) * PI / 180 / 2) *
           sin ((y - x) * PI / 180 / 2))%R
    with (sin ((y - x) * PI / 180 / 2) * sin ((y - x) * PI / 180 / 2))%R by ring.
  reflexivity.
Qed.

(** Two points of the equator whose longitudes differ by [d] degrees, or by
    [360 - d], are [d] degrees of arc apart. *)
Lemma haversine_equator x y d :
  (0 <= d <= 180)%R ->
  (y - x = d \/ x - y = d \/ y - x = 360 - d \/ x - y = 360 - d)%R ->
  haversineDistance 0 x 0 y = arc d.
Proof.
  intros Hd Hcase. pose proof PI_RGT_0 as Hpi.
  rewrite haversine_equator_unfold.
  set (t := (d * PI / 180 / 2)%R).
  assert (0 <= t <= PI / 2)%R as Ht by (unfold t; nra).
  assert (sin ((y - x) * PI / 180 / 2) * sin ((y - x) * PI / 180 / 2) =
          sin t * sin t)%R as Hsq.
  { destruct Hcase as [H | [H | [H | H]]].
    - rewrite H. reflexivity.
    - replace (y - x)%R with (- d)%R by lra.
      replace (- d * PI / 180 / 2)%R with (- t)%R by (unfold t; field).
      rewrite sin_neg. ring.
    - rewrite H.
      replace ((360 - d) * PI / 180 / 2)%R with (PI - t)%R by (unfold t; field).
      rewrite sin_PI_x. reflexivity.
    - replace (y - x)%R with (- (360 - d))%R by lra.
      replace (- (360 - d) * PI / 180 / 2)%R with (- (PI - t))%R
        by (unfold t; field).
      rewrite sin_neg, sin_PI_x. ring. }
  rewrite Hsq.
  assert (0 <= sin t)%R as Hsin by (apply sin_ge_0; lra).
  assert (0 <= cos t)%R as Hcos by (apply cos_ge_0; lra).
  replace (sin t * sin t)%R with (Rsqr (sin t)) by reflexivity.
  replace (1 - Rsqr (sin t))%R with (Rsqr (cos t))
    by (pose proof (sin2_cos2 t); lra).
  rewrite !sqrt_Rsqr by assumption.
  rewrite atan2_sin_cos by assumption.
  unfold arc, t. field.
Qed.

Lemma arc_lt a b : (a < b)%R -> (arc a < arc b)%R.
Proof. intros H. pose proof PI_RGT_0. unfold arc. nra. Qed.

Lemma arc_le a b : (a <= b)%R -> (arc a <= arc b)%R.
Proof. intros H. pose proof PI_RGT_0. unfold arc. nra. Qed.

Lemma arc_0 : arc 0 = 0%R.
Proof. unfold arc. lra. Qed.

Lemma arc_pos a : (0 < a)%R -> (0 < arc a)%R.
Proof. intros H. rewrite <- arc_0. apply arc_lt. assumption. Qed.

(** Squares of arcs compare as the arcs do. *)
Lemma arc_sq_lt a b :
  (0 <= a < b)%R -> (arc a * arc a < arc b * arc b)%R.
Proof.
  intros [Ha Hab].
  assert (0 <= arc a)%R by (rewrite <- arc_0; apply arc_le; assumption).
  assert (arc a < arc b)%R by (apply arc_lt; assumption).
  nra.
Qed.

End EquatorFacts.

(** ** Centroid clustering: the random source *)

Module SeedingFacts.

Import Js JsFacts Centroid CentroidFacts GeodesyFacts EquatorFacts Samples.

(** *** What a run reads from the generator *)

(** The seeding loop reads one value per round; two generators that agree
    on these values give the same seeds. *)
Lemma seedLoop_reads points : forall rounds cs (g1 g2 : RandomSource),
  points <> [] ->
  (forall i, (i < rounds)%nat -> g1 i = g2 i) ->
  exists seeds,
    seedLoop rounds points cs g1 = Some (seeds, fun n => g1 (rounds + n)%nat) /\
    seedLoop rounds points cs g2 = Some (seeds, fun n => g2 (rounds + n)%nat) /\
    length seeds = (length cs + rounds)%nat.
Proof.
  induction rounds as [| rounds IH]; intros cs g1 g2 Hne Hagree.
  - exists cs. repeat split. simpl. lia.
  - cbn [seedLoop]. unfold bind at 1 3, random at 1 2.
    rewrite <- (Hagree 0%nat) by lia.
    destruct (lookup_lt_is_Some_2 points
                (chooseNext points cs (u_val (g1 0%nat)))) as [p Hp].
    { apply chooseNext_lt. assumption. }
    unfold bind, defined. rewrite Hp.
    destruct (IH (cs ++ [p]) (fun n => g1 (S n)) (fun n => g2 (S n)) Hne)
      as (seeds & H1 & H2 & Hl).
    { intros i Hi. apply Hagree. lia. }
    exists seeds. split; [exact H1 |]. split; [exact H2 |].
    rewrite Hl, length_app. simpl. lia.
Qed.

(** Seeding reads [k] values in all. *)
Lemma initializeCentroids_reads points k (g1 g2 : RandomSource) :
  points <> [] -> (1 <= k)%nat ->
  (forall i, (i < k)%nat -> g1 i = g2 i) ->
  exists seeds,
    initializeCentroids points k g1 = Some (seeds, fun n => g1 (k + n)%nat) /\
    initializeCentroids points k g2 = Some (seeds, fun n => g2 (k + n)%nat) /\
    length seeds = k.
Proof.
  intros Hne Hk Hagree. unfold initializeCentroids.
  assert (0 < length points)%nat as Hpos.
  { destruct points; [contradiction | simpl; lia]. }
  destruct (Nat.eqb_spec (length points) 0) as [Hz | _]; [lia |].
  destruct k as [| k']; [lia |].
  cbn [Nat.eqb orb]. replace (S k' - 1)%nat with k' by lia.
  unfold bind at 1 3, random at 1 2.
  rewrite <- (Hagree 0%nat) by lia.
  destruct (lookup_lt_is_Some_2 points
              (Z.to_nat (floor (u_val (g1 0%nat) * INR (length points))))) as [p Hp].
  { apply firstCentroid_lt. assumption. }
  unfold bind, defined. rewrite Hp.
  destruct (seedLoop_reads points k' [p] (fun n => g1 (S n)) (fun n => g2 (S n)) Hne)
    as (seeds & H1 & H2 & Hl).
  { intros i Hi. apply Hagree. lia. }
  exists seeds.
  split; [exact H1 |]. split; [exact H2 |].
  rewrite Hl. simpl. lia.
Qed.

(** What follows the seeding does not read the generator. *)
Lemma kMeansCluster_after_seeding positions k g seeds g' :
  positions <> [] -> (1 <= k)%nat ->
  initializeCentroids (pointsOf positions) k g = Some (seeds, g') ->
  length seeds = k ->
  exists res,
    (forall h h',
       initializeCentroids (pointsOf positions) k h = Some (seeds, h') ->
       kMeansCluster positions k h = Some (res, h')).
Proof.
  intros Hne Hk Hseeds Hlen.
  destruct (refine_first_round k (pointsOf positions) 99 seeds
              (replicate (length (pointsOf positions)) (-1)%Z)
              (replicate (length (pointsOf positions)) (-1)%Z) Hk Hlen)
    as (a & c & Href & Hc & Ha & Hall).
  destruct (inertiaOf_returns k c (pointsOf positions) a Hc Ha Hall)
    as (inertia & Hin & _).
  exists (mkResult a c inertia). intros h h' Hh.
  unfold kMeansCluster.
  assert (0 < length positions)%nat as Hpos.
  { destruct positions; [contradiction | simpl; lia]. }
  destruct (Nat.eqb_spec (length positions) 0) as [Hz | _]; [lia |].
  destruct (Nat.eqb_spec k 0) as [Hz | _]; [lia |]. cbn [orb]. cbv zeta.
  unfold bind at 1. rewrite Hh.
  unfold bind at 1, defined at 1. unfold maxIterations. rewrite Href.
  unfold bind, defined, ret. rewrite Hin. reflexivity.
Qed.

(** C9, as the code behaves: a clustering run reads the engine's generator
    [k] times (all of them in the seeding) and nothing else of it; two runs
    on the same input whose generators give the same [k] values return the
    same result. *)
Theorem clustering_reads_k_random_values (positions : list Position) (k : nat)
    (g1 g2 : RandomSource) :
  positions <> [] -> (1 <= k)%nat ->
  (forall i, (i < k)%nat -> g1 i = g2 i) ->
  exists res,
    kMeansCluster positions k g1 = Some (res, fun n => g1 (k + n)%nat) /\
    kMeansCluster positions k g2 = Some (res, fun n => g2 (k + n)%nat).
Proof.
  intros Hne Hk Hagree.
  assert (pointsOf positions <> []) as Hpne.
  { destruct positions; [contradiction | discriminate]. }
  destruct (initializeCentroids_reads (pointsOf positions) k g1 g2 Hpne Hk Hagree)
    as (seeds & H1 & H2 & Hlen).
  destruct (kMeansCluster_after_seeding positions k g1 seeds _ Hne Hk H1 Hlen)
    as (res & Hres).
  exists res. split; apply Hres; assumption.
Qed.

(** *** Evaluating small runs *)

(** The unfolding of one round of the loop. *)
Lemma refine_round fuel k points cs oldAssignments assignments :
  refine (S fuel) k points cs oldAssignments assignments =
  if unchanged (length points) (assignPoints points cs) oldAssignments
  then Some (assignPoints points cs, cs)
  else updateCentroids k points (assignPoints points cs) cs ≫=
         fun cs' => refine fuel k points cs'
                      (assignPoints points cs) (assignPoints points cs).
Proof. reflexivity. Qed.

Ltac index_of_id :=
  change (Z.to_nat 0) with 0%nat; change (Z.to_nat 1) with 1%nat.

Lemma dist_same p : dist p p = 0%R.
Proof. unfold dist. apply haversine_self. Qed.

(** With two centroids the nearer one is chosen, the first one on a tie. *)
Lemma closest_of_two_first p c0 c1 :
  (dist p c0 <= dist p c1)%R -> closestCentroid p [c0; c1] = 0%nat.
Proof.
  intros H. unfold closestCentroid. cbn [fold_left closestStep lt_x].
  destruct (Rlt_dec (dist p c1) (dist p c0)); [lra | reflexivity].
Qed.

Lemma closest_of_two_second p c0 c1 :
  (dist p c1 < dist p c0)%R -> closestCentroid p [c0; c1] = 1%nat.
Proof.
  intros H. unfold closestCentroid. cbn [fold_left closestStep lt_x].
  destruct (Rlt_dec (dist p c1) (dist p c0)); [reflexivity | lra].
Qed.

(** The second seed among two points when the first point is the seed. *)
Lemma seed_two_second p q c r :
  dist p c = 0%R -> (0 < dist q c)%R -> (0 < r <= 1)%R ->
  chooseNext [p; q] [c] r = 1%nat.
Proof.
  intros H0 H1 Hr. unfold chooseNext, seedDistances, minDistanceTo.
  cbn [map fold_left min_x sq_x add_x]. rewrite H0.
  set (d := dist q c) in *.
  assert (0 + 0 * 0 + d * d = d * d)%R as Hs by ring. rewrite Hs.
  assert (d * d <> 0)%R as Hnz by nra.
  unfold div_x.
  destruct (Req_dec_T (d * d) 0) as [e | _]; [exfalso; exact (Hnz e) |].
  cbn [pickFrom add_x ge_x].
  destruct (Rge_dec (0 + 0 * 0 / (d * d)) r) as [Hge | _].
  { exfalso. unfold Rdiv in Hge. lra. }
  destruct (Rge_dec (0 + 0 * 0 / (d * d) + d * d / (d * d)) r) as [_ | Hn].
  - reflexivity.
  - exfalso. apply Hn.
    replace (d * d / (d * d))%R with 1%R by (field; lra).
    unfold Rdiv. lra.
Qed.

(** The second seed among two points when the second point is the seed. *)
Lemma seed_two_first p q c r :
  (0 < dist p c)%R -> dist q c = 0%R -> (r <= 1)%R ->
  chooseNext [p; q] [c] r = 0%nat.
Proof.
  intros H0 H1 Hr. unfold chooseNext, seedDistances, minDistanceTo.
  cbn [map fold_left min_x sq_x add_x]. rewrite H1.
  set (d := dist p c) in *.
  assert (0 + d * d + 0 * 0 = d * d)%R as Hs by ring. rewrite Hs.
  assert (d * d <> 0)%R as Hnz by nra.
  unfold div_x.
  destruct (Req_dec_T (d * d) 0) as [e | _]; [exfalso; exact (Hnz e) |].
  cbn [pickFrom add_x ge_x].
  destruct (Rge_dec (0 + d * d / (d * d)) r) as [_ | Hn]; [reflexivity |].
  exfalso. apply Hn. replace (d * d / (d * d))%R with 1%R by (field; lra). lra.
Qed.

(** *** Two runs on the two-point input *)

Lemma dist_origin_quarter : dist (0, 0)%R (0, 90)%R = arc 90.
Proof. unfold dist. cbn [fst snd]. apply haversine_equator; lra. Qed.

Lemma dist_quarter_origin : dist (0, 90)%R (0, 0)%R = arc 90.
Proof. unfold dist. cbn [fst snd]. apply haversine_equator; lra. Qed.

Lemma floor_zero_of_two : floor (0 * INR 2) = 0%Z.
Proof. unfold floor. apply Zfloor_eq. simpl. lra. Qed.

Lemma floor_half_of_two : floor (1 / 2 * INR 2) = 1%Z.
Proof. unfold floor. apply Zfloor_eq. simpl. lra. Qed.

Lemma two_seeds_first_run :
  initializeCentroids (pointsOf twoPoints) 2 zeroThenHalf =
  Some ([(0, 0); (0, 90)]%R, halfSource).
Proof.
  unfold initializeCentroids, pointsOf, twoPoints.
  cbn [map length Nat.eqb orb pos0 pos1 fst snd].
  unfold bind at 1, random at 1. cbn [zeroThenHalf zero01 u_val].
  rewrite floor_zero_of_two. simpl (_ !! _).
  unfold bind at 1, defined at 1. cbn [Nat.sub seedLoop].
  unfold bind at 1, random at 1. cbn [half01 u_val].
  rewrite seed_two_second.
  - reflexivity.
  - apply dist_same.
  - rewrite dist_quarter_origin. apply arc_pos. lra.
  - lra.
Qed.

Lemma two_seeds_second_run :
  initializeCentroids (pointsOf twoPoints) 2 halfSource =
  Some ([(0, 90); (0, 0)]%R, halfSource).
Proof.
  unfold initializeCentroids, pointsOf, twoPoints.
  cbn [map length Nat.eqb orb pos0 pos1 fst snd].
  unfold bind at 1, random at 1. cbn [halfSource half01 u_val].
  rewrite floor_half_of_two. simpl (_ !! _).
  unfold bind at 1, defined at 1. cbn [Nat.sub seedLoop].
  unfold bind at 1, random at 1. cbn [halfSource half01 u_val].
  rewrite seed_two_first.
  - reflexivity.
  - rewrite dist_origin_quarter. apply arc_pos. lra.
  - apply dist_same.
  - lra.
Qed.

Lemma two_assign_first_run :
  assignPoints [(0, 0); (0, 90)]%R [(0, 0); (0, 90)]%R = [0; 1]%Z.
Proof.
  unfold assignPoints. cbn [map].
  rewrite closest_of_two_first, closest_of_two_second.
  - reflexivity.
  - rewrite dist_same, dist_quarter_origin. apply arc_pos. lra.
  - rewrite dist_same, dist_origin_quarter. left. apply arc_pos. lra.
Qed.

Lemma two_assign_second_run :
  assignPoints [(0, 0); (0, 90)]%R [(0, 90); (0, 0)]%R = [1; 0]%Z.
Proof.
  unfold assignPoints. cbn [map].
  rewrite closest_of_two_second, closest_of_two_first.
  - reflexivity.
  - rewrite dist_same, dist_quarter_origin. left. apply arc_pos. lra.
  - rewrite dist_same, dist_origin_quarter. apply arc_pos. lra.
Qed.

Lemma two_update_first_run :
  updateCentroids 2 [(0, 0); (0, 90)]%R [0; 1]%Z [(0, 0); (0, 90)]%R =
  Some [(0, 0); (0, 90)]%R.
Proof.
  unfold updateCentroids. cbn [accumulateAll replicate]. unfold accumulate.
  index_of_id. cbn. repeat f_equal; lra.
Qed.

Lemma two_update_second_run :
  updateCentroids 2 [(0, 0); (0, 90)]%R [1; 0]%Z [(0, 90); (0, 0)]%R =
  Some [(0, 90); (0, 0)]%R.
Proof.
  unfold updateCentroids. cbn [accumulateAll replicate]. unfold accumulate.
  index_of_id. cbn. repeat f_equal; lra.
Qed.

Lemma two_refine_first_run :
  refine 100 2 [(0, 0); (0, 90)]%R [(0, 0); (0, 90)]%R [-1; -1]%Z [-1; -1]%Z =
  Some ([0; 1]%Z, [(0, 0); (0, 90)]%R).
Proof.
  rewrite refine_round, two_assign_first_run.
  change (unchanged _ [0; 1]%Z [-1; -1]%Z) with false. cbv iota.
  rewrite two_update_first_run. cbn [mbind option_bind].
  rewrite refine_round, two_assign_first_run. reflexivity.
Qed.

Lemma two_refine_second_run :
  refine 100 2 [(0, 0); (0, 90)]%R [(0, 90); (0, 0)]%R [-1; -1]%Z [-1; -1]%Z =
  Some ([1; 0]%Z, [(0, 90); (0, 0)]%R).
Proof.
  rewrite refine_round, two_assign_second_run.
  change (unchanged _ [1; 0]%Z [-1; -1]%Z) with false. cbv iota.
  rewrite two_update_second_run. cbn [mbind option_bind].
  rewrite refine_round, two_assign_second_run. reflexivity.
Qed.

Lemma two_inertia_first_run :
  inertiaOf [(0, 0); (0, 90)]%R [0; 1]%Z [(0, 0); (0, 90)]%R = Some 0%R.
Proof.
  cbn [inertiaOf Z.leb Z.compare]. index_of_id. simpl (_ !! _).
  cbn [mbind option_bind]. rewrite !dist_same. f_equal. lra.
Qed.

Lemma two_inertia_second_run :
  inertiaOf [(0, 0); (0, 90)]%R [1; 0]%Z [(0, 90); (0, 0)]%R = Some 0%R.
Proof.
  cbn [inertiaOf Z.leb Z.compare]. index_of_id. simpl (_ !! _).
  cbn [mbind option_bind]. rewrite !dist_same. f_equal. lra.
Qed.

Lemma kMeansCluster_from_seeds positions k g seeds g' a c i :
  positions <> [] -> (1 <= k)%nat ->
  initializeCentroids (pointsOf positions) k g = Some (seeds, g') ->
  refine 100 k (pointsOf positions) seeds
    (replicate (length (pointsOf positions)) (-1)%Z)
    (replicate (length (pointsOf positions)) (-1)%Z) = Some (a, c) ->
  inertiaOf (pointsOf positions) a c = Some i ->
  kMeansCluster positions k g = Some (mkResult a c i, g').
Proof.
  intros Hne Hk Hseeds Href Hin. unfold kMeansCluster.
  assert (0 < length positions)%nat as Hpos.
  { destruct positions; [contradiction | simpl; lia]. }
  destruct (Nat.eqb_spec (length positions) 0) as [Hz | _]; [lia |].
  destruct (Nat.eqb_spec k 0) as [Hz | _]; [lia |]. cbn [orb]. cbv zeta.
  unfold bind at 1. rewrite Hseeds.
  unfold bind at 1, defined at 1. unfold maxIterations. rewrite Href.
  unfold bind, defined, ret. rewrite Hin. reflexivity.
Qed.

(** C9, on the code as it is: two runs in a row on the same two positions
    and the same [k], the second reading the generator where the first left
    it, return different assignments and centroids. *)
Lemma two_runs_on_one_input_differ :
  kMeansCluster twoPoints 2 zeroThenHalf =
    Some (mkResult [0; 1]%Z [(0, 0); (0, 90)]%R 0%R, halfSource) /\
  kMeansCluster twoPoints 2 halfSource =
    Some (mkResult [1; 0]%Z [(0, 90); (0, 0)]%R 0%R, halfSource) /\
  assignments (mkResult [0; 1]%Z [(0, 0); (0, 90)]%R 0%R) <>
  assignments (mkResult [1; 0]%Z [(0, 90); (0, 0)]%R 0%R).
Proof.
  assert (twoPoints <> []) as Hne by discriminate.
  split; [| split].
  - apply (kMeansCluster_from_seeds twoPoints 2 zeroThenHalf
             [(0, 0); (0, 90)]%R halfSource); try assumption; try lia.
    + apply two_seeds_first_run.
    + apply two_refine_first_run.
    + apply two_inertia_first_run.
  - apply (kMeansCluster_from_seeds twoPoints 2 halfSource
             [(0, 90); (0, 0)]%R halfSource); try assumption; try lia.
    + apply two_seeds_second_run.
    + apply two_refine_second_run.
    + apply two_inertia_second_run.
  - simpl. discriminate.
Qed.

(** The statement above for two generators that agree on their first two values. *)
Lemma clustering_reads_k_random_values_witness :
  twoPoints <> [] /\ (1 <= 2)%nat /\
  (forall i, (i < 2)%nat -> zeroThenHalf i = zeroHalfZero i) /\
  exists res,
    kMeansCluster twoPoints 2 zeroThenHalf =
      Some (res, fun n => zeroThenHalf (2 + n)%nat) /\
    kMeansCluster twoPoints 2 zeroHalfZero =
      Some (res, fun n => zeroHalfZero (2 + n)%nat).
Proof.
  assert (twoPoints <> []) as Hne by discriminate.
  assert (1 <= 2)%nat as Hk by lia.
  assert (forall i, (i < 2)%nat -> zeroThenHalf i = zeroHalfZero i) as Hagree.
  { intros i Hi. destruct i as [| [| i]]; [reflexivity | reflexivity | lia]. }
  split; [exact Hne |]. split; [exact Hk |]. split; [exact Hagree |].
  exact (clustering_reads_k_random_values twoPoints 2 zeroThenHalf zeroHalfZero
           Hne Hk Hagree).
Defined.

End SeedingFacts.

(** ** Centroid clustering: inertia across the rounds *)

Module InertiaFacts.

Import Js JsFacts Centroid CentroidFacts GeodesyFacts EquatorFacts SeedingFacts Samples.

(** *** The assignment step *)

Lemma closestStep_keeps p pre st c :
  closestInv p pre st -> closestInv p (pre ++ [c]) (closestStep p st c).
Proof.
  destruct st as [[j m] cl]. intros [Hj Hst]. unfold closestStep.
  assert ((pre ++ [c]) !! j = Some c) as Hlast.
  { subst j. rewrite lookup_app_r by lia. rewrite Nat.sub_diag. reflexivity. }
  destruct Hst as [(Hpre & Hm & Hcl) | (best & Hbest & Hm & Hmin)].
  - subst. simpl. split; [reflexivity |]. right.
    exists c. repeat split. intros i c' Hi.
    destruct i; simpl in Hi; [| discriminate]. injection Hi as <-. lra.
  - subst m. cbn [lt_x].
    assert (forall i c', (pre ++ [c]) !! i = Some c' ->
              (exists c0, pre !! i = Some c0 /\ c' = c0) \/ c' = c) as Hsplit.
    { intros i c' Hi. destruct (Nat.lt_ge_cases i (length pre)) as [Hlt | Hge].
      - rewrite lookup_app_l in Hi by assumption. left. eauto.
      - rewrite lookup_app_r in Hi by assumption.
        destruct (i - length pre)%nat; simpl in Hi; [| discriminate].
        right. congruence. }
    destruct (Rlt_dec (dist p c) (dist p best)) as [Hlt | Hge].
    + split; [rewrite length_app; simpl; lia |]. right.
      exists c. split; [assumption |]. split; [reflexivity |].
      intros i c' Hi. destruct (Hsplit i c' Hi) as [(c0 & Hc0 & ->) | ->].
      * specialize (Hmin i c0 Hc0). lra.
      * lra.
    + split; [rewrite length_app; simpl; lia |]. right.
      exists best. split.
      { apply lookup_app_l_Some. assumption. }
      split; [reflexivity |].
      intros i c' Hi. destruct (Hsplit i c' Hi) as [(c0 & Hc0 & ->) | ->].
      * apply (Hmin i c0 Hc0).
      * lra.
Qed.

Lemma closest_fold_inv p : forall rest pre st,
  closestInv p pre st ->
  closestInv p (pre ++ rest) (fold_left (closestStep p) rest st).
Proof.
  induction rest as [| c rest IH]; intros pre st Hinv; simpl.
  - rewrite app_nil_r. assumption.
  - replace (pre ++ c :: rest) with ((pre ++ [c]) ++ rest)
      by (rewrite <- app_assoc; reflexivity).
    apply IH. apply closestStep_keeps. assumption.
Qed.

(** The centroid of the chosen index is at least as near as any other. *)
Lemma closestCentroid_nearest p cs :
  cs <> [] ->
  exists best,
    cs !! closestCentroid p cs = Some best /\
    forall i c, cs !! i = Some c -> (dist p best <= dist p c)%R.
Proof.
  intros Hne. unfold closestCentroid.
  pose proof (closest_fold_inv p cs [] (0%nat, PInf, 0%nat)) as Hinv.
  simpl in Hinv.
  destruct (fold_left (closestStep p) cs (0%nat, PInf, 0%nat)) as [[j m] cl].
  destruct Hinv as [_ [(Hnil & _) | (best & Hbest & _ & Hmin)]].
  - split; [reflexivity |]. left. repeat split.
  - contradiction.
  - exists best. split; assumption.
Qed.



(** *** The states of the loop *)

Lemma refineStates_round fuel k points cs oldAssignments :
  refineStates (S fuel) k points cs oldAssignments =
  if unchanged (length points) (assignPoints points cs) oldAssignments
  then Some []
  else updateCentroids k points (assignPoints points cs) cs ≫=
         fun cs' =>
           refineStates fuel k points cs' (assignPoints points cs) ≫=
             fun states => Some ((assignPoints points cs, cs') :: states).
Proof. reflexivity. Qed.


(** Two arrays of the same length that pass the convergence test are equal. *)
Lemma unchanged_eq n (a b : list Z) :
  length a = n -> length b = n -> unchanged n a b = true -> a = b.
Proof.
  intros Ha Hb Hun. unfold unchanged in Hun.
  rewrite forallb_forall in Hun.
  apply list_eq. intros i.
  destruct (Nat.lt_ge_cases i n) as [Hlt | Hge].
  - specialize (Hun i). rewrite bool_decide_eq_true in Hun.
    apply Hun, in_seq. lia.
  - rewrite !lookup_ge_None_2 by lia. reflexivity.
Qed.

Lemma last_cons_default {A : Type} (l : list A) : forall x d,
  List.last (x :: l) d = List.last l x.
Proof.
  induction l as [| y l IH]; intros x d.
  - reflexivity.
  - change (List.last (x :: y :: l) d) with (List.last (y :: l) d).
    rewrite !IH. reflexivity.
Qed.

(** The loop returns the last of its states: when it stops on the
    convergence test the assignments it has just computed are those of the
    last state, and the centroids have not moved since. *)
Lemma refine_returns_last_state k points :
  forall fuel cs oldAssignments current states,
  length oldAssignments = length points ->
  refineStates fuel k points cs oldAssignments = Some states ->
  refine fuel k points cs oldAssignments current =
  Some (List.last states
          (if (fuel =? 0)%nat then current else oldAssignments, cs)).
Proof.
  induction fuel as [| fuel IH]; intros cs old a states Hold Hst.
  - simpl in Hst. injection Hst as <-. reflexivity.
  - rewrite refineStates_round in Hst. rewrite refine_round.
    destruct (unchanged _ _ _) eqn:Hun.
    + injection Hst as <-. cbn [List.last Nat.eqb].
      rewrite (unchanged_eq (length points) _ old
                 (assignPoints_length points cs) Hold Hun). reflexivity.
    + destruct (updateCentroids k points (assignPoints points cs) cs) as [cs' |];
        [| discriminate].
      cbn [mbind option_bind] in *.
      destruct (refineStates fuel k points cs' (assignPoints points cs))
        as [rest |] eqn:Hrest; [| discriminate].
      cbn [mbind option_bind] in Hst. injection Hst as <-.
      rewrite (IH cs' (assignPoints points cs) (assignPoints points cs) rest
                 (assignPoints_length points cs) Hrest).
      rewrite last_cons_default. f_equal.
      destruct (fuel =? 0)%nat; reflexivity.
Qed.

(** *** Three positions around the antimeridian *)

Ltac on_equator := unfold dist; cbn [fst snd]; apply haversine_equator; lra.

Lemma dist_w170_e170 : dist (0, -170)%R (0, 170)%R = arc 20.
Proof. on_equator. Qed.

Lemma dist_e170_w170 : dist (0, 170)%R (0, -170)%R = arc 20.
Proof. on_equator. Qed.

Lemma dist_w100_w170 : dist (0, -100)%R (0, -170)%R = arc 70.
Proof. on_equator. Qed.

Lemma dist_w100_e170 : dist (0, -100)%R (0, 170)%R = arc 90.
Proof. on_equator. Qed.

Lemma dist_w170_w135 : dist (0, -170)%R (0, -135)%R = arc 35.
Proof. on_equator. Qed.

Lemma dist_e170_w135 : dist (0, 170)%R (0, -135)%R = arc 55.
Proof. on_equator. Qed.

Lemma dist_w100_w135 : dist (0, -100)%R (0, -135)%R = arc 35.
Proof. on_equator. Qed.

Lemma dist_w170_origin : dist (0, -170)%R (0, 0)%R = arc 170.
Proof. on_equator. Qed.

Lemma dist_e170_origin : dist (0, 170)%R (0, 0)%R = arc 170.
Proof. on_equator. Qed.

Create Rewrite HintDb straddle_dist.
#[local] Hint Rewrite dist_same dist_w170_e170 dist_e170_w170 dist_w100_w170
  dist_w100_e170 dist_w170_w135 dist_e170_w135 dist_w100_w135
  dist_w170_origin dist_e170_origin : straddle_dist.

(** Orders two distances of the example. *)
Ltac order_arcs :=
  autorewrite with straddle_dist;
  first [ apply arc_lt; lra | apply arc_le; lra | apply arc_pos; lra
        | left; apply arc_pos; lra | lra ].







Lemma straddle_assign_round2 :
  assignPoints [(0, -170); (0, 170); (0, -100)]%R [(0, -135); (0, 170)]%R =
  [1; 1; 0]%Z.
Proof.
  unfold assignPoints. cbn [map].
  rewrite closest_of_two_second, closest_of_two_second, closest_of_two_first;
    [reflexivity | order_arcs ..].
Qed.





Lemma dist_w170_w100 : dist (0, -170)%R (0, -100)%R = arc 70.
Proof. on_equator. Qed.

Lemma dist_e170_w100 : dist (0, 170)%R (0, -100)%R = arc 90.
Proof. on_equator. Qed.

Lemma dist_w100_origin : dist (0, -100)%R (0, 0)%R = arc 100.
Proof. on_equator. Qed.

#[local] Hint Rewrite dist_w170_w100 dist_e170_w100 dist_w100_origin : straddle_dist.

Lemma straddle_assign_round3 :
  assignPoints [(0, -170); (0, 170); (0, -100)]%R [(0, -100); (0, 0)]%R =
  [0; 0; 0]%Z.
Proof.
  unfold assignPoints. cbn [map].
  rewrite !closest_of_two_first; [reflexivity | order_arcs ..].
Qed.

(** The same input read at the other point of a round, right after the
    assignment step and before the centroids move: the inertia of the third
    round is above that of the second. *)
Lemma inertia_after_assignment_grows_too :
  inertiaOf (pointsOf straddle)
    (assignPoints (pointsOf straddle) [(0, -135); (0, 170)]%R)
    [(0, -135); (0, 170)]%R =
    Some (arc 20 * arc 20 + (0 * 0 + (arc 35 * arc 35 + 0)))%R /\
  inertiaOf (pointsOf straddle)
    (assignPoints (pointsOf straddle) [(0, -100); (0, 0)]%R)
    [(0, -100); (0, 0)]%R =
    Some (arc 70 * arc 70 + (arc 90 * arc 90 + (0 * 0 + 0)))%R /\
  (arc 20 * arc 20 + (0 * 0 + (arc 35 * arc 35 + 0)) <
   arc 70 * arc 70 + (arc 90 * arc 90 + (0 * 0 + 0)))%R.
Proof.
  change (pointsOf straddle) with [(0, -170); (0, 170); (0, -100)]%R.
  rewrite straddle_assign_round2, straddle_assign_round3.
  split; [| split].
  - cbn [inertiaOf Z.leb Z.compare]. index_of_id. simpl (_ !! _).
    cbn [mbind option_bind]. autorewrite with straddle_dist. reflexivity.
  - cbn [inertiaOf Z.leb Z.compare]. index_of_id. simpl (_ !! _).
    cbn [mbind option_bind]. autorewrite with straddle_dist. reflexivity.
  - pose proof (arc_sq_lt 20 70). pose proof (arc_sq_lt 35 90). lra.
Qed.

End InertiaFacts.

(** ** Worked inputs *)

Module Scenarios.

Import Js JsFacts Centroid GeodesyFacts EquatorFacts Samples Scoring Density.

(** A quarter of a great circle: (0,0) to (0,90) is 6371 * PI / 2, about
    10007.5 kilometres. *)
Lemma quarter_great_circle :
  haversineDistance 0 0 0 90 = (6371 * (PI / 2))%R.
Proof.
  rewrite (haversine_equator 0 90 90) by lra. unfold arc. field.
Qed.

Lemma quarter_great_circle_back : haversineDistance 0 90 0 0 = arc 90.
Proof. apply haversine_equator; lra. Qed.

(** Three points that are neighbours of one another form one cluster. *)
Example dbscan_three_neighbours :
  dbscan (fun i => List.filter (fun j => negb (j =? i)%nat) [0; 1; 2]%nat) 3 =
  Some (mkScan [true; true; true] [0; 0; 0]%Z 1).
Proof. reflexivity. Qed.

(** A chain 0-1-2-3 with the dense part 0, 1, 2 and two isolated points:
    the border point 3 joins the cluster, the isolated ones stay noise. *)
Example dbscan_chain_and_noise :
  dbscan (fun i => match i with
                   | 0 => [1; 2] | 1 => [0; 2] | 2 => [0; 1; 3] | 3 => [2]
                   | _ => []
                   end%nat) 6 =
  Some (mkScan [true; true; true; true; true; true] [0; 0; 0; 0; -1; -1]%Z 1).
Proof. reflexivity. Qed.

Example countSizes_chain_and_noise :
  countSizes 1 [0; 0; 0; 0; -1; -1]%Z = [4%nat] /\
  countNoise [0; 0; 0; 0; -1; -1]%Z = 2%nat.
Proof. split; reflexivity. Qed.

(** Resolves the comparisons of cluster ids of a goal. *)
Ltac decide_ids :=
  repeat match goal with
         | |- context [bool_decide ?P] =>
             first [ rewrite (bool_decide_eq_true_2 P) by reflexivity
                   | rewrite (bool_decide_eq_false_2 P) by discriminate ]
         end.

End Scenarios.
(** * Further properties of the engine *)

(** ** Coverage grid: counts and percentage *)

Module CoverageMore.

Import Coverage CoverageFacts Spec.

Lemma inGrid_bounds latIndex lngIndex :
  inGrid latIndex lngIndex = true ->
  (0 <= latIndex < 12)%Z /\ (0 <= lngIndex < 12)%Z.
Proof.
  unfold inGrid. rewrite !andb_true_iff.
  intros [[[H1 H2] H3] H4].
  apply Z.leb_le in H1, H3. apply Z.ltb_lt in H2, H4. lia.
Qed.

Lemma markPosition_count grid pos :
  gridShape grid ->
  totalCount (markPosition grid pos) =
  (totalCount grid + (if guarded pos then 1 else 0))%nat.
Proof.
  intros [Hrows Hcols]. unfold markPosition, guarded. cbv zeta.
  destruct (inGrid _ _) eqn:Hin; [| lia].
  apply inGrid_bounds in Hin as [Hi Hj].
  destruct (lookup_lt_is_Some_2 grid (Z.to_nat (latIndexOf (pos0 pos))))
    as [row Hrow]; [lia |].
  assert (length row = 12%nat) as Hlen.
  { rewrite Forall_forall in Hcols. apply Hcols.
    apply list_elem_of_lookup. eauto. }
  destruct (lookup_lt_is_Some_2 row (Z.to_nat (lngIndexOf (pos1 pos))))
    as [cell Hcell]; [lia |].
  rewrite (totalCount_occupy grid _ _ row cell Hrow Hcell). lia.
Qed.

Lemma fold_markPosition_count positions : forall grid,
  gridShape grid ->
  totalCount (fold_left markPosition positions grid) =
  (totalCount grid + length (List.filter guarded positions))%nat.
Proof.
  induction positions as [| pos positions IH]; intros grid Hshape; simpl.
  - lia.
  - rewrite IH by (apply markPosition_shape; assumption).
    rewrite markPosition_count by assumption.
    destruct (guarded pos); simpl; lia.
Qed.

(** X5: after the marking loop the grid still has twelve rows of twelve
    cells, a cell is covered exactly when its count is positive, and the
    counts add up to the number of positions that pass the guard; when every
    position is one degree or more below the two upper boundaries this is
    the number of positions. *)
Theorem marked_grid_counts_positions (positions : list Position) :
  gridShape (markedGrid positions) /\
  coveredIffCounted (markedGrid positions) /\
  totalCount (markedGrid positions) = length (List.filter guarded positions) /\
  (Forall (fun pos => (-90 <= pos0 pos <= 89)%R /\ (-180 <= pos1 pos <= 179)%R)
          positions ->
   totalCount (markedGrid positions) = length positions).
Proof.
  destruct (markedGrid_invariants positions) as [Hshape Hcov].
  assert (totalCount (markedGrid positions) =
          length (List.filter guarded positions)) as Hcount.
  { unfold markedGrid.
    rewrite fold_markPosition_count by apply fresh_grid_shape.
    rewrite totalCount_fresh_grid. reflexivity. }
  split; [exact Hshape |]. split; [exact Hcov |]. split; [exact Hcount |].
  intros Hall. rewrite Hcount. f_equal. clear Hshape Hcov Hcount.
  induction Hall as [| pos positions [Hlat Hlng] _ IH]; [reflexivity |].
  simpl. unfold guarded at 1.
  assert (-90 <= pos0 pos < 90)%R as Hlat' by lra.
  assert (-180 <= pos1 pos < 180)%R as Hlng' by lra.
  pose proof (latIndexOf_range _ Hlat') as Hi.
  pose proof (lngIndexOf_range _ Hlng') as Hj.
  assert (inGrid (latIndexOf (pos0 pos)) (lngIndexOf (pos1 pos)) = true) as Hin.
  { unfold inGrid. rewrite !andb_true_iff.
    repeat split; first [apply Z.leb_le | apply Z.ltb_lt]; lia. }
  rewrite Hin, IH. reflexivity.
Qed.

(** *** The percentage *)

Lemma cellWeight_pos latIndex : (latIndex < 12)%nat -> (0 < cellWeight latIndex)%R.
Proof.
  intros Hi. unfold cellWeight, latCenter. pose proof PI_RGT_0 as Hpi.
  assert (0 <= INR latIndex <= 11)%R as Hr.
  { split; [apply pos_INR |].
    replace 11%R with (INR 11) by (simpl; lra). apply le_INR. lia. }
  apply cos_gt_0; nra.
Qed.

Lemma cellPairs_bounded : Forall (fun p => (fst p < 12)%nat) cellPairs.
Proof.
  apply Forall_forall. intros [i j] Hin.
  apply list_elem_of_In in Hin. unfold cellPairs in Hin.
  apply in_flat_map in Hin as (i' & Hi' & Hin).
  apply in_map_iff in Hin as (j' & Heq & _). injection Heq as <- _.
  apply in_seq in Hi'. simpl. lia.
Qed.

Lemma weights_fold (grid : Grid) (pairs : list (nat * nat)) :
  Forall (fun p => (fst p < 12)%nat) pairs ->
  forall c t, (0 <= c <= t)%R ->
  (0 <= fold_left (fun acc '(latIndex, lngIndex) =>
                     match cellAt grid latIndex lngIndex with
                     | Some cell =>
                         if covered cell then (acc + cellWeight latIndex)%R else acc
                     | None => acc
                     end) pairs c
     <= fold_left (fun acc '(latIndex, _) => (acc + cellWeight latIndex)%R) pairs t)%R /\
  (t <= fold_left (fun acc '(latIndex, _) => (acc + cellWeight latIndex)%R) pairs t)%R.
Proof.
  induction 1 as [| [i j] pairs Hi _ IH]; intros c t Hct; simpl.
  - lra.
  - pose proof (cellWeight_pos i Hi) as Hw.
    destruct (cellAt grid i j) as [cell |]; [destruct (covered cell) |].
    + destruct (IH (c + cellWeight i)%R (t + cellWeight i)%R) as [H1 H2]; lra.
    + destruct (IH c (t + cellWeight i)%R) as [H1 H2]; lra.
    + destruct (IH c (t + cellWeight i)%R) as [H1 H2]; lra.
Qed.

Lemma totalCells_pos : (0 < totalCells)%R.
Proof.
  unfold totalCells.
  assert (cellPairs = (0, 0)%nat :: tl cellPairs) as Hpairs by reflexivity.
  pose proof cellPairs_bounded as Hb. rewrite Hpairs in Hb |- *.
  apply Forall_cons in Hb as [_ Hb]. cbn [fold_left].
  pose proof (cellWeight_pos 0 ltac:(lia)) as Hw.
  destruct (weights_fold [] (tl cellPairs) Hb 0%R (0 + cellWeight 0)%R) as [_ H];
    lra.
Qed.

(** X6: the coverage percentage lies between 0 and 100 for every list of
    positions, and is 0 for the empty list. *)
Theorem coverage_percentage_in_range (positions : list Position) :
  (0 <= coveredPercentage (calculateCoverageMetrics positions) <= 100)%R /\
  coveredPercentage (calculateCoverageMetrics []) = 0%R.
Proof.
  pose proof totalCells_pos as Htot.
  assert (forall grid, 0 <= coveredCells grid <= totalCells)%R as Hcov.
  { intros grid. unfold coveredCells, totalCells.
    destruct (weights_fold grid cellPairs cellPairs_bounded 0%R 0%R) as [H _]; lra. }
  split.
  - unfold calculateCoverageMetrics. cbn [coveredPercentage].
    specialize (Hcov (markedGrid positions)).
    assert (0 <= coveredCells (markedGrid positions) / totalCells <= 1)%R.
    { split.
      - apply Rmult_le_pos; [lra |]. left. apply Rinv_0_lt_compat. assumption.
      - apply (Rmult_le_reg_r totalCells); [assumption |].
        unfold Rdiv. rewrite Rmult_assoc, Rinv_l by lra. lra. }
    lra.
  - unfold calculateCoverageMetrics. cbn [coveredPercentage].
    assert (coveredCells (markedGrid []) = 0%R) as Hz.
    { unfold markedGrid. cbn [fold_left]. vm_compute generateEarthGrid.
      unfold coveredCells, cellPairs. cbn. reflexivity. }
    rewrite Hz. unfold Rdiv. ring.
Qed.

End CoverageMore.

(** ** Density clustering: dense points are never noise *)

Module DensityMore.

Import Density DensityFacts Spec.

Section CoreFacts.

Variable neighborsOf : nat -> list nat.
Variable n : nat.
Hypothesis neighbors_NoDup : forall i, NoDup (neighborsOf i).
Hypothesis neighbors_bounded : forall i, Forall (fun j => (j < n)%nat) (neighborsOf i).

Lemma isVisited_insert vis i j :
  (i < length vis)%nat ->
  isVisited (<[i := true]> vis) j = if (j =? i)%nat then true else isVisited vis j.
Proof.
  intros Hi. unfold isVisited.
  destruct (Nat.eqb_spec j i) as [-> | Hne].
  - rewrite list_lookup_insert_eq by assumption. reflexivity.
  - rewrite list_lookup_insert_ne by congruence. reflexivity.
Qed.

Lemma assigned_after_step (assign : list Z) (currentPoint : nat) (clusterId a : Z) :
  (0 <= clusterId)%Z -> (currentPoint < length assign)%nat ->
  (if bool_decide (assign !! currentPoint = Some (-1)%Z)
   then <[currentPoint := clusterId]> assign else assign) !! currentPoint = Some a ->
  a <> (-1)%Z.
Proof.
  intros Hc Hlt. destruct (bool_decide _) eqn:Hb.
  - rewrite list_lookup_insert_eq by assumption. intros [= <-]. lia.
  - apply bool_decide_eq_false in Hb. intros Ha ->. contradiction.
Qed.

Lemma other_after_step (assign : list Z) (currentPoint i : nat) (clusterId : Z) :
  i <> currentPoint ->
  (if bool_decide (assign !! currentPoint = Some (-1)%Z)
   then <[currentPoint := clusterId]> assign else assign) !! i = assign !! i.
Proof.
  intros Hne. destruct (bool_decide _); [| reflexivity].
  apply list_lookup_insert_ne. congruence.
Qed.

Lemma expandStep_core clusterId currentPoint seedSet vis assign :
  (0 <= clusterId)%Z -> (currentPoint < n)%nat ->
  length vis = n -> length assign = n ->
  coreAssigned neighborsOf vis assign ->
  let '(_, vis', assign') :=
    expandStep neighborsOf clusterId currentPoint seedSet vis assign in
  coreAssigned neighborsOf vis' assign' /\
  (forall i, isVisited vis i = true -> isVisited vis' i = true).
Proof.
  intros Hc Hcp Hv Ha Hcore. unfold expandStep.
  set (assign' := if bool_decide (assign !! currentPoint = Some (-1)%Z)
                  then <[currentPoint := clusterId]> assign else assign).
  assert (coreAssigned neighborsOf (<[currentPoint := true]> vis) assign') as Hnew.
  { intros i a Hvis Hdense Hlk.
    destruct (Nat.eq_dec i currentPoint) as [-> | Hne].
    - apply (assigned_after_step assign currentPoint clusterId a); [assumption | lia |].
      exact Hlk.
    - unfold assign' in Hlk. rewrite other_after_step in Hlk by assumption.
      rewrite isVisited_insert in Hvis by lia.
      destruct (Nat.eqb_spec i currentPoint); [contradiction |].
      apply (Hcore i a Hvis Hdense Hlk). }
  assert (coreAssigned neighborsOf vis assign') as Hold.
  { intros i a Hvis Hdense Hlk.
    destruct (Nat.eq_dec i currentPoint) as [-> | Hne].
    - apply (assigned_after_step assign currentPoint clusterId a); [assumption | lia |].
      exact Hlk.
    - unfold assign' in Hlk. rewrite other_after_step in Hlk by assumption.
      apply (Hcore i a Hvis Hdense Hlk). }
  assert (forall i, isVisited vis i = true ->
                    isVisited (<[currentPoint := true]> vis) i = true) as Hmono.
  { intros i Hi. rewrite isVisited_insert by lia.
    destruct (i =? currentPoint)%nat; [reflexivity | assumption]. }
  destruct (negb (isVisited vis currentPoint)).
  - destruct (minPoints - 1 <=? length (neighborsOf currentPoint))%nat;
      split; assumption.
  - split; [assumption | auto].
Qed.

Lemma expand_core clusterId c : forall fuel j seedSet vis assign vis' assign',
  (0 <= clusterId)%Z -> validAssignment c clusterId ->
  NoDup seedSet -> Forall (fun i => (i < n)%nat) seedSet ->
  length vis = n -> length assign = n ->
  Forall (validAssignment c) assign ->
  coreAssigned neighborsOf vis assign ->
  expand neighborsOf fuel clusterId j seedSet vis assign = Some (vis', assign') ->
  coreAssigned neighborsOf vis' assign' /\
  (forall i, isVisited vis i = true -> isVisited vis' i = true).
Proof.
  induction fuel as [| fuel IH];
    intros j seedSet vis assign vis' assign' Hc Hvc Hnd Hb Hv Ha Hall Hcore Hex.
  - discriminate.
  - simpl in Hex. destruct (seedSet !! j) as [currentPoint |] eqn:Hj.
    + assert (currentPoint < n)%nat as Hcp.
      { rewrite Forall_forall in Hb. apply Hb.
        apply list_elem_of_lookup. eauto. }
      pose proof (expandStep_keeps neighborsOf n neighbors_bounded clusterId c
                    currentPoint seedSet vis assign Hnd Hb Hv Ha Hvc Hall) as Hkeep.
      pose proof (expandStep_core clusterId currentPoint seedSet vis assign
                    Hc Hcp Hv Ha Hcore) as Hstep.
      destruct (expandStep neighborsOf clusterId currentPoint seedSet vis assign)
        as [[seedSet1 vis1] assign1].
      destruct Hkeep as (Hnd1 & Hb1 & Hv1 & Ha1 & Hall1).
      destruct Hstep as [Hcore1 Hmono1].
      destruct (IH (S j) seedSet1 vis1 assign1 vis' assign'
                  Hc Hvc Hnd1 Hb1 Hv1 Ha1 Hall1 Hcore1 Hex) as [Hcore' Hmono'].
      split; [assumption | auto].
    + injection Hex as <- <-. split; [assumption | auto].
Qed.

(** The invariant of the outer loop: the lengths, the range of the ids and
    the fact that a visited dense point has a cluster. *)
Lemma scanPoint_core st st' i :
  (i < n)%nat -> scanInv n st ->
  coreAssigned neighborsOf (visited st) (clusterAssignments st) ->
  scanPoint neighborsOf (S n) st i = Some st' ->
  scanInv n st' /\
  coreAssigned neighborsOf (visited st') (clusterAssignments st') /\
  isVisited (visited st') i = true /\
  (forall j, isVisited (visited st) j = true -> isVisited (visited st') j = true).
Proof.
  intros Hi Hinv Hcore Hscan.
  destruct (scanPoint_returns neighborsOf n neighbors_NoDup neighbors_bounded st i Hinv)
    as (st1 & Hst1 & Hinv1).
  rewrite Hst1 in Hscan. injection Hscan as <-.
  split; [assumption |].
  destruct Hinv as (Hv & Ha & Hall).
  unfold scanPoint in Hst1.
  destruct (isVisited (visited st) i) eqn:Hvis.
  - injection Hst1 as <-. repeat split; auto.
  - destruct (Nat.ltb_spec (length (neighborsOf i)) (minPoints - 1)) as [Hfew | Hdense].
    + injection Hst1 as <-. cbn [visited clusterAssignments].
      split; [| split].
      * intros j a Hj Hd Hlk.
        destruct (Nat.eq_dec j i) as [-> | Hne]; [lia |].
        rewrite list_lookup_insert_ne in Hlk by congruence.
        rewrite isVisited_insert in Hj by lia.
        destruct (Nat.eqb_spec j i); [contradiction |].
        apply (Hcore j a Hj Hd Hlk).
      * rewrite isVisited_insert by lia. rewrite Nat.eqb_refl. reflexivity.
      * intros j Hj. rewrite isVisited_insert by lia.
        destruct (j =? i)%nat; [reflexivity | assumption].
    + destruct (expand neighborsOf (S n) (Z.of_nat (clusterCount st)) 0
                  (neighborsOf i) (<[i := true]> (visited st))
                  (<[i := Z.of_nat (clusterCount st)]> (clusterAssignments st)))
        as [[vis' assign'] |] eqn:Hex; [| discriminate].
      simpl in Hst1. injection Hst1 as <-. cbn [visited clusterAssignments].
      assert (coreAssigned neighborsOf (<[i := true]> (visited st))
                (<[i := Z.of_nat (clusterCount st)]> (clusterAssignments st)))
        as Hcore0.
      { intros j a Hj Hd Hlk.
        destruct (Nat.eq_dec j i) as [-> | Hne].
        - rewrite list_lookup_insert_eq in Hlk by lia. injection Hlk as <-. lia.
        - rewrite list_lookup_insert_ne in Hlk by congruence.
          rewrite isVisited_insert in Hj by lia.
          destruct (Nat.eqb_spec j i); [contradiction |].
          apply (Hcore j a Hj Hd Hlk). }
      assert (Forall (validAssignment (S (clusterCount st)))
                (<[i := Z.of_nat (clusterCount st)]> (clusterAssignments st)))
        as Hall0.
      { apply Forall_insert; [| right; lia].
        eapply Forall_impl; [exact Hall |].
        intros a. apply validAssignment_mono. lia. }
      destruct (expand_core (Z.of_nat (clusterCount st)) (S (clusterCount st))
                  (S n) 0 (neighborsOf i) (<[i := true]> (visited st))
                  (<[i := Z.of_nat (clusterCount st)]> (clusterAssignments st))
                  vis' assign'
                  ltac:(lia) ltac:(right; lia)
                  (neighbors_NoDup i) (neighbors_bounded i)
                  ltac:(rewrite length_insert; assumption)
                  ltac:(rewrite length_insert; assumption)
                  Hall0 Hcore0 Hex) as [Hcore' Hmono'].
      split; [assumption |]. split.
      * apply Hmono'. rewrite isVisited_insert by lia.
        rewrite Nat.eqb_refl. reflexivity.
      * intros j Hj. apply Hmono'. rewrite isVisited_insert by lia.
        destruct (j =? i)%nat; [reflexivity | assumption].
Qed.

Lemma scanFrom_core indices : forall st st',
  Forall (fun i => (i < n)%nat) indices ->
  scanInv n st ->
  coreAssigned neighborsOf (visited st) (clusterAssignments st) ->
  scanFrom neighborsOf (S n) indices st = Some st' ->
  scanInv n st' /\
  coreAssigned neighborsOf (visited st') (clusterAssignments st') /\
  (forall i, In i indices -> isVisited (visited st') i = true) /\
  (forall j, isVisited (visited st) j = true -> isVisited (visited st') j = true).
Proof.
  unfold scanFrom.
  induction indices as [| i rest IH]; intros st st' Hb Hinv Hcore Hscan.
  - simpl in Hscan. injection Hscan as <-.
    split; [assumption |]. split; [assumption |].
    split; [intros i [] | auto].
  - apply Forall_cons in Hb as [Hi Hb]. simpl in Hscan.
    destruct (scanPoint neighborsOf (S n) st i) as [st1 |] eqn:Hst1.
    + destruct (scanPoint_core st st1 i Hi Hinv Hcore Hst1)
        as (Hinv1 & Hcore1 & Hvis1 & Hmono1).
      destruct (IH st1 st' Hb Hinv1 Hcore1 Hscan) as (Hinv' & Hcore' & Hall' & Hmono').
      split; [assumption |]. split; [assumption |]. split.
      * intros j [<- | Hj]; [apply Hmono'; assumption | apply Hall'; assumption].
      * auto.
    + exfalso. clear -Hscan.
      assert (forall l, foldl (fun acc i => st' ← acc; scanPoint neighborsOf (S n) st' i)
                          (None : option ScanState) l = None) as Hnone.
      { induction l; [reflexivity | assumption]. }
      simpl in Hscan. rewrite Hnone in Hscan. discriminate.
Qed.

Lemma dbscan_core st :
  dbscan neighborsOf n = Some st ->
  forall i a, (i < n)%nat ->
    (minPoints - 1 <= length (neighborsOf i))%nat ->
    clusterAssignments st !! i = Some a ->
    (0 <= a < Z.of_nat (clusterCount st))%Z.
Proof.
  unfold dbscan. intros Hscan i a Hi Hdense Hlk.
  set (st0 := mkScan (replicate n false) (replicate n (-1)%Z) 0) in *.
  assert (Forall (fun j => (j < n)%nat) (seq 0 n)) as Hb.
  { apply Forall_forall. intros j Hj. apply list_elem_of_In, in_seq in Hj. lia. }
  assert (scanInv n st0) as Hinv0.
  { repeat split; cbn; rewrite ?length_replicate; try reflexivity.
    apply Forall_replicate. left. reflexivity. }
  assert (coreAssigned neighborsOf (visited st0) (clusterAssignments st0)) as Hcore0.
  { intros j b Hj. cbn in Hj. unfold isVisited in Hj.
    destruct (replicate n false !! j) as [v |] eqn:Hr; [| discriminate].
    apply lookup_replicate in Hr as [-> _]. discriminate. }
  destruct (scanFrom_core (seq 0 n) st0 st Hb Hinv0 Hcore0 Hscan)
    as (Hinv & Hcore & Hall & _).
  destruct Hinv as (_ & _ & Hvalid).
  rewrite Forall_lookup in Hvalid. specialize (Hvalid i a Hlk).
  assert (a <> (-1)%Z) as Hne.
  { apply (Hcore i a); [| assumption | assumption].
    apply Hall, in_seq. lia. }
  destruct Hvalid as [-> | Hr]; [contradiction | assumption].
Qed.

End CoreFacts.

(** X7: in the result of density clustering a position that has at least
    two other positions within 500 kilometres is never noise: it carries the
    id of a cluster.  Put the other way round, every noise point has fewer
    than two neighbours. *)
Theorem dense_points_are_clustered (positions : list Position)
    (m : ClusteringMetrics) (assignments : list Z) :
  calculateClusteringMetrics positions = Some m ->
  m_clusterAssignments m = Some assignments ->
  forall i a,
    assignments !! i = Some a ->
    ((2 <= length (getNeighbors positions i))%nat ->
     (0 <= a < Z.of_nat (m_clusterCount m))%Z) /\
    (a = (-1)%Z -> (length (getNeighbors positions i) < 2)%nat).
Proof.
  unfold calculateClusteringMetrics. intros Hm Ha i a Hlk.
  destruct (length positions =? 0)%nat.
  { injection Hm as <-. discriminate. }
  destruct (dbscan (getNeighbors positions) (length positions)) as [st |] eqn:Hst;
    [| discriminate].
  simpl in Hm. injection Hm as <-. cbn in Ha. injection Ha as <-. cbn.
  assert (i < length positions)%nat as Hi.
  { destruct (dbscan_returns (getNeighbors positions) (length positions)
                (getNeighbors_NoDup positions) (getNeighbors_bounded positions))
      as (st0 & Hst0 & _ & Hlen & _).
    rewrite Hst in Hst0. injection Hst0 as <-.
    apply lookup_lt_Some in Hlk. lia. }
  assert ((2 <= length (getNeighbors positions i))%nat ->
          (0 <= a < Z.of_nat (clusterCount st))%Z) as Hdense.
  { intros Hd.
    apply (dbscan_core (getNeighbors positions) (length positions)
             (getNeighbors_NoDup positions) (getNeighbors_bounded positions)
             st Hst i a Hi Hd Hlk). }
  split; [exact Hdense |].
  intros ->. destruct (Nat.lt_ge_cases (length (getNeighbors positions i)) 2)
    as [Hlt | Hge]; [assumption |].
  specialize (Hdense Hge). lia.
Qed.

(** *** A cluster of three and an outlier *)

Lemma near_on_equator (x y d : R) :
  (0 <= d <= 2)%R -> (y - x = d \/ x - y = d)%R ->
  Js.leb (haversineDistance 0 x 0 y) epsilon = true.
Proof.
  intros Hd Hcase.
  rewrite (EquatorFacts.haversine_equator x y d) by lra.
  unfold Js.leb, epsilon, arc. pose proof PI_4. pose proof PI_RGT_0.
  destruct (Rle_dec (6371 * (d * PI / 180)) 500) as [_ | Hno]; [reflexivity |].
  exfalso. apply Hno. nra.
Qed.

Lemma far_on_equator (x y d : R) :
  (88 <= d <= 180)%R -> (y - x = d \/ x - y = d)%R ->
  Js.leb (haversineDistance 0 x 0 y) epsilon = false.
Proof.
  intros Hd Hcase.
  rewrite (EquatorFacts.haversine_equator x y d) by lra.
  unfold Js.leb, epsilon, arc. pose proof PI2_3_2.
  destruct (Rle_dec (6371 * (d * PI / 180)) 500) as [Hle | _]; [| reflexivity].
  exfalso. nra.
Qed.

(** Resolves the distance tests between positions of the equator. *)
Ltac decide_near :=
  repeat first
    [ rewrite (near_on_equator _ _ 1) by lra
    | rewrite (near_on_equator _ _ 2) by lra
    | rewrite (far_on_equator _ _ 88) by lra
    | rewrite (far_on_equator _ _ 89) by lra
    | rewrite (far_on_equator _ _ 90) by lra ].

Lemma sample_neighbours :
  getNeighbors Inputs.clusterAndOutlier = Inputs.neighboursOfSample.
Proof.
  apply FunctionalExtensionality.functional_extensionality. intros i.
  unfold getNeighbors, Inputs.clusterAndOutlier.
  destruct i as [| [| [| [| i]]]];
    cbn -[haversineDistance Js.leb epsilon]; decide_near; reflexivity.
Qed.

(** The three neighbours form the one cluster, the fourth position is
    noise. *)
Lemma sample_metrics :
  calculateClusteringMetrics Inputs.clusterAndOutlier =
  Some (mkMetrics 1 (INR 3 / INR 1)%R (INR 1 / INR 4)%R 3
                  (Some [0; 0; 0; -1]%Z) (Some [3%nat])).
Proof.
  unfold calculateClusteringMetrics. rewrite sample_neighbours. reflexivity.
Qed.

(** The statement above for the cluster of three and the outlier. *)
Lemma dense_points_are_clustered_witness :
  calculateClusteringMetrics Inputs.clusterAndOutlier =
    Some (mkMetrics 1 (INR 3 / INR 1)%R (INR 1 / INR 4)%R 3
                    (Some [0; 0; 0; -1]%Z) (Some [3%nat])) /\
  m_clusterAssignments
    (mkMetrics 1 (INR 3 / INR 1)%R (INR 1 / INR 4)%R 3
               (Some [0; 0; 0; -1]%Z) (Some [3%nat])) =
    Some [0; 0; 0; -1]%Z /\
  forall i a,
    [0; 0; 0; -1]%Z !! i = Some a ->
    ((2 <= length (getNeighbors Inputs.clusterAndOutlier i))%nat ->
     (0 <= a < Z.of_nat 1)%Z) /\
    (a = (-1)%Z -> (length (getNeighbors Inputs.clusterAndOutlier i) < 2)%nat).
Proof.
  split; [exact sample_metrics |]. split; [reflexivity |].
  exact (dense_points_are_clustered Inputs.clusterAndOutlier _ [0; 0; 0; -1]%Z
           sample_metrics eq_refl).
Defined.

End DensityMore.

(** ** Density clustering: no cluster is empty *)

Module ClusterMembers.

Import Density DensityFacts Spec.

Section MemberFacts.

Variable neighborsOf : nat -> list nat.
Variable n : nat.
Hypothesis neighbors_NoDup : forall i, NoDup (neighborsOf i).
Hypothesis neighbors_bounded : forall i, Forall (fun j => (j < n)%nat) (neighborsOf i).

Lemma expandStep_members clusterId currentPoint seedSet vis assign :
  (currentPoint < n)%nat -> length vis = n -> length assign = n ->
  (forall i a, assign !! i = Some a -> a <> (-1)%Z -> isVisited vis i = true) ->
  let '(_, vis', assign') :=
    expandStep neighborsOf clusterId currentPoint seedSet vis assign in
  (forall i a, assign' !! i = Some a -> a <> (-1)%Z -> isVisited vis' i = true) /\
  (forall i a, assign !! i = Some a -> a <> (-1)%Z -> assign' !! i = Some a).
Proof.
  intros Hcp Hv Ha Hvisited. unfold expandStep.
  set (assign' := if bool_decide (assign !! currentPoint = Some (-1)%Z)
                  then <[currentPoint := clusterId]> assign else assign).
  assert (forall i a, assign !! i = Some a -> a <> (-1)%Z -> assign' !! i = Some a)
    as Hkeeps.
  { intros i a Hlk Hne. unfold assign'.
    destruct (Nat.eq_dec i currentPoint) as [-> | Hi].
    - destruct (bool_decide (assign !! currentPoint = Some (-1)%Z)) eqn:Hb;
        [| assumption].
      apply bool_decide_eq_true in Hb. congruence.
    - rewrite DensityMore.other_after_step by assumption. assumption. }
  assert (forall vis1,
            (forall i, isVisited vis i = true -> isVisited vis1 i = true) ->
            isVisited vis1 currentPoint = true ->
            forall i a, assign' !! i = Some a -> a <> (-1)%Z ->
                        isVisited vis1 i = true) as Hnew.
  { intros vis1 Hmono Hcur i a Hlk Hne.
    destruct (Nat.eq_dec i currentPoint) as [-> | Hi]; [assumption |].
    unfold assign' in Hlk. rewrite DensityMore.other_after_step in Hlk by assumption.
    apply Hmono, (Hvisited i a); assumption. }
  assert (forall i, isVisited vis i = true ->
                    isVisited (<[currentPoint := true]> vis) i = true) as Hmono.
  { intros i Hi. rewrite DensityMore.isVisited_insert by lia.
    destruct (i =? currentPoint)%nat; [reflexivity | assumption]. }
  assert (isVisited (<[currentPoint := true]> vis) currentPoint = true) as Hcur.
  { rewrite DensityMore.isVisited_insert by lia. rewrite Nat.eqb_refl. reflexivity. }
  destruct (isVisited vis currentPoint) eqn:Hvis; cbn [negb].
  - split; [apply Hnew; [auto | assumption] | assumption].
  - destruct (minPoints - 1 <=? length (neighborsOf currentPoint))%nat;
      (split; [apply Hnew; assumption | assumption]).
Qed.

Lemma expand_members clusterId c : forall fuel j seedSet vis assign vis' assign',
  validAssignment c clusterId ->
  NoDup seedSet -> Forall (fun i => (i < n)%nat) seedSet ->
  length vis = n -> length assign = n ->
  Forall (validAssignment c) assign ->
  (forall i a, assign !! i = Some a -> a <> (-1)%Z -> isVisited vis i = true) ->
  expand neighborsOf fuel clusterId j seedSet vis assign = Some (vis', assign') ->
  (forall i a, assign' !! i = Some a -> a <> (-1)%Z -> isVisited vis' i = true) /\
  (forall i a, assign !! i = Some a -> a <> (-1)%Z -> assign' !! i = Some a).
Proof.
  induction fuel as [| fuel IH];
    intros j seedSet vis assign vis' assign' Hvc Hnd Hb Hv Ha Hall Hvisited Hex.
  - discriminate.
  - simpl in Hex. destruct (seedSet !! j) as [currentPoint |] eqn:Hj.
    + assert (currentPoint < n)%nat as Hcp.
      { rewrite Forall_forall in Hb. apply Hb.
        apply list_elem_of_lookup. eauto. }
      pose proof (expandStep_keeps neighborsOf n neighbors_bounded clusterId c
                    currentPoint seedSet vis assign Hnd Hb Hv Ha Hvc Hall) as Hkeep.
      pose proof (expandStep_members clusterId currentPoint seedSet vis assign
                    Hcp Hv Ha Hvisited) as Hstep.
      destruct (expandStep neighborsOf clusterId currentPoint seedSet vis assign)
        as [[seedSet1 vis1] assign1].
      destruct Hkeep as (Hnd1 & Hb1 & Hv1 & Ha1 & Hall1).
      destruct Hstep as [Hvisited1 Hkeeps1].
      destruct (IH (S j) seedSet1 vis1 assign1 vis' assign'
                  Hvc Hnd1 Hb1 Hv1 Ha1 Hall1 Hvisited1 Hex) as [Hvisited' Hkeeps'].
      split; [assumption |]. intros i a Hlk Hne.
      apply Hkeeps'; [| assumption]. apply Hkeeps1; assumption.
    + injection Hex as <- <-. split; [assumption | auto].
Qed.

Lemma unvisited_is_noise (vis : list bool) (assign : list Z) (i : nat) (a : Z) :
  (forall j b, assign !! j = Some b -> b <> (-1)%Z -> isVisited vis j = true) ->
  isVisited vis i = false -> assign !! i = Some a -> a = (-1)%Z.
Proof.
  intros Hvisited Hvis Hlk. destruct (Z.eq_dec a (-1)%Z) as [-> | Hne]; [reflexivity |].
  rewrite (Hvisited i a Hlk Hne) in Hvis. discriminate.
Qed.

Lemma scanPoint_members st st' i :
  (i < n)%nat -> scanInv n st ->
  populated (visited st) (clusterAssignments st) (clusterCount st) ->
  scanPoint neighborsOf (S n) st i = Some st' ->
  populated (visited st') (clusterAssignments st') (clusterCount st').
Proof.
  intros Hi (Hv & Ha & Hall) [Hvisited Hmembers] Hscan.
  unfold scanPoint in Hscan.
  destruct (isVisited (visited st) i) eqn:Hvis.
  - injection Hscan as <-. split; assumption.
  - assert (forall j b, clusterAssignments st !! j = Some b -> b <> (-1)%Z -> j <> i)
      as Hother.
    { intros j b Hlk Hne ->.
      apply Hne, (unvisited_is_noise (visited st) (clusterAssignments st) i);
        assumption. }
    assert (forall j, isVisited (visited st) j = true ->
                      isVisited (<[i := true]> (visited st)) j = true) as Hmono.
    { intros j Hj. rewrite DensityMore.isVisited_insert by lia.
      destruct (j =? i)%nat; [reflexivity | assumption]. }
    assert (isVisited (<[i := true]> (visited st)) i = true) as Hcur.
    { rewrite DensityMore.isVisited_insert by lia. rewrite Nat.eqb_refl. reflexivity. }
    destruct (Nat.ltb_spec (length (neighborsOf i)) (minPoints - 1)) as [Hfew | Hdense].
    + injection Hscan as <-. cbn [visited clusterAssignments clusterCount]. split.
      * intros j b Hlk Hne.
        destruct (Nat.eq_dec j i) as [-> | Hji].
        -- rewrite list_lookup_insert_eq in Hlk by lia. congruence.
        -- rewrite list_lookup_insert_ne in Hlk by congruence.
           apply Hmono, (Hvisited j b); assumption.
      * intros c Hc. destruct (Hmembers c Hc) as [j Hj]. exists j.
        rewrite list_lookup_insert_ne; [assumption |].
        intros Heq. rewrite <- Heq in Hj.
        apply (Hother i (Z.of_nat c) Hj); [lia | reflexivity].
    + destruct (expand neighborsOf (S n) (Z.of_nat (clusterCount st)) 0
                  (neighborsOf i) (<[i := true]> (visited st))
                  (<[i := Z.of_nat (clusterCount st)]> (clusterAssignments st)))
        as [[vis' assign'] |] eqn:Hex; [| discriminate].
      simpl in Hscan. injection Hscan as <-.
      cbn [visited clusterAssignments clusterCount].
      assert (Forall (validAssignment (S (clusterCount st)))
                (<[i := Z.of_nat (clusterCount st)]> (clusterAssignments st)))
        as Hall0.
      { apply Forall_insert; [| right; lia].
        eapply Forall_impl; [exact Hall |].
        intros a. apply validAssignment_mono. lia. }
      assert (forall j b,
                <[i := Z.of_nat (clusterCount st)]> (clusterAssignments st) !! j = Some b ->
                b <> (-1)%Z -> isVisited (<[i := true]> (visited st)) j = true)
        as Hvisited0.
      { intros j b Hlk Hne.
        destruct (Nat.eq_dec j i) as [-> | Hji]; [assumption |].
        rewrite list_lookup_insert_ne in Hlk by congruence.
        apply Hmono, (Hvisited j b); assumption. }
      destruct (expand_members (Z.of_nat (clusterCount st)) (S (clusterCount st))
                  (S n) 0 (neighborsOf i) (<[i := true]> (visited st))
                  (<[i := Z.of_nat (clusterCount st)]> (clusterAssignments st))
                  vis' assign'
                  ltac:(right; lia)
                  (neighbors_NoDup i) (neighbors_bounded i)
                  ltac:(rewrite length_insert; assumption)
                  ltac:(rewrite length_insert; assumption)
                  Hall0 Hvisited0 Hex) as [Hvisited' Hkeeps'].
      split; [assumption |].
      intros c Hc. destruct (Nat.eq_dec c (clusterCount st)) as [-> | Hold].
      * exists i. apply Hkeeps'; [| lia].
        apply list_lookup_insert_eq. lia.
      * destruct (Hmembers c ltac:(lia)) as [j Hj]. exists j.
        apply Hkeeps'; [| lia].
        rewrite list_lookup_insert_ne; [assumption |].
        intros Heq. rewrite <- Heq in Hj.
        apply (Hother i (Z.of_nat c) Hj); [lia | reflexivity].
Qed.

Lemma scanFrom_members indices : forall st st',
  Forall (fun i => (i < n)%nat) indices ->
  scanInv n st ->
  populated (visited st) (clusterAssignments st) (clusterCount st) ->
  scanFrom neighborsOf (S n) indices st = Some st' ->
  populated (visited st') (clusterAssignments st') (clusterCount st').
Proof.
  unfold scanFrom.
  induction indices as [| i rest IH]; intros st st' Hb Hinv Hpop Hscan.
  - simpl in Hscan. injection Hscan as <-. assumption.
  - apply Forall_cons in Hb as [Hi Hb]. simpl in Hscan.
    destruct (scanPoint_returns neighborsOf n neighbors_NoDup neighbors_bounded st i Hinv)
      as (st1 & Hst1 & Hinv1).
    rewrite Hst1 in Hscan.
    apply (IH st1 st' Hb Hinv1); [| assumption].
    exact (scanPoint_members st st1 i Hi Hinv Hpop Hst1).
Qed.

Lemma dbscan_members st :
  dbscan neighborsOf n = Some st ->
  forall c, (c < clusterCount st)%nat ->
    exists i, clusterAssignments st !! i = Some (Z.of_nat c).
Proof.
  unfold dbscan. intros Hscan.
  set (st0 := mkScan (replicate n false) (replicate n (-1)%Z) 0) in *.
  assert (Forall (fun j => (j < n)%nat) (seq 0 n)) as Hb.
  { apply Forall_forall. intros j Hj. apply list_elem_of_In, in_seq in Hj. lia. }
  assert (scanInv n st0) as Hinv0.
  { repeat split; cbn; rewrite ?length_replicate; try reflexivity.
    apply Forall_replicate. left. reflexivity. }
  assert (populated (visited st0) (clusterAssignments st0) (clusterCount st0)) as Hpop0.
  { split.
    - intros j b Hlk Hne. cbn in Hlk.
      apply lookup_replicate in Hlk as [-> _]. contradiction.
    - intros c Hc. cbn in Hc. lia. }
  exact (proj2 (scanFrom_members (seq 0 n) st0 st Hb Hinv0 Hpop0 Hscan)).
Qed.

End MemberFacts.

(** The counter of a cluster is the number of its points. *)
Lemma countSizes_lookup (count c : nat) : forall (ids : list Z) (sizes : list nat),
  Forall (validAssignment count) ids ->
  fold_left (fun sizes assignment =>
               if (assignment =? -1)%Z then sizes
               else alter S (Z.to_nat assignment) sizes) ids sizes !! c =
  (fun size => (size + length (List.filter (fun a => (a =? Z.of_nat c)%Z) ids))%nat)
    <$> sizes !! c.
Proof.
  induction ids as [| a ids IH]; intros sizes Hall; cbn [fold_left List.filter].
  - destruct (sizes !! c); simpl; [f_equal; lia | reflexivity].
  - apply Forall_cons in Hall as [Ha Hall]. rewrite (IH _ Hall).
    destruct (Z.eqb_spec a (-1)%Z) as [-> | Hne].
    + destruct (Z.eqb_spec (-1)%Z (Z.of_nat c)) as [Heq | _]; [lia |]. reflexivity.
    + destruct Ha as [-> | Hr]; [contradiction |].
      destruct (Z.eqb_spec a (Z.of_nat c)) as [-> | Hac].
      * rewrite Nat2Z.id, list_lookup_alter_eq.
        destruct (sizes !! c); simpl; [f_equal; lia | reflexivity].
      * rewrite list_lookup_alter_ne by lia. reflexivity.
Qed.

Lemma foldr_max_upper : forall (sizes : list nat) (size : nat),
  size ∈ sizes -> (size <= foldr Nat.max 0%nat sizes)%nat.
Proof.
  induction sizes as [| x sizes IH]; intros size Hin.
  - apply elem_of_nil in Hin. contradiction.
  - apply elem_of_cons in Hin as [-> | Hin]; simpl; [lia |].
    specialize (IH size Hin). lia.
Qed.

Lemma sum_of_positive : forall sizes : list nat,
  Forall (fun size => (1 <= size)%nat) sizes -> (length sizes <= list_sum sizes)%nat.
Proof.
  induction sizes as [| x sizes IH]; intros Hall; simpl; [lia |].
  apply Forall_cons in Hall as [Hx Hall]. specialize (IH Hall). lia.
Qed.

(** X30: no cluster of the density clustering is empty: every entry of
    [clusterSizes] is at least 1, so there are at most as many clusters as
    positions, and [largestCluster] is at least 1 as soon as there is a
    cluster. *)
Theorem clusters_are_never_empty (positions : list Position)
    (m : ClusteringMetrics) (sizes : list nat) :
  calculateClusteringMetrics positions = Some m ->
  clusterSizes m = Some sizes ->
  length sizes = m_clusterCount m /\
  Forall (fun size => (1 <= size)%nat) sizes /\
  (m_clusterCount m <= length positions)%nat /\
  ((0 < m_clusterCount m)%nat -> (1 <= largestCluster m)%nat).
Proof.
  unfold calculateClusteringMetrics. intros Hm Hsizes.
  destruct (length positions =? 0)%nat.
  { injection Hm as <-. discriminate. }
  destruct (dbscan (getNeighbors positions) (length positions)) as [st |] eqn:Hst;
    [| discriminate].
  simpl in Hm. injection Hm as <-. cbn in Hsizes. injection Hsizes as <-. cbn.
  destruct (dbscan_returns (getNeighbors positions) (length positions)
              (getNeighbors_NoDup positions) (getNeighbors_bounded positions))
    as (st0 & Hst0 & _ & Hlen & Hvalid).
  rewrite Hst in Hst0. injection Hst0 as <-.
  destruct (countSizes_partition (clusterCount st) (clusterAssignments st) Hvalid)
    as [Hcount Hsum].
  assert (Forall (fun size => (1 <= size)%nat)
            (countSizes (clusterCount st) (clusterAssignments st))) as Hall.
  { apply Forall_lookup. intros c size Hc.
    pose proof (lookup_lt_Some _ _ _ Hc) as Hlt. rewrite Hcount in Hlt.
    unfold countSizes in Hc. rewrite (countSizes_lookup _ _ _ _ Hvalid) in Hc.
    rewrite lookup_replicate_2 in Hc by assumption. simpl in Hc. injection Hc as <-.
    destruct (dbscan_members (getNeighbors positions) (length positions)
                (getNeighbors_NoDup positions) (getNeighbors_bounded positions)
                st Hst c Hlt) as [i Hi].
    assert (In (Z.of_nat c)
              (List.filter (fun a => (a =? Z.of_nat c)%Z) (clusterAssignments st)))
      as Hin.
    { apply filter_In. split; [| apply Z.eqb_refl].
      apply list_elem_of_In, list_elem_of_lookup. eauto. }
    destruct (List.filter (fun a => (a =? Z.of_nat c)%Z) (clusterAssignments st));
      [contradiction | simpl; lia]. }
  split; [exact Hcount |]. split; [exact Hall |].
  pose proof (sum_of_positive _ Hall) as Hle. rewrite Hcount in Hle.
  split; [lia |].
  intros Hpos.
  destruct (lookup_lt_is_Some_2 (countSizes (clusterCount st) (clusterAssignments st)) 0)
    as [size Hsize]; [lia |].
  assert (size ∈ countSizes (clusterCount st) (clusterAssignments st)) as Hin
    by (apply list_elem_of_lookup; eauto).
  pose proof (foldr_max_upper _ _ Hin) as Hmax.
  rewrite Forall_forall in Hall. specialize (Hall size Hin). lia.
Qed.

(** The statement above for the cluster of three and the outlier. *)
Lemma clusters_are_never_empty_witness :
  calculateClusteringMetrics Inputs.clusterAndOutlier =
    Some (mkMetrics 1 (INR 3 / INR 1)%R (INR 1 / INR 4)%R 3
               (Some [0; 0; 0; -1]%Z) (Some [3%nat])) /\
  clusterSizes
    (mkMetrics 1 (INR 3 / INR 1)%R (INR 1 / INR 4)%R 3
               (Some [0; 0; 0; -1]%Z) (Some [3%nat])) =
    Some [3%nat] /\
  length [3%nat] =
    m_clusterCount
      (mkMetrics 1 (INR 3 / INR 1)%R (INR 1 / INR 4)%R 3
               (Some [0; 0; 0; -1]%Z) (Some [3%nat])) /\
  Forall (fun size => (1 <= size)%nat) [3%nat] /\
  (m_clusterCount
     (mkMetrics 1 (INR 3 / INR 1)%R (INR 1 / INR 4)%R 3
               (Some [0; 0; 0; -1]%Z) (Some [3%nat]))
   <= length Inputs.clusterAndOutlier)%nat /\
  ((0 < m_clusterCount
          (mkMetrics 1 (INR 3 / INR 1)%R (INR 1 / INR 4)%R 3
               (Some [0; 0; 0; -1]%Z) (Some [3%nat])))%nat ->
   (1 <= largestCluster
           (mkMetrics 1 (INR 3 / INR 1)%R (INR 1 / INR 4)%R 3
               (Some [0; 0; 0; -1]%Z) (Some [3%nat])))%nat).
Proof.
  split; [exact DensityMore.sample_metrics |]. split; [reflexivity |].
  exact (clusters_are_never_empty Inputs.clusterAndOutlier _ [3%nat]
           DensityMore.sample_metrics eq_refl).
Defined.

End ClusterMembers.

(** ** The k-means loop: seeds, centroids and convergence *)

Module KMeansMore.

Import Js Centroid CentroidFacts Spec.

Lemma seedLoop_members points : forall rounds centroids g seeds g',
  seedLoop rounds points centroids g = Some (seeds, g') ->
  Forall (fun s => s ∈ points) centroids ->
  Forall (fun s => s ∈ points) seeds.
Proof.
  induction rounds as [| rounds IH]; intros centroids g seeds g' Hrun Hall;
    simpl in Hrun.
  - unfold ret in Hrun. congruence.
  - unfold bind at 1, random at 1 in Hrun.
    unfold bind at 1, defined at 1 in Hrun.
    destruct (points !! chooseNext points centroids (u_val (g 0%nat)))
      as [p |] eqn:Hp; [| discriminate].
    apply (IH _ _ _ _ Hrun). apply Forall_app. split; [assumption |].
    apply Forall_cons. split; [| constructor].
    apply list_elem_of_lookup. eauto.
Qed.

Lemma initializeCentroids_members points k g seeds g' :
  initializeCentroids points k g = Some (seeds, g') ->
  Forall (fun s => s ∈ points) seeds.
Proof.
  unfold initializeCentroids.
  destruct ((length points =? 0)%nat || (k =? 0)%nat).
  - unfold ret. intros H. injection H as <- _. constructor.
  - unfold bind at 1, random at 1. unfold bind at 1, defined at 1.
    destruct (points !! Z.to_nat (floor (u_val (g 0%nat) * INR (length points))))
      as [p |] eqn:Hp; [| discriminate].
    intros Hrun. apply (seedLoop_members _ _ _ _ _ _ Hrun).
    apply Forall_cons. split; [| constructor].
    apply list_elem_of_lookup. eauto.
Qed.

(** X8: for a list of points that is not empty and [k >= 1], the seeding
    returns [k] centroids, and each of them is one of the input points. *)
Theorem seeds_are_input_points (points : list Point) (k : nat) (g : RandomSource) :
  points <> [] -> (1 <= k)%nat ->
  exists seeds g',
    initializeCentroids points k g = Some (seeds, g') /\
    length seeds = k /\
    Forall (fun s => s ∈ points) seeds.
Proof.
  intros Hne Hk.
  destruct (initializeCentroids_returns points k g Hne Hk)
    as (seeds & g' & Hrun & Hlen).
  exists seeds, g'. split; [assumption |]. split; [assumption |].
  exact (initializeCentroids_members _ _ _ _ _ Hrun).
Qed.

Lemma seeds_are_input_points_witness :
  [(0, 0); (0, 90)]%R <> ([] : list Point) /\ (1 <= 2)%nat /\
  exists seeds g',
    initializeCentroids [(0, 0); (0, 90)]%R 2 Samples.zeroSource = Some (seeds, g') /\
    length seeds = 2%nat /\
    Forall (fun s => s ∈ [(0, 0); (0, 90)]%R) seeds.
Proof.
  assert ([(0, 0); (0, 90)]%R <> ([] : list Point)) as Hne by discriminate.
  assert (1 <= 2)%nat as Hk by lia.
  split; [exact Hne |]. split; [exact Hk |].
  exact (seeds_are_input_points [(0, 0); (0, 90)]%R 2 Samples.zeroSource Hne Hk).
Defined.

(** *** The centroids stay in the box of the points *)

Lemma accumulate_box sums counts p a sums' counts' :
  accumulate (sums, counts) p a = Some (sums', counts') ->
  inBox p -> boundedSums sums counts -> boundedSums sums' counts'.
Proof.
  unfold accumulate.
  destruct ((0 <=? a)%Z && (Z.to_nat a <? length sums)%nat); [| discriminate].
  intros H [Hlat Hlng] Hb. injection H as <- <-.
  unfold boundedSums in *. apply Forall2_alter; [assumption |].
  intros s c _ _ [H1 H2]. cbn [fst snd]. rewrite S_INR. split; lra.
Qed.

Lemma accumulateAll_box : forall points assignments sums counts sums' counts',
  accumulateAll (sums, counts) points assignments = Some (sums', counts') ->
  Forall inBox points -> boundedSums sums counts -> boundedSums sums' counts'.
Proof.
  induction points as [| p points IH];
    intros assignments sums counts sums' counts' Hrun Hall Hb.
  - destruct assignments; simpl in Hrun; congruence.
  - destruct assignments as [| a assignments]; [discriminate |].
    apply Forall_cons in Hall as [Hp Hall]. cbn [accumulateAll] in Hrun.
    destruct (accumulate (sums, counts) p a) as [[s1 c1] |] eqn:Hacc;
      [| simpl in Hrun; discriminate].
    cbn [mbind option_bind] in Hrun.
    exact (IH _ _ _ _ _ Hrun Hall (accumulate_box _ _ _ _ _ _ Hacc Hp Hb)).
Qed.

Lemma boundedSums_replicate k :
  boundedSums (replicate k (0, 0)%R) (replicate k 0%nat).
Proof.
  unfold boundedSums. induction k as [| k IH]; simpl; constructor.
  - simpl. split; lra.
  - exact IH.
Qed.

Lemma mean_in_range (s lo hi : R) (c : nat) :
  (0 < c)%nat -> (INR c * lo <= s <= INR c * hi)%R -> (lo <= s / INR c <= hi)%R.
Proof.
  intros Hc [H1 H2].
  assert (0 < INR c)%R as Hpos by (apply lt_0_INR; assumption).
  split.
  - apply Rmult_le_reg_l with (INR c); [assumption |].
    replace (INR c * (s / INR c))%R with s by (field; lra). assumption.
  - apply Rmult_le_reg_l with (INR c); [assumption |].
    replace (INR c * (s / INR c))%R with s by (field; lra). assumption.
Qed.

Lemma moveCentroids_box sums counts : forall rounds i cs cs',
  boundedSums sums counts -> Forall inBox cs ->
  moveCentroids i rounds sums counts cs = Some cs' -> Forall inBox cs'.
Proof.
  induction rounds as [| rounds IH]; intros i cs cs' Hb Hall Hrun; simpl in Hrun.
  - congruence.
  - destruct (counts !! i) as [c |] eqn:Hc; [| exact (IH _ _ _ Hb Hall Hrun)].
    destruct (sums !! i) as [s |] eqn:Hs; [| exact (IH _ _ _ Hb Hall Hrun)].
    destruct (Nat.ltb_spec 0 c) as [Hpos | _]; [| exact (IH _ _ _ Hb Hall Hrun)].
    destruct (i <? length cs)%nat; [| discriminate].
    apply (IH _ _ _ Hb) in Hrun; [assumption |].
    apply Forall_insert; [assumption |].
    unfold boundedSums in Hb.
    destruct (Forall2_lookup_lr _ _ _ _ _ _ Hb Hs Hc) as [H1 H2].
    split; cbn [fst snd]; apply mean_in_range; assumption.
Qed.

Lemma updateCentroids_box k points assignments cs cs' :
  updateCentroids k points assignments cs = Some cs' ->
  Forall inBox points -> Forall inBox cs -> Forall inBox cs'.
Proof.
  unfold updateCentroids. intros Hrun Hpts Hcs.
  destruct (accumulateAll (replicate k (0, 0)%R, replicate k 0%nat) points assignments)
    as [[sums counts] |] eqn:Hacc; [| discriminate].
  simpl in Hrun.
  apply (moveCentroids_box sums counts k 0%nat cs cs'); try assumption.
  exact (accumulateAll_box _ _ _ _ _ _ Hacc Hpts (boundedSums_replicate k)).
Qed.

Lemma refine_box k points : forall fuel cs old a a' c',
  Forall inBox points -> Forall inBox cs ->
  refine fuel k points cs old a = Some (a', c') -> Forall inBox c'.
Proof.
  induction fuel as [| fuel IH]; intros cs old a a' c' Hpts Hcs Hrun;
    simpl in Hrun.
  - congruence.
  - destruct (unchanged (length points) (assignPoints points cs) old).
    + congruence.
    + destruct (updateCentroids k points (assignPoints points cs) cs)
        as [cs1 |] eqn:Hup; [| discriminate].
      simpl in Hrun.
      exact (IH _ _ _ _ _ Hpts (updateCentroids_box _ _ _ _ _ Hup Hpts Hcs) Hrun).
Qed.

(** The run of [kMeansCluster] on a list that is not empty, step by step. *)
Lemma kMeansCluster_run positions k g :
  positions <> [] -> (1 <= k)%nat ->
  exists seeds g' a c i,
    initializeCentroids (pointsOf positions) k g = Some (seeds, g') /\
    length seeds = k /\
    refine 100 k (pointsOf positions) seeds
      (replicate (length (pointsOf positions)) (-1)%Z)
      (replicate (length (pointsOf positions)) (-1)%Z) = Some (a, c) /\
    length c = k /\ length a = length positions /\ Forall (inRange k) a /\
    inertiaOf (pointsOf positions) a c = Some i /\ (0 <= i)%R /\
    kMeansCluster positions k g = Some (mkResult a c i, g').
Proof.
  intros Hne Hk.
  assert (pointsOf positions <> []) as Hpne.
  { destruct positions; [contradiction | discriminate]. }
  destruct (initializeCentroids_returns (pointsOf positions) k g Hpne Hk)
    as (seeds & g' & Hseeds & Hlen).
  destruct (refine_first_round k (pointsOf positions) 99 seeds
              (replicate (length (pointsOf positions)) (-1)%Z)
              (replicate (length (pointsOf positions)) (-1)%Z) Hk Hlen)
    as (a & c & Href & Hc & Ha & Hall).
  destruct (inertiaOf_returns k c (pointsOf positions) a Hc Ha Hall)
    as (i & Hin & Hi).
  exists seeds, g', a, c, i.
  split; [assumption |]. split; [assumption |]. split; [assumption |].
  split; [assumption |]. split; [rewrite Ha; apply pointsOf_length |].
  split; [assumption |]. split; [assumption |]. split; [assumption |].
  exact (SeedingFacts.kMeansCluster_from_seeds positions k g seeds g' a c i
           Hne Hk Hseeds Href Hin).
Qed.

Lemma pointsOf_box positions :
  Forall valid_position positions -> Forall inBox (pointsOf positions).
Proof.
  intros Hall. unfold pointsOf. apply Forall_map.
  eapply Forall_impl; [exact Hall |]. intros p Hp. exact Hp.
Qed.

Lemma members_box (points seeds : list Point) :
  Forall inBox points -> Forall (fun s => s ∈ points) seeds -> Forall inBox seeds.
Proof.
  intros Hpts Hall. eapply Forall_impl; [exact Hall |].
  intros s Hs. cbv beta in Hs.
  rewrite Forall_forall in Hpts. apply Hpts. assumption.
Qed.

(** X9: when every position has its latitude in [-90, 90] and its longitude
    in [-180, 180], the centroids that [kMeansCluster] returns have theirs
    in the same ranges. *)
Theorem centroids_stay_in_range (positions : list Position) (k : nat)
    (g : RandomSource) :
  positions <> [] -> (1 <= k)%nat -> Forall valid_position positions ->
  exists res g',
    kMeansCluster positions k g = Some (res, g') /\
    length (centroids res) = k /\
    Forall (fun c => (-90 <= fst c <= 90)%R /\ (-180 <= snd c <= 180)%R)
           (centroids res).
Proof.
  intros Hne Hk Hvalid.
  destruct (kMeansCluster_run positions k g Hne Hk)
    as (seeds & g' & a & c & i & Hseeds & _ & Href & Hc & _ & _ & _ & _ & Hrun).
  exists (mkResult a c i), g'. split; [assumption |]. split; [assumption |].
  cbn [centroids].
  pose proof (pointsOf_box positions Hvalid) as Hpts.
  assert (Forall inBox seeds) as Hsd.
  { apply (members_box (pointsOf positions)); [assumption |].
    exact (initializeCentroids_members _ _ _ _ _ Hseeds). }
  exact (refine_box k (pointsOf positions) 100 seeds _ _ a c Hpts Hsd Href).
Qed.

Lemma centroids_stay_in_range_witness :
  Samples.twoPoints <> [] /\ (1 <= 2)%nat /\ Forall valid_position Samples.twoPoints /\
  exists res g',
    kMeansCluster Samples.twoPoints 2 Samples.zeroSource = Some (res, g') /\
    length (centroids res) = 2%nat /\
    Forall (fun c => (-90 <= fst c <= 90)%R /\ (-180 <= snd c <= 180)%R)
           (centroids res).
Proof.
  assert (Samples.twoPoints <> []) as Hne by discriminate.
  assert (1 <= 2)%nat as Hk by lia.
  assert (Forall valid_position Samples.twoPoints) as Hvalid.
  { unfold Samples.twoPoints, valid_position, pos0, pos1.
    repeat constructor; simpl; lra. }
  split; [exact Hne |]. split; [exact Hk |]. split; [exact Hvalid |].
  exact (centroids_stay_in_range Samples.twoPoints 2 Samples.zeroSource Hne Hk Hvalid).
Defined.

(** *** Convergence *)

Lemma refine_converged k points : forall fuel cs old a states a' c',
  refineStates fuel k points cs old = Some states ->
  (length states < fuel)%nat ->
  refine fuel k points cs old a = Some (a', c') ->
  a' = assignPoints points c'.
Proof.
  induction fuel as [| fuel IH]; intros cs old a states a' c' Hst Hlen Hrun.
  - lia.
  - simpl in Hst, Hrun.
    destruct (unchanged (length points) (assignPoints points cs) old).
    + congruence.
    + destruct (updateCentroids k points (assignPoints points cs) cs)
        as [cs1 |] eqn:Hup; [| discriminate].
      simpl in Hst, Hrun.
      destruct (refineStates fuel k points cs1 (assignPoints points cs))
        as [rest |] eqn:Hrest; [| discriminate].
      simpl in Hst. injection Hst as <-. simpl in Hlen.
      apply (IH cs1 (assignPoints points cs) (assignPoints points cs) rest);
        [exact Hrest | lia | assumption].
Qed.

(** X10: when the loop of [kMeansCluster] stops before its 100th round has
    moved the centroids, the assignments it returns are those of the
    centroids it returns: every point is assigned to a centroid that no
    other centroid is nearer than. *)
Theorem converged_assignments_are_nearest (k : nat) (points seeds : list Point)
    (start : list Z) (states : list (list Z * list Point))
    (a : list Z) (c : list Point) :
  refineStates maxIterations k points seeds start = Some states ->
  (length states < maxIterations)%nat ->
  refine maxIterations k points seeds start start = Some (a, c) ->
  c <> [] ->
  forall i p, points !! i = Some p ->
    exists id best,
      a !! i = Some (Z.of_nat id) /\ c !! id = Some best /\
      forall j cj, c !! j = Some cj -> (dist p best <= dist p cj)%R.
Proof.
  intros Hst Hlen Hrun Hne i p Hp.
  pose proof (refine_converged k points _ _ _ _ _ _ _ Hst Hlen Hrun) as Ha.
  destruct (InertiaFacts.closestCentroid_nearest p c Hne) as (best & Hbest & Hmin).
  exists (closestCentroid p c), best.
  split; [| split; assumption].
  rewrite Ha. unfold assignPoints. rewrite list_lookup_fmap, Hp. reflexivity.
Qed.

Lemma two_states_first_run :
  refineStates maxIterations 2 [(0, 0); (0, 90)]%R [(0, 0); (0, 90)]%R [-1; -1]%Z =
  Some [([0; 1]%Z, [(0, 0); (0, 90)]%R)].
Proof.
  unfold maxIterations.
  rewrite InertiaFacts.refineStates_round, SeedingFacts.two_assign_first_run.
  change (unchanged _ [0; 1]%Z [-1; -1]%Z) with false. cbv iota.
  rewrite SeedingFacts.two_update_first_run. cbn [mbind option_bind].
  rewrite InertiaFacts.refineStates_round, SeedingFacts.two_assign_first_run.
  reflexivity.
Qed.

Lemma converged_assignments_are_nearest_witness :
  refineStates maxIterations 2 [(0, 0); (0, 90)]%R [(0, 0); (0, 90)]%R [-1; -1]%Z =
    Some [([0; 1]%Z, [(0, 0); (0, 90)]%R)] /\
  (length [([0; 1]%Z, [(0, 0); (0, 90)]%R)] < maxIterations)%nat /\
  refine maxIterations 2 [(0, 0); (0, 90)]%R [(0, 0); (0, 90)]%R [-1; -1]%Z [-1; -1]%Z =
    Some ([0; 1]%Z, [(0, 0); (0, 90)]%R) /\
  [(0, 0); (0, 90)]%R <> ([] : list Point) /\
  forall i p, [(0, 0); (0, 90)]%R !! i = Some p ->
    exists id best,
      [0; 1]%Z !! i = Some (Z.of_nat id) /\
      [(0, 0); (0, 90)]%R !! id = Some best /\
      forall j cj, [(0, 0); (0, 90)]%R !! j = Some cj -> (dist p best <= dist p cj)%R.
Proof.
  assert (length [([0; 1]%Z, [(0, 0); (0, 90)]%R)] < maxIterations)%nat as Hlen
    by (unfold maxIterations; simpl; lia).
  assert ([(0, 0); (0, 90)]%R <> ([] : list Point)) as Hne by discriminate.
  split; [exact two_states_first_run |]. split; [exact Hlen |].
  split; [exact SeedingFacts.two_refine_first_run |]. split; [exact Hne |].
  exact (converged_assignments_are_nearest 2 _ _ _ _ _ _
           two_states_first_run Hlen SeedingFacts.two_refine_first_run Hne).
Defined.

(** *** The update step computes the means of the clusters *)






End KMeansMore.

(** ** The candidates and the cluster sizes *)

Module SelectionMore.

Import Js Centroid CentroidFacts Scoring.

Lemma sizesOf_fold : forall (ids : list Z) (sizes : list nat),
  Forall (inRange (length sizes)) ids ->
  length (fold_left (fun acc id => alter S (Z.to_nat id) acc)
                    ids sizes) = length sizes /\
  list_sum (fold_left (fun acc id => alter S (Z.to_nat id) acc)
                      ids sizes) = (list_sum sizes + length ids)%nat.
Proof.
  induction ids as [| a ids IH]; intros sizes Hall.
  - simpl. split; [reflexivity | lia].
  - apply Forall_cons in Hall as [Ha Hall]. unfold inRange in Ha.
    cbn [fold_left].
    destruct (IH (alter S (Z.to_nat a) sizes)) as [Hl Hs].
    { rewrite length_alter. assumption. }
    rewrite length_alter in Hl. split; [assumption |].
    rewrite Hs, DensityFacts.list_sum_alter_S by lia. simpl. lia.
Qed.

Lemma list_sum_replicate_0 n : list_sum (replicate n 0%nat) = 0%nat.
Proof. induction n as [| n IH]; simpl; [reflexivity | assumption]. Qed.

Lemma sizesOf_total (n : nat) (ids : list Z) :
  Forall (inRange n) ids ->
  length (sizesOf n ids) = n /\
  list_sum (sizesOf n ids) = length ids.
Proof.
  intros Hall. unfold sizesOf.
  destruct (sizesOf_fold ids (replicate n 0%nat)) as [Hl Hs].
  { rewrite length_replicate. assumption. }
  rewrite length_replicate in Hl. rewrite list_sum_replicate_0 in Hs.
  split; [assumption | lia].
Qed.

Lemma candidateRange_lookup n idx cand :
  candidateRange n !! idx = Some cand ->
  cand = (idx + 2)%nat /\ (idx + 2 <= Nat.min 20 (n / 10))%nat.
Proof.
  unfold candidateRange. cbv zeta. generalize (Nat.min 20 (n / 10)). intros m.
  rewrite list_lookup_fmap.
  destruct (seq 0 (m - 1) !! idx) as [i |] eqn:Hi; [| discriminate].
  cbn [fmap option_fmap option_map]. intros H. injection H as <-.
  apply lookup_seq in Hi as [-> Hlt]. lia.
Qed.

End SelectionMore.

(** ** Metrics of the selected clustering *)

Module MetricsFacts.

Import Js Centroid CentroidFacts Scoring Metrics Spec.

Lemma fold_max_upper : forall (l : list nat) (a : nat),
  (a <= fold_left Nat.max l a)%nat /\
  Forall (fun x => (x <= fold_left Nat.max l a)%nat) l.
Proof.
  induction l as [| x l IH]; intros a; simpl.
  - split; [lia | constructor].
  - destruct (IH (Nat.max a x)) as [Ha Hl].
    split; [lia |]. constructor; [lia | assumption].
Qed.

Lemma fold_max_member : forall (l : list nat) (a : nat),
  fold_left Nat.max l a ∈ a :: l.
Proof.
  induction l as [| x l IH]; intros a; simpl.
  - apply list_elem_of_here.
  - specialize (IH (Nat.max a x)).
    apply elem_of_cons in IH as [IH | IH].
    + rewrite IH. destruct (Nat.max_spec a x) as [[_ ->] | [_ ->]].
      * apply list_elem_of_further, list_elem_of_here.
      * apply list_elem_of_here.
    + apply list_elem_of_further, list_elem_of_further. assumption.
Qed.

Lemma fold_min_member : forall (l : list nat) (a : nat),
  fold_left Nat.min l a ∈ a :: l.
Proof.
  induction l as [| x l IH]; intros a; simpl.
  - apply list_elem_of_here.
  - specialize (IH (Nat.min a x)).
    apply elem_of_cons in IH as [IH | IH].
    + rewrite IH. destruct (Nat.min_spec a x) as [[_ ->] | [_ ->]].
      * apply list_elem_of_here.
      * apply list_elem_of_further, list_elem_of_here.
    + apply list_elem_of_further, list_elem_of_further. assumption.
Qed.

Lemma member_le_sum (l : list nat) (x : nat) : x ∈ l -> (x <= list_sum l)%nat.
Proof.
  induction l as [| y l IH]; intros Hx.
  - apply elem_of_nil in Hx. contradiction.
  - apply elem_of_cons in Hx as [-> | Hx]; simpl; [lia |].
    specialize (IH Hx). lia.
Qed.

Lemma positive_sum_member (l : list nat) :
  (0 < list_sum l)%nat -> exists x, x ∈ l /\ (0 < x)%nat.
Proof.
  induction l as [| y l IH]; simpl; intros Hs; [lia |].
  destruct y as [| y].
  - destruct (IH Hs) as (x & Hx & Hpos). exists x.
    split; [apply list_elem_of_further; assumption | assumption].
  - exists (S y). split; [apply list_elem_of_here | lia].
Qed.

(** The largest size and the smallest size that is not zero, for sizes
    that are not all zero. *)
Lemma extreme_sizes (sizes : list nat) :
  (0 < list_sum sizes)%nat ->
  exists largest smallest,
    maxOf sizes = Count largest /\
    minOf (List.filter (fun size => (0 <? size)%nat) sizes) = Count smallest /\
    (1 <= smallest <= largest)%nat /\ (largest <= list_sum sizes)%nat.
Proof.
  intros Hs. destruct (positive_sum_member sizes Hs) as (x & Hx & Hpos).
  destruct sizes as [| a sizes]; [apply elem_of_nil in Hx; contradiction |].
  assert (x ∈ List.filter (fun size => (0 <? size)%nat) (a :: sizes)) as Hxf.
  { apply list_elem_of_In, filter_In. split; [apply list_elem_of_In; assumption |].
    apply Nat.ltb_lt. assumption. }
  destruct (List.filter (fun size => (0 <? size)%nat) (a :: sizes))
    as [| b kept] eqn:Hkept; [apply elem_of_nil in Hxf; contradiction |].
  exists (fold_left Nat.max sizes a), (fold_left Nat.min kept b).
  split; [reflexivity |]. split; [reflexivity |].
  pose proof (fold_min_member kept b) as Hmin. rewrite <- Hkept in Hmin.
  apply list_elem_of_In, filter_In in Hmin as [Hin Hgt].
  apply Nat.ltb_lt in Hgt.
  destruct (fold_max_upper sizes a) as [Ha Hl].
  assert (fold_left Nat.min kept b <= fold_left Nat.max sizes a)%nat as Hle.
  { destruct Hin as [<- | Hin]; [assumption |].
    rewrite Forall_forall in Hl. apply Hl, list_elem_of_In. assumption. }
  split; [lia |].
  apply member_le_sum, fold_max_member.
Qed.

(** For 1 to 19 positions the sweep has no candidate and keeps its start. *)
Lemma selection_without_candidates positions g :
  positions <> [] -> (length positions < 20)%nat ->
  performKMeansClustering positions g =
    Some (mkSelection 2 [] [] [] (Some []) (Some []) (Some []), g).
Proof.
  intros Hne Hn. unfold performKMeansClustering.
  destruct (Nat.eqb_spec (length positions) 0) as [Hz | _].
  { destruct positions; [contradiction | discriminate]. }
  cbv zeta.
  rewrite (proj2 (SelectionFacts.candidateRange_empty (length positions)) Hn).
  reflexivity.
Qed.

(** X13: for 1 to 19 positions the computation of the cluster statistics
    ends in a [TypeError]: the clustering it gets has k = 2 and no
    assignment, and the metrics read the centroid of an undefined id. *)
Theorem statistics_throw_below_twenty (positions : list Position) (g : RandomSource) :
  positions <> [] -> (length positions < 20)%nat ->
  (exists sel g',
     performKMeansClustering positions g = Some (sel, g') /\
     calculateClusterMetrics positions sel = None) /\
  displayClusterStatistics positions g = None.
Proof.
  intros Hne Hn.
  pose proof (selection_without_candidates positions g Hne Hn) as Hsel.
  assert (calculateClusterMetrics positions
            (mkSelection 2 [] [] [] (Some []) (Some []) (Some [])) = None) as Hm.
  { unfold calculateClusterMetrics.
    cbn [Scoring.k sel_assignments sel_centroids Scoring.clusterSizes]. cbv zeta.
    destruct (Nat.eqb_spec (length positions) 0) as [Hz | _].
    { destruct positions; [contradiction | discriminate]. }
    cbn [orb Nat.eqb].
    destruct positions as [| pos rest]; [contradiction |]. reflexivity. }
  split.
  - eexists. eexists. split; [exact Hsel | exact Hm].
  - unfold displayClusterStatistics, bind. rewrite Hsel.
    unfold defined. rewrite Hm. reflexivity.
Qed.

Lemma statistics_throw_below_twenty_witness :
  [(0, 0, 10)%R] <> ([] : list Position) /\
  (length [(0, 0, 10)%R] < 20)%nat /\
  (exists sel g',
     performKMeansClustering [(0, 0, 10)%R] Samples.zeroSource = Some (sel, g') /\
     calculateClusterMetrics [(0, 0, 10)%R] sel = None) /\
  displayClusterStatistics [(0, 0, 10)%R] Samples.zeroSource = None.
Proof.
  assert ([(0, 0, 10)%R] <> ([] : list Position)) as Hne by discriminate.
  assert (length [(0, 0, 10)%R] < 20)%nat as Hn by (simpl; lia).
  split; [exact Hne |]. split; [exact Hn |].
  exact (statistics_throw_below_twenty [(0, 0, 10)%R] Samples.zeroSource Hne Hn).
Defined.

End MetricsFacts.

(** ** The hull: what the scan keeps *)

Module HullMore.

Import Js Hull Spec.

Lemma insertSorted_Permutation cmp x : forall sorted,
  insertSorted cmp x sorted ≡ₚ x :: sorted.
Proof.
  induction sorted as [| y sorted IH]; simpl.
  - reflexivity.
  - destruct (ltb (cmp x y) 0); [reflexivity |].
    rewrite IH. apply Permutation_swap.
Qed.

Lemma sortBy_fold_Permutation cmp : forall l acc,
  fold_left (fun sorted x => insertSorted cmp x sorted) l acc ≡ₚ l ++ acc.
Proof.
  induction l as [| x l IH]; intros acc; simpl.
  - reflexivity.
  - rewrite IH, insertSorted_Permutation. symmetry. apply Permutation_middle.
Qed.

Lemma sortBy_Permutation cmp l : sortBy cmp l ≡ₚ l.
Proof. unfold sortBy. rewrite sortBy_fold_Permutation, app_nil_r. reflexivity. Qed.

(** The inner loop pops from the top: what it leaves is the lower part of
    the stack, it never empties a stack, and it stops under a point that
    turns left. *)
Lemma popWhile_suffix p : forall stack,
  exists popped, stack = popped ++ popWhile stack p.
Proof.
  induction stack as [| top rest IH].
  - exists []. reflexivity.
  - destruct rest as [| below rest'].
    + exists []. reflexivity.
    + cbn [popWhile]. destruct (isCounterClockwise below top p).
      * exists []. reflexivity.
      * destruct IH as [popped Hp]. exists (top :: popped).
        simpl. f_equal. exact Hp.
Qed.

Lemma popWhile_nonempty p : forall stack,
  stack <> [] -> popWhile stack p <> [].
Proof.
  induction stack as [| top rest IH]; intros Hne.
  - contradiction.
  - destruct rest as [| below rest'].
    + simpl. discriminate.
    + cbn [popWhile]. destruct (isCounterClockwise below top p).
      * discriminate.
      * apply IH. discriminate.
Qed.

Lemma popWhile_top p : forall stack top below rest,
  popWhile stack p = top :: below :: rest ->
  isCounterClockwise below top p = true.
Proof.
  induction stack as [| t s IH]; intros top below rest Hpop.
  - discriminate.
  - destruct s as [| b s'].
    + discriminate.
    + cbn [popWhile] in Hpop.
      destruct (isCounterClockwise b t p) eqn:Hturn.
      * injection Hpop as <- <- _. exact Hturn.
      * exact (IH _ _ _ Hpop).
Qed.

Lemma leftTurns_suffix (popped stack : list Point) :
  leftTurns (popped ++ stack) -> leftTurns stack.
Proof.
  intros Hinv i a b c Ha Hb Hc.
  apply (Hinv (length popped + i)%nat).
  - rewrite lookup_app_r by lia.
    replace (length popped + i - length popped)%nat with i by lia. exact Ha.
  - rewrite lookup_app_r by lia.
    replace (S (length popped + i) - length popped)%nat with (S i) by lia. exact Hb.
  - rewrite lookup_app_r by lia.
    replace (S (S (length popped + i)) - length popped)%nat with (S (S i)) by lia.
    exact Hc.
Qed.

Lemma leftTurns_push p stack :
  leftTurns stack -> leftTurns (p :: popWhile stack p).
Proof.
  intros Hinv.
  destruct (popWhile_suffix p stack) as [popped Hp].
  assert (leftTurns (popWhile stack p)) as Hkept.
  { apply (leftTurns_suffix popped). rewrite <- Hp. exact Hinv. }
  intros [| i] a b c Ha Hb Hc.
  - simpl in Ha, Hb, Hc. injection Ha as <-.
    destruct (popWhile stack p) as [| top [| below rest]] eqn:Hpop;
      try discriminate.
    simpl in Hb, Hc. injection Hb as <-. injection Hc as <-.
    exact (popWhile_top p stack _ _ _ Hpop).
  - exact (Hkept i a b c Ha Hb Hc).
Qed.

Lemma scan_keeps : forall sortedRest stack,
  leftTurns stack -> stack <> [] ->
  leftTurns (scan stack sortedRest) /\
  scan stack sortedRest ⊆+ rev sortedRest ++ stack /\
  (1 <= length (scan stack sortedRest))%nat /\
  (sortedRest <> [] -> (2 <= length (scan stack sortedRest))%nat).
Proof.
  unfold scan. induction sortedRest as [| p rest IH]; intros stack Hinv Hne.
  - simpl. split; [assumption |]. split; [reflexivity |].
    split; [| intros H; contradiction].
    destruct stack; [contradiction | simpl; lia].
  - cbn [fold_left].
    destruct (IH (p :: popWhile stack p)) as (H1 & H2 & H3 & _);
      [apply leftTurns_push; assumption | discriminate |].
    split; [assumption |].
    assert (1 <= length (popWhile stack p))%nat as Hlen.
    { pose proof (popWhile_nonempty p stack Hne).
      destruct (popWhile stack p); [contradiction | simpl; lia]. }
    split.
    { etransitivity; [exact H2 |]. simpl rev. rewrite <- app_assoc. simpl.
      apply submseteq_skips_l. apply submseteq_skip.
      destruct (popWhile_suffix p stack) as [popped Hp].
      rewrite Hp at 2. apply submseteq_inserts_l. reflexivity. }
    split; [assumption |]. intros _.
    destruct rest as [| q rest'].
    + simpl. lia.
    + apply (proj2 (proj2 (proj2 (IH (p :: popWhile stack p)
               (leftTurns_push p stack Hinv) ltac:(discriminate))))).
      discriminate.
Qed.

Lemma rev_lookup_back (l : list Point) (i : nat) (x : Point) :
  rev l !! i = Some x -> (i < length l)%nat /\ l !! (length l - S i)%nat = Some x.
Proof.
  rewrite rev_alt. change (rev_append l []) with (reverse l). intros H.
  assert (i < length l)%nat as Hi.
  { apply lookup_lt_Some in H. rewrite length_reverse in H. assumption. }
  split; [assumption |]. rewrite reverse_lookup in H by assumption. exact H.
Qed.

(** X15: for three points or more, the hull that [calculateConvexHull]
    returns is made of input points, none used more often than the input
    has it; it has two points at least; and every three consecutive points
    of it make a turn that [isCounterClockwise] accepts. *)
Theorem hull_keeps_input_points_turning_left (points : list Point) :
  (3 <= length points)%nat ->
  calculateConvexHull points ⊆+ points /\
  (2 <= length (calculateConvexHull points) <= length points)%nat /\
  forall i p1 p2 p3,
    calculateConvexHull points !! i = Some p1 ->
    calculateConvexHull points !! S i = Some p2 ->
    calculateConvexHull points !! S (S i) = Some p3 ->
    isCounterClockwise p1 p2 p3 = true.
Proof.
  intros Hn. unfold calculateConvexHull.
  destruct (Nat.ltb_spec (length points) 3) as [Hlt | _]; [lia |].
  destruct points as [| first rest]; [simpl in Hn; lia |].
  cbv zeta.
  set (sorted := sortBy (compareAngle (lowestOf first rest)) (first :: rest)).
  assert (sorted ≡ₚ first :: rest) as Hperm by apply sortBy_Permutation.
  assert (length sorted = length (first :: rest)) as Hlen
    by (rewrite Hperm; reflexivity).
  destruct (scan_keeps (drop 2 sorted) (rev (take 2 sorted)))
    as (Hinv & Hsub & _ & Hmin).
  { intros i a b c Ha Hb Hc. apply lookup_lt_Some in Hc.
    rewrite length_rev, length_take in Hc. lia. }
  { intros Hnil. apply (f_equal length) in Hnil.
    rewrite length_rev, length_take in Hnil.
    change (length (@nil Point)) with 0%nat in Hnil. lia. }
  assert (scan (rev (take 2 sorted)) (drop 2 sorted) ⊆+ first :: rest) as Hsub'.
  { etransitivity; [exact Hsub |]. rewrite <- rev_app_distr, take_drop.
    rewrite <- Permutation_rev. rewrite Hperm. reflexivity. }
  split.
  { rewrite <- Permutation_rev. exact Hsub'. }
  split.
  { rewrite length_rev. split.
    - apply Hmin. intros Hnil. apply (f_equal length) in Hnil.
      rewrite length_drop in Hnil.
      change (length (@nil Point)) with 0%nat in Hnil. lia.
    - apply submseteq_length. exact Hsub'. }
  intros i p1 p2 p3 H1 H2 H3.
  apply rev_lookup_back in H1 as [Hi1 H1].
  apply rev_lookup_back in H2 as [Hi2 H2].
  apply rev_lookup_back in H3 as [Hi3 H3].
  set (stack := scan (rev (take 2 sorted)) (drop 2 sorted)) in *.
  apply (Hinv (length stack - S (S (S i)))%nat).
  - exact H3.
  - replace (S (length stack - S (S (S i))))%nat
      with (length stack - S (S i))%nat by lia. exact H2.
  - replace (S (S (length stack - S (S (S i)))))%nat
      with (length stack - S i)%nat by lia. exact H1.
Qed.

Lemma hull_keeps_input_points_turning_left_witness :
  (3 <= length Samples.square)%nat /\
  calculateConvexHull Samples.square ⊆+ Samples.square /\
  (2 <= length (calculateConvexHull Samples.square) <= length Samples.square)%nat /\
  forall i p1 p2 p3,
    calculateConvexHull Samples.square !! i = Some p1 ->
    calculateConvexHull Samples.square !! S i = Some p2 ->
    calculateConvexHull Samples.square !! S (S i) = Some p3 ->
    isCounterClockwise p1 p2 p3 = true.
Proof.
  assert (3 <= length Samples.square)%nat as Hn by (simpl; lia).
  split; [exact Hn |].
  exact (hull_keeps_input_points_turning_left Samples.square Hn).
Defined.

End HullMore.

(** ** Altitude statistics: median, histogram and regional averages *)

Module AltitudeFacts.

Import Js Altitude Spec.

Lemma insertNumber_Permutation x : forall sorted,
  insertNumber x sorted ≡ₚ x :: sorted.
Proof.
  induction sorted as [| y sorted IH]; simpl.
  - reflexivity.
  - destruct (ltb (x - y) 0); [reflexivity |].
    rewrite IH. apply Permutation_swap.
Qed.

Lemma sortNumbers_fold_Permutation : forall l acc,
  fold_left (fun sorted x => insertNumber x sorted) l acc ≡ₚ l ++ acc.
Proof.
  induction l as [| x l IH]; intros acc; simpl.
  - reflexivity.
  - rewrite IH, insertNumber_Permutation. symmetry. apply Permutation_middle.
Qed.

Lemma sortNumbers_Permutation l : sortNumbers l ≡ₚ l.
Proof.
  unfold sortNumbers. rewrite sortNumbers_fold_Permutation, app_nil_r. reflexivity.
Qed.

Lemma insertNumber_sorted x : forall sorted,
  ascending sorted -> ascending (insertNumber x sorted).
Proof.
  induction sorted as [| y sorted IH]; intros Hs; simpl.
  - split; [constructor | exact I].
  - destruct Hs as [Hy Hs].
    unfold ltb. destruct (Rlt_dec (x - y) 0) as [Hlt | Hge].
    + split; [| split; assumption].
      constructor; [lra |].
      eapply List.Forall_impl; [| exact Hy]. intros z Hz. simpl in Hz. lra.
    + split; [| apply IH; assumption].
      apply Forall_forall. intros z Hz.
      rewrite insertNumber_Permutation in Hz.
      apply elem_of_cons in Hz as [-> | Hz]; [lra |].
      rewrite Forall_forall in Hy. apply Hy. assumption.
Qed.

Lemma sortNumbers_fold_sorted : forall l acc,
  ascending acc ->
  ascending (fold_left (fun sorted x => insertNumber x sorted) l acc).
Proof.
  induction l as [| x l IH]; intros acc Hs; simpl.
  - assumption.
  - apply IH, insertNumber_sorted. assumption.
Qed.

Lemma sortNumbers_sorted l : ascending (sortNumbers l).
Proof. apply sortNumbers_fold_sorted. exact I. Qed.


(** Two sorted arrangements of the same numbers are the same list. *)
Lemma sorted_unique : forall (s t : list R),
  ascending s -> ascending t -> s ≡ₚ t -> s = t.
Proof.
  induction s as [| a s IH]; intros t Hs Ht Hperm.
  - apply Permutation_nil in Hperm. congruence.
  - destruct t as [| b t].
    { symmetry in Hperm. apply Permutation_nil in Hperm. discriminate. }
    destruct Hs as [Ha Hs]. destruct Ht as [Hb Ht].
    assert (a = b) as ->.
    { apply Rle_antisym.
      - assert (b ∈ a :: s) as Hin by (rewrite Hperm; apply list_elem_of_here).
        apply elem_of_cons in Hin as [-> | Hin]; [lra |].
        rewrite Forall_forall in Ha. apply Ha. assumption.
      - assert (a ∈ b :: t) as Hin by (rewrite <- Hperm; apply list_elem_of_here).
        apply elem_of_cons in Hin as [-> | Hin]; [lra |].
        rewrite Forall_forall in Hb. apply Hb. assumption. }
    f_equal. apply IH; [assumption | assumption |].
    exact (Permutation_cons_inv Hperm).
Qed.

(** X16: the median does not depend on the order of the values. *)
Theorem median_ignores_order (values values' : list R) :
  values ≡ₚ values' -> calculateMedian values = calculateMedian values'.
Proof.
  intros Hperm. unfold calculateMedian.
  rewrite (Permutation_length Hperm).
  assert (sortNumbers values = sortNumbers values') as ->.
  { apply sorted_unique; try apply sortNumbers_sorted.
    rewrite !sortNumbers_Permutation. exact Hperm. }
  reflexivity.
Qed.

Lemma median_ignores_order_witness :
  [3; 1; 2]%R ≡ₚ [1; 2; 3]%R /\
  calculateMedian [3; 1; 2]%R = calculateMedian [1; 2; 3]%R.
Proof.
  assert ([3; 1; 2]%R ≡ₚ [1; 2; 3]%R) as Hperm.
  { change [3; 1; 2]%R with ([3] ++ [1; 2])%R.
    rewrite Permutation_app_comm. reflexivity. }
  split; [exact Hperm |].
  exact (median_ignores_order [3; 1; 2]%R [1; 2; 3]%R Hperm).
Defined.







(** *** The histogram *)

Section Histogram.

Variables (binSize min : R) (numBins : Z).






End Histogram.




Lemma counts_without_bins (binSize min : R) : forall values,
  fold_left (countValue binSize min 0) values [] = [].
Proof.
  induction values as [| v values IH]; cbn [fold_left]; [reflexivity |].
  unfold countValue at 2. cbv zeta.
  destruct (0 <=? binIndexOf binSize min 0 v)%Z; exact IH.
Qed.

(** X19: when [min] and [max] are the same number (all the values are
    equal, or there is one value only), the histogram has no bin and counts
    no value, whatever the bin size that is not zero. *)
Theorem histogram_of_equal_values_is_empty (values : list R) (binSize extreme : R) :
  binSize <> 0%R ->
  createHistogramBins values binSize extreme extreme = Some [].
Proof.
  intros Hbs. unfold createHistogramBins.
  rewrite JsFacts.eqb_false by assumption. cbv zeta. unfold ceil.
  replace ((extreme - extreme) / binSize)%R with (IZR 0) by (simpl; field; assumption).
  unfold Zceil. rewrite <- opp_IZR, ZfloorZ. simpl.
  rewrite counts_without_bins. reflexivity.
Qed.

Lemma histogram_of_equal_values_is_empty_witness :
  2%R <> 0%R /\ createHistogramBins [10; 10]%R 2 10 10 = Some [].
Proof.
  assert (2%R <> 0%R) as Hbs by lra.
  split; [exact Hbs |].
  exact (histogram_of_equal_values_is_empty [10; 10]%R 2 10 Hbs).
Defined.

(** *** Regional averages *)

Lemma halves_split (p q : Position -> bool) : forall region : list Position,
  (forall pos, q pos = negb (p pos)) ->
  (length (List.filter p region) + length (List.filter q region))%nat = length region.
Proof.
  intros region Hpq. induction region as [| pos region IH]; simpl.
  - reflexivity.
  - rewrite (Hpq pos). destruct (p pos); simpl; lia.
Qed.

Lemma leb_negb_ltb (x : R) : leb x 0 = negb (ltb 0 x).
Proof.
  unfold leb, ltb. destruct (Rle_dec x 0), (Rlt_dec 0 x); simpl; try reflexivity; lra.
Qed.

(** X20: the two hemisphere splits of [calculateRegionalAltitudes] lose no
    position and count none twice: the northern and the southern positions
    add up to all positions, and so do the eastern and the western; a
    position on the equator is southern and one on the prime meridian is
    western; and the average of a half without positions is 0. *)
Theorem regional_halves_lose_no_position (positions : list Position) :
  (length (northernOf positions) + length (southernOf positions))%nat =
    length positions /\
  (length (easternOf positions) + length (westernOf positions))%nat =
    length positions /\
  (forall pos, pos ∈ positions -> pos0 pos = 0%R -> pos ∈ southernOf positions) /\
  (forall pos, pos ∈ positions -> pos1 pos = 0%R -> pos ∈ westernOf positions) /\
  (northernOf positions = [] ->
   northernAvg (calculateRegionalAltitudes positions) = 0%R) /\
  (southernOf positions = [] ->
   southernAvg (calculateRegionalAltitudes positions) = 0%R) /\
  (easternOf positions = [] ->
   easternAvg (calculateRegionalAltitudes positions) = 0%R) /\
  (westernOf positions = [] ->
   westernAvg (calculateRegionalAltitudes positions) = 0%R).
Proof.
  unfold calculateRegionalAltitudes. cbv zeta.
  cbn [northernAvg southernAvg easternAvg westernAvg].
  split; [apply halves_split; intros pos; apply leb_negb_ltb |].
  split; [apply halves_split; intros pos; apply leb_negb_ltb |].
  split.
  { intros pos Hin Hz. unfold southernOf.
    apply list_elem_of_In, filter_In. split; [apply list_elem_of_In; exact Hin |].
    rewrite Hz. unfold leb. destruct (Rle_dec 0 0); [reflexivity | lra]. }
  split.
  { intros pos Hin Hz. unfold westernOf.
    apply list_elem_of_In, filter_In. split; [apply list_elem_of_In; exact Hin |].
    rewrite Hz. unfold leb. destruct (Rle_dec 0 0); [reflexivity | lra]. }
  repeat split; intros ->; reflexivity.
Qed.

(** *** The trend over the hours *)

Lemma usable_Some timeData td ps :
  usable timeData = Some (td, ps) <->
  timeData = Some td /\ corrupted td = false /\ Altitude.positions td = Some ps /\
  ps <> [].
Proof.
  unfold usable. split.
  - destruct timeData as [td0 |]; [| discriminate].
    destruct (corrupted td0) eqn:Hc; [discriminate |].
    destruct (Altitude.positions td0) as [ps0 |] eqn:Hp; [| discriminate].
    destruct (Nat.ltb_spec 0 (length ps0)) as [Hpos | _]; [| discriminate].
    intros H. injection H as <- <-.
    repeat split; try assumption. intros ->. simpl in Hpos. lia.
  - intros (-> & Hc & Hp & Hne). rewrite Hc, Hp.
    destruct (Nat.ltb_spec 0 (length ps)) as [_ | Hzero]; [reflexivity |].
    destruct ps; [contradiction | simpl in Hzero; lia].
Qed.

Lemma trendFrom_entries : forall rest i e,
  e ∈ trendFrom i rest ->
  (i <= hour e)%nat /\
  exists td ps,
    rest !! (hour e - i)%nat = Some (Some td) /\
    corrupted td = false /\ Altitude.positions td = Some ps /\ ps <> [] /\
    trend_count e = length ps /\ trend_timestamp e = timestamp td.
Proof.
  induction rest as [| timeData rest IH]; intros i e He; cbn [trendFrom] in He.
  - apply elem_of_nil in He. contradiction.
  - assert (e ∈ trendFrom (S i) rest ->
            (i <= hour e)%nat /\
            exists td ps,
              (timeData :: rest) !! (hour e - i)%nat = Some (Some td) /\
              corrupted td = false /\ Altitude.positions td = Some ps /\ ps <> [] /\
              trend_count e = length ps /\ trend_timestamp e = timestamp td) as Hrest.
    { intros Hin. destruct (IH (S i) e Hin) as (Hle & td & ps & Hl & Hfacts).
      split; [lia |]. exists td, ps. split; [| exact Hfacts].
      replace (hour e - i)%nat with (S (hour e - S i)) by lia. exact Hl. }
    destruct (usable timeData) as [[td ps] |] eqn:Hu; [| exact (Hrest He)].
    apply elem_of_cons in He as [-> | He]; [| exact (Hrest He)].
    apply usable_Some in Hu as (-> & Hc & Hp & Hne).
    cbn [hour trend_count trend_timestamp]. split; [lia |].
    exists td, ps. rewrite Nat.sub_diag, length_map.
    repeat split; assumption.
Qed.

Lemma trendFrom_increasing : forall rest i j k e1 e2,
  (j < k)%nat -> trendFrom i rest !! j = Some e1 -> trendFrom i rest !! k = Some e2 ->
  (hour e1 < hour e2)%nat.
Proof.
  induction rest as [| timeData rest IH]; intros i j k e1 e2 Hjk H1 H2;
    cbn [trendFrom] in H1, H2.
  - discriminate.
  - destruct (usable timeData) as [[td ps] |]; [| exact (IH _ _ _ _ _ Hjk H1 H2)].
    destruct k as [| k]; [lia |]. simpl in H2.
    destruct j as [| j]; simpl in H1.
    + injection H1 as <-. cbn [hour].
      assert (e2 ∈ trendFrom (S i) rest) as Hin by (apply list_elem_of_lookup; eauto).
      destruct (trendFrom_entries _ _ _ Hin) as [Hle _]. lia.
    + apply (IH (S i) j k); [lia | assumption | assumption].
Qed.

Lemma trendFrom_complete : forall rest i h td ps,
  rest !! h = Some (Some td) ->
  corrupted td = false -> Altitude.positions td = Some ps -> ps <> [] ->
  exists e, e ∈ trendFrom i rest /\ hour e = (i + h)%nat.
Proof.
  induction rest as [| timeData rest IH]; intros i h td ps Hl Hc Hp Hne.
  - discriminate.
  - cbn [trendFrom]. destruct h as [| h]; simpl in Hl.
    + injection Hl as ->.
      rewrite (proj2 (usable_Some (Some td) td ps)) by (repeat split; assumption).
      eexists. split; [apply list_elem_of_here |]. cbn [hour]. lia.
    + destruct (IH (S i) h td ps Hl Hc Hp Hne) as (e & He & Hh).
      exists e. split; [| lia].
      destruct (usable timeData) as [[td0 ps0] |];
        [apply list_elem_of_further |]; exact He.
Qed.

(** X21: the altitude trend has one entry for every hour of [balloonData]
    that is present, not corrupted and has positions, and no other entry:
    the hours of the entries increase strictly; the hour of an entry is the
    index of such a snapshot, and its count is the number of positions of
    that snapshot, which is not zero; and every such snapshot has its
    entry. *)
Theorem trend_lists_usable_hours (balloonData : list (option TimeData)) :
  (forall j k e1 e2, (j < k)%nat ->
     calculateAltitudeTrend balloonData !! j = Some e1 ->
     calculateAltitudeTrend balloonData !! k = Some e2 ->
     (hour e1 < hour e2)%nat) /\
  (forall e, e ∈ calculateAltitudeTrend balloonData ->
     exists td ps,
       balloonData !! hour e = Some (Some td) /\
       corrupted td = false /\ Altitude.positions td = Some ps /\
       trend_count e = length ps /\ (0 < trend_count e)%nat /\
       trend_timestamp e = timestamp td) /\
  (forall h td ps,
     balloonData !! h = Some (Some td) ->
     corrupted td = false -> Altitude.positions td = Some ps -> ps <> [] ->
     exists e, e ∈ calculateAltitudeTrend balloonData /\ hour e = h).
Proof.
  unfold calculateAltitudeTrend. split; [| split].
  - intros j k e1 e2. apply trendFrom_increasing.
  - intros e He.
    destruct (trendFrom_entries _ _ _ He) as (_ & td & ps & Hl & Hc & Hp & Hne & Hn & Ht).
    exists td, ps. rewrite Nat.sub_0_r in Hl.
    split; [assumption |]. split; [assumption |]. split; [assumption |].
    split; [assumption |]. split; [| assumption].
    rewrite Hn. destruct ps; [contradiction | simpl; lia].
  - intros h td ps Hl Hc Hp Hne.
    destruct (trendFrom_complete balloonData 0 h td ps Hl Hc Hp Hne) as (e & He & Hh).
    exists e. split; [assumption | lia].
Qed.

End AltitudeFacts.

(** ** Regions: hemispheres, bands, region counts and region names *)

Module RegionsFacts.

Import Js Regions String.StringSyntax.

Lemma band_split : forall region : list Position,
  (length (List.filter (fun pos => leb (Rabs (pos0 pos)) 23.5) region) +
   length (List.filter (fun pos => leb 66.5 (Rabs (pos0 pos))) region) +
   length (List.filter (fun pos => ltb 23.5 (Rabs (pos0 pos)) &&
                                   ltb (Rabs (pos0 pos)) 66.5) region))%nat =
  length region.
Proof.
  induction region as [| pos region IH]; simpl; [reflexivity |].
  unfold leb, ltb in *.
  destruct (Rle_dec (Rabs (pos0 pos)) 23.5), (Rle_dec 66.5 (Rabs (pos0 pos))),
    (Rlt_dec 23.5 (Rabs (pos0 pos))), (Rlt_dec (Rabs (pos0 pos)) 66.5);
    simpl; try lia; exfalso; lra.
Qed.

Lemma hemisphere_split : forall region : list Position,
  (length (List.filter (fun pos => ltb 0 (pos0 pos)) region) +
   length (List.filter (fun pos => leb (pos0 pos) 0) region))%nat = length region.
Proof.
  induction region as [| pos region IH]; simpl; [reflexivity |].
  unfold leb, ltb in *.
  destruct (Rlt_dec 0 (pos0 pos)), (Rle_dec (pos0 pos) 0);
    simpl; try lia; exfalso; lra.
Qed.

(** A share of a total, in percent. *)
Lemma percent_range (count : Z) (total : nat) :
  (0 <= count <= Z.of_nat total)%Z -> (0 < total)%nat ->
  (0 <= IZR count / INR total * 100)%R /\ (IZR count / INR total * 100 <= 100)%R.
Proof.
  intros [Hlo Hhi] Hpos.
  assert (0 < INR total)%R as Hn by (apply lt_0_INR; exact Hpos).
  apply IZR_le in Hlo, Hhi. rewrite <- INR_IZR_INZ in Hhi.
  assert (0 <= IZR count / INR total <= 1)%R as [H0 H1].
  { split.
    - apply Rmult_le_pos; [exact Hlo |]. left. apply Rinv_0_lt_compat. exact Hn.
    - apply (Rmult_le_reg_r (INR total)); [exact Hn |].
      unfold Rdiv. rewrite Rmult_assoc, Rinv_l by lra. lra. }
  split; lra.
Qed.

(** X22: [calculateRegionalDistribution] accounts for every position: the
    northern and the southern count add up to the number of positions;
    [temperate] is the number of positions whose latitude is strictly
    between 23.5 and 66.5 degrees on either side, so the three bands add up
    to the number of positions too.  For a list that is not empty every
    percentage is a number between 0 and 100; for the empty list every
    percentage is NaN. *)
Theorem regional_distribution_accounts_for_all (positions : list Position) :
  (northern (calculateRegionalDistribution positions) +
   southern (calculateRegionalDistribution positions))%nat = length positions /\
  temperate (calculateRegionalDistribution positions) =
    Z.of_nat (length (List.filter
                        (fun pos => ltb 23.5 (Rabs (pos0 pos)) &&
                                    ltb (Rabs (pos0 pos)) 66.5) positions)) /\
  (Z.of_nat (equatorial (calculateRegionalDistribution positions)) +
   Z.of_nat (polar (calculateRegionalDistribution positions)) +
   temperate (calculateRegionalDistribution positions))%Z =
    Z.of_nat (length positions) /\
  (positions <> [] ->
   exists n s e p t,
     northernPercent (calculateRegionalDistribution positions) = Fin n /\
     southernPercent (calculateRegionalDistribution positions) = Fin s /\
     equatorialPercent (calculateRegionalDistribution positions) = Fin e /\
     polarPercent (calculateRegionalDistribution positions) = Fin p /\
     temperatePercent (calculateRegionalDistribution positions) = Fin t /\
     (0 <= n <= 100)%R /\ (0 <= s <= 100)%R /\ (0 <= e <= 100)%R /\
     (0 <= p <= 100)%R /\ (0 <= t <= 100)%R) /\
  (positions = [] ->
   northernPercent (calculateRegionalDistribution positions) = NaN /\
   southernPercent (calculateRegionalDistribution positions) = NaN /\
   equatorialPercent (calculateRegionalDistribution positions) = NaN /\
   polarPercent (calculateRegionalDistribution positions) = NaN /\
   temperatePercent (calculateRegionalDistribution positions) = NaN).
Proof.
  pose proof (band_split positions) as Hband.
  pose proof (hemisphere_split positions) as Hhemi.
  unfold calculateRegionalDistribution. cbv zeta.
  cbn [northern southern equatorial polar temperate northernPercent southernPercent
       equatorialPercent polarPercent temperatePercent].
  set (nn := length (List.filter (fun pos => ltb 0 (pos0 pos)) positions)) in *.
  set (ss := length (List.filter (fun pos => leb (pos0 pos) 0) positions)) in *.
  set (ee := length (List.filter (fun pos => leb (Rabs (pos0 pos)) 23.5) positions)) in *.
  set (pp := length (List.filter (fun pos => leb 66.5 (Rabs (pos0 pos))) positions)) in *.
  set (tt := length (List.filter (fun pos => ltb 23.5 (Rabs (pos0 pos)) &&
                                             ltb (Rabs (pos0 pos)) 66.5) positions)) in *.
  split; [exact Hhemi |]. split; [lia |]. split; [lia |].
  split.
  - intros Hne.
    assert (0 < length positions)%nat as Hpos.
    { destruct positions; [contradiction | simpl; lia]. }
    unfold percentOf.
    destruct (Nat.eqb_spec (length positions) 0) as [Hz | _]; [lia |].
    do 5 eexists.
    split; [reflexivity |]. split; [reflexivity |]. split; [reflexivity |].
    split; [reflexivity |]. split; [reflexivity |].
    repeat split; apply percent_range; lia.
  - intros ->. repeat split; reflexivity.
Qed.

(** *** Region counts *)

Lemma regionMap_rows : Forall (fun row => length row = 12%nat) regionMap.
Proof. unfold regionMap. repeat constructor. Qed.

Lemma regionMap_entries :
  Forall (Forall (fun regionIndex => (regionIndex < 16)%nat)) regionMap.
Proof. unfold regionMap. repeat (constructor; [repeat (constructor; [lia |]); constructor |]); constructor. Qed.

Lemma regionMap_lookup (latIndex lngIndex : nat) :
  (latIndex < 9)%nat -> (lngIndex < 12)%nat ->
  exists regionIndex,
    regionMap !! latIndex ≫= (fun row => row !! lngIndex) = Some regionIndex /\
    (regionIndex < 16)%nat.
Proof.
  intros Hlat Hlng.
  destruct (lookup_lt_is_Some_2 regionMap latIndex) as [row Hrow];
    [simpl; lia |].
  pose proof regionMap_rows as Hrows. rewrite Forall_forall in Hrows.
  assert (length row = 12%nat) as Hlen
    by (apply Hrows, list_elem_of_lookup; eauto).
  destruct (lookup_lt_is_Some_2 row lngIndex) as [r Hr]; [lia |].
  exists r. rewrite Hrow. simpl. split; [exact Hr |].
  pose proof regionMap_entries as Hentries. rewrite Forall_forall in Hentries.
  assert (Forall (fun regionIndex => (regionIndex < 16)%nat) row) as Hall
    by (apply Hentries, list_elem_of_lookup; eauto).
  rewrite Forall_forall in Hall. apply Hall, list_elem_of_lookup. eauto.
Qed.

(** The guard lets through the positions that are not below the two lower
    bounds: the two [Math.min] keep the upper boundaries inside. *)
Lemma inRegionMap_spec (pos : Position) :
  inRegionMap (regionLatIndex (pos0 pos)) (regionLngIndex (pos1 pos)) =
  leb (-90) (pos0 pos) && leb (-180) (pos1 pos).
Proof.
  unfold inRegionMap, regionLatIndex, regionLngIndex, floor.
  change (Z.of_nat (length regionMap)) with 9%Z.
  change (Z.of_nat (length (nth 0 regionMap []))) with 12%Z.
  pose proof (Zfloor_bound ((90 + pos0 pos) / 20)) as [Ha1 Ha2].
  pose proof (Zfloor_bound ((180 + pos1 pos) / 30)) as [Hb1 Hb2].
  assert ((-90 <= pos0 pos)%R <-> (0 <= Zfloor ((90 + pos0 pos) / 20))%Z) as F1.
  { split.
    - intros H. apply Zfloor_lub. simpl. lra.
    - intros H. apply IZR_le in H. lra. }
  assert ((-180 <= pos1 pos)%R <-> (0 <= Zfloor ((180 + pos1 pos) / 30))%Z) as F2.
  { split.
    - intros H. apply Zfloor_lub. simpl. lra.
    - intros H. apply IZR_le in H. lra. }
  unfold leb.
  destruct (Rle_dec (-90) (pos0 pos)) as [H1 | H1];
    destruct (Rle_dec (-180) (pos1 pos)) as [H2 | H2];
    destruct (Z.leb_spec 0 (Z.min (Zfloor ((90 + pos0 pos) / 20)) 8));
    destruct (Z.ltb_spec (Z.min (Zfloor ((90 + pos0 pos) / 20)) 8) 9);
    destruct (Z.leb_spec 0 (Z.min (Zfloor ((180 + pos1 pos) / 30)) 11));
    destruct (Z.ltb_spec (Z.min (Zfloor ((180 + pos1 pos) / 30)) 11) 12);
    cbn [andb]; try reflexivity; exfalso; rewrite ?F1, ?F2 in *; lia.
Qed.

Lemma countRegion_counts (counts : list nat) (pos : Position) :
  length counts = 16%nat ->
  length (countRegion counts pos) = 16%nat /\
  list_sum (countRegion counts pos) =
  (list_sum counts +
   if leb (-90) (pos0 pos) && leb (-180) (pos1 pos) then 1 else 0)%nat.
Proof.
  intros Hlen. unfold countRegion. cbv zeta.
  rewrite <- inRegionMap_spec.
  destruct (inRegionMap (regionLatIndex (pos0 pos)) (regionLngIndex (pos1 pos)))
    eqn:Hguard; [| split; [assumption | lia]].
  unfold inRegionMap in Hguard.
  change (Z.of_nat (length regionMap)) with 9%Z in Hguard.
  change (Z.of_nat (length (nth 0 regionMap []))) with 12%Z in Hguard.
  rewrite !andb_true_iff in Hguard. destruct Hguard as [[[H1 H2] H3] H4].
  apply Z.leb_le in H1, H3. apply Z.ltb_lt in H2, H4.
  destruct (regionMap_lookup (Z.to_nat (regionLatIndex (pos0 pos)))
              (Z.to_nat (regionLngIndex (pos1 pos)))) as (r & Hr & Hlt);
    [lia | lia |].
  rewrite Hr. split; [rewrite length_alter; assumption |].
  rewrite DensityFacts.list_sum_alter_S by lia. lia.
Qed.

Lemma countRegion_fold : forall (positions : list Position) (counts : list nat),
  length counts = 16%nat ->
  length (fold_left countRegion positions counts) = 16%nat /\
  list_sum (fold_left countRegion positions counts) =
  (list_sum counts +
   length (List.filter (fun pos => leb (-90) (pos0 pos) && leb (-180) (pos1 pos))
                       positions))%nat.
Proof.
  induction positions as [| pos positions IH]; intros counts Hlen; cbn [fold_left].
  - simpl. split; [assumption | lia].
  - destruct (countRegion_counts counts pos Hlen) as [Hl Hs].
    destruct (IH _ Hl) as [Hl' Hs']. split; [assumption |].
    rewrite Hs', Hs. cbn [List.filter].
    destruct (leb (-90) (pos0 pos) && leb (-180) (pos1 pos)); simpl; lia.
Qed.

(** What the loop over the regions knows after the indices below [i]. *)
Lemma extremes_fold (counts : list nat) : forall len start minRegion maxRegion,
  (forall j, (j < start)%nat ->
     (nth minRegion counts 0 <= nth j counts 0 <= nth maxRegion counts 0)%nat /\
     ((j < minRegion)%nat -> (nth minRegion counts 0 < nth j counts 0)%nat) /\
     ((j < maxRegion)%nat -> (nth j counts 0 < nth maxRegion counts 0)%nat)) ->
  (minRegion < Nat.max start 1)%nat -> (maxRegion < Nat.max start 1)%nat ->
  exists minRegion' maxRegion',
    fold_left (extremeStep counts) (seq start len) (minRegion, maxRegion) =
      (minRegion', maxRegion') /\
    (minRegion' < Nat.max (start + len) 1)%nat /\
    (maxRegion' < Nat.max (start + len) 1)%nat /\
    forall j, (j < start + len)%nat ->
      (nth minRegion' counts 0 <= nth j counts 0 <= nth maxRegion' counts 0)%nat /\
      ((j < minRegion')%nat -> (nth minRegion' counts 0 < nth j counts 0)%nat) /\
      ((j < maxRegion')%nat -> (nth j counts 0 < nth maxRegion' counts 0)%nat).
Proof.
  induction len as [| len IH]; intros start minRegion maxRegion Hinv Hmin Hmax.
  - exists minRegion, maxRegion. rewrite Nat.add_0_r.
    split; [reflexivity |]. split; [assumption |]. split; assumption.
  - cbn [seq fold_left]. unfold extremeStep at 2.
    set (minRegion1 := if (nth start counts 0 <? nth minRegion counts 0)%nat
                       then start else minRegion).
    set (maxRegion1 := if (nth maxRegion counts 0 <? nth start counts 0)%nat
                       then start else maxRegion).
    destruct (IH (S start) minRegion1 maxRegion1) as (mn & mx & Hrun & H1 & H2 & H3).
    + intros j Hj. subst minRegion1 maxRegion1.
      destruct (Nat.ltb_spec (nth start counts 0) (nth minRegion counts 0)) as [Ha | Ha];
        destruct (Nat.ltb_spec (nth maxRegion counts 0) (nth start counts 0)) as [Hb | Hb];
        (destruct (Nat.eq_dec j start) as [-> | Hne];
         [| destruct (Hinv j ltac:(lia)) as ([Hc1 Hc2] & Hc3 & Hc4)]);
        (split; [| split]); try lia;
        try (intros Hlt; first [lia | specialize (Hc3 Hlt); lia
                               | specialize (Hc4 Hlt); lia]).
    + subst minRegion1.
      destruct (nth start counts 0 <? nth minRegion counts 0)%nat; lia.
    + subst maxRegion1.
      destruct (nth maxRegion counts 0 <? nth start counts 0)%nat; lia.
    + exists mn, mx. replace (start + S len)%nat with (S start + len)%nat by lia.
      split; [exact Hrun |]. split; [assumption |]. split; assumption.
Qed.

Lemma identifyCoverageGaps_unfold (positions : list Position) :
  exists minRegion maxRegion,
    let counts := fold_left countRegion positions (replicate 16 0%nat) in
    identifyCoverageGaps positions =
      mkGaps (nth minRegion regions String.EmptyString, nth minRegion counts 0%nat)
             (nth maxRegion regions String.EmptyString, nth maxRegion counts 0%nat)
             counts /\
    length counts = 16%nat /\
    (minRegion < 16)%nat /\ (maxRegion < 16)%nat /\
    forall j, (j < 16)%nat ->
      (nth minRegion counts 0 <= nth j counts 0 <= nth maxRegion counts 0)%nat /\
      ((j < minRegion)%nat -> (nth minRegion counts 0 < nth j counts 0)%nat) /\
      ((j < maxRegion)%nat -> (nth j counts 0 < nth maxRegion counts 0)%nat).
Proof.
  destruct (countRegion_fold positions (replicate 16 0%nat)) as [Hlen _];
    [apply length_replicate |].
  destruct (extremes_fold (fold_left countRegion positions (replicate 16 0%nat))
              16 0 0 0) as (mn & mx & Hrun & H1 & H2 & H3);
    [intros j Hj; lia | simpl; lia | simpl; lia |].
  exists mn, mx. cbv zeta.
  split; [| split; [assumption | split; [exact H1 | split; [exact H2 | exact H3]]]].
  unfold identifyCoverageGaps. cbv zeta.
  change (length regions) with 16%nat. rewrite Hlen, Hrun. reflexivity.
Qed.

(** X23: [identifyCoverageGaps] counts every position that is not below
    the two lower bounds (latitude -90, longitude -180) in exactly one of
    its 16 regions: the region counts add up to the number of those
    positions, which for positions in the ranges of the data model, the
    upper boundaries 90 and 180 included, is the number of positions. *)
Theorem region_counts_cover_positions (positions : list Position) :
  length (regionCounts (identifyCoverageGaps positions)) = 16%nat /\
  list_sum (regionCounts (identifyCoverageGaps positions)) =
    length (List.filter (fun pos => leb (-90) (pos0 pos) && leb (-180) (pos1 pos))
                        positions) /\
  (Forall valid_position positions ->
   list_sum (regionCounts (identifyCoverageGaps positions)) = length positions).
Proof.
  destruct (identifyCoverageGaps_unfold positions) as (mn & mx & Hrun & Hlen & _).
  cbv zeta in Hrun, Hlen. rewrite Hrun. cbn [regionCounts].
  destruct (countRegion_fold positions (replicate 16 0%nat)) as [_ Hsum];
    [apply length_replicate |].
  rewrite SelectionMore.list_sum_replicate_0, Nat.add_0_l in Hsum.
  split; [exact Hlen |]. split; [exact Hsum |].
  intros Hall. rewrite Hsum. clear -Hall.
  induction Hall as [| pos positions [[Hlat _] [Hlng _]] _ IH]; [reflexivity |].
  cbn [List.filter].
  rewrite (JsFacts.leb_true _ _ Hlat), (JsFacts.leb_true _ _ Hlng).
  cbn [andb length]. rewrite IH. reflexivity.
Qed.

(** X24: the two regions that [identifyCoverageGaps] reports are the first
    region of the table with the lowest count and the first one with the
    highest count: no region has a count below that of the largest gap or
    above that of the most concentrated region, and the regions before them
    in the table have a strictly higher, respectively lower, count. *)
Theorem extreme_regions_are_first (positions : list Position) :
  exists minRegion maxRegion,
    (minRegion < 16)%nat /\ (maxRegion < 16)%nat /\
    largestGapRegion (identifyCoverageGaps positions) =
      (nth minRegion regions String.EmptyString,
       nth minRegion (regionCounts (identifyCoverageGaps positions)) 0%nat) /\
    mostConcentratedRegion (identifyCoverageGaps positions) =
      (nth maxRegion regions String.EmptyString,
       nth maxRegion (regionCounts (identifyCoverageGaps positions)) 0%nat) /\
    forall j, (j < 16)%nat ->
      (snd (largestGapRegion (identifyCoverageGaps positions))
         <= nth j (regionCounts (identifyCoverageGaps positions)) 0
         <= snd (mostConcentratedRegion (identifyCoverageGaps positions)))%nat /\
      ((j < minRegion)%nat ->
       (snd (largestGapRegion (identifyCoverageGaps positions))
          < nth j (regionCounts (identifyCoverageGaps positions)) 0)%nat) /\
      ((j < maxRegion)%nat ->
       (nth j (regionCounts (identifyCoverageGaps positions)) 0
          < snd (mostConcentratedRegion (identifyCoverageGaps positions)))%nat).
Proof.
  destruct (identifyCoverageGaps_unfold positions)
    as (mn & mx & Hrun & _ & H1 & H2 & H3).
  cbv zeta in Hrun, H3. exists mn, mx. rewrite Hrun.
  cbn [largestGapRegion mostConcentratedRegion regionCounts snd].
  split; [exact H1 |]. split; [exact H2 |].
  split; [reflexivity |]. split; [reflexivity |]. exact H3.
Qed.

(** *** Region names *)

Local Open Scope string_scope.

Ltac decide_bounds :=
  repeat match goal with
         | |- context [leb ?x ?y] =>
             first [rewrite (JsFacts.leb_true x y) by lra
                   | rewrite (JsFacts.leb_false x y) by lra]
         | |- context [ltb ?x ?y] =>
             first [rewrite (JsFacts.ltb_true x y) by lra
                   | rewrite (JsFacts.ltb_false x y) by lra]
         end.

(** X25: [getRegionName] names the two polar caps after themselves: with a
    longitude from -180 to 180, every latitude above 70 and up to 90 degrees
    is in the Arctic, and every latitude from -90 to below -60 degrees is
    in Antarctica, whatever the longitude. *)
Theorem polar_caps_are_named (lat lng : R) :
  (-180 <= lng <= 180)%R ->
  ((70 < lat <= 90)%R -> getRegionName lat lng = "Arctic") /\
  ((-90 <= lat < -60)%R -> getRegionName lat lng = "Antarctica").
Proof.
  intros Hlng. split; intros Hlat.
  - unfold getRegionName, regionTable.
    repeat (cbn [List.find]; unfold inRegion at 1;
            cbn [latRange lngRange fst snd name]; decide_bounds; cbn [andb orb]).
    reflexivity.
  - unfold getRegionName, regionTable.
    repeat (cbn [List.find]; unfold inRegion at 1;
            cbn [latRange lngRange fst snd name]; decide_bounds; cbn [andb orb]).
    reflexivity.
Qed.

Lemma polar_caps_are_named_witness :
  (-180 <= 0 <= 180)%R /\
  ((70 < 80 <= 90)%R -> getRegionName 80 0 = "Arctic") /\
  ((-90 <= 80 < -60)%R -> getRegionName 80 0 = "Antarctica").
Proof.
  assert (-180 <= 0 <= 180)%R as Hlng by lra.
  split; [exact Hlng |].
  exact (polar_caps_are_named 80 0 Hlng).
Defined.

End RegionsFacts.

(** ** Arrays with their indices *)

Module SpreadFacts.

Import Js Spread.

Lemma indexed_bounded {A : Type} (l : list A) :
  Forall (fun ip => (fst ip < length l)%nat) (indexed l) /\
  length (indexed l) = length l.
Proof.
  unfold indexed. split.
  - apply Forall_forall. intros [i x] Hin.
    apply list_elem_of_In, in_combine_l, in_seq in Hin. simpl. lia.
  - rewrite length_zip_with, length_seq. lia.
Qed.

End SpreadFacts.

(** ** The largest gap of the coverage grid *)

Module GapsFacts.

Import Js Coverage CoverageFacts Scoring Gaps Spec.

Lemma unguarded_leave_grid : forall (positions : list Position) (grid : Grid),
  List.filter guarded positions = [] ->
  fold_left markPosition positions grid = grid.
Proof.
  induction positions as [| pos positions IH]; intros grid Hnone; simpl.
  - reflexivity.
  - simpl in Hnone. destruct (guarded pos) eqn:Hg; [discriminate |].
    unfold markPosition. cbv zeta. unfold guarded in Hg. rewrite Hg.
    apply IH. assumption.
Qed.

Lemma fresh_grid_uncovered :
  Forall (Forall (fun cell => covered cell = false)) (generateEarthGrid 15 30).
Proof.
  vm_compute generateEarthGrid.
  repeat (apply Forall_cons; split;
          [repeat (apply Forall_cons; split; [reflexivity |]); apply Forall_nil; exact I |]).
  apply Forall_nil. exact I.
Qed.

Lemma cellAt_member (grid : Grid) (i j : nat) (cell : GridCell) :
  cellAt grid i j = Some cell ->
  exists row, row ∈ grid /\ cell ∈ row.
Proof.
  unfold cellAt. destruct (grid !! i) as [row |] eqn:Hrow; [| discriminate].
  simpl. intros Hcell. exists row.
  split; apply list_elem_of_lookup; eauto.
Qed.

Lemma uncovered_grid_lookup (grid : Grid) (i j : nat) (cell : GridCell) :
  Forall (Forall (fun cell => covered cell = false)) grid ->
  cellAt grid i j = Some cell -> covered cell = false.
Proof.
  intros Hall Hcell. destruct (cellAt_member _ _ _ _ Hcell) as (row & Hrow & Hin).
  rewrite Forall_forall in Hall. specialize (Hall row Hrow).
  rewrite Forall_forall in Hall. exact (Hall cell Hin).
Qed.

Section OneGrid.

Variable grid : Grid.

Lemma nearer_uncovered latIndex lngIndex :
  Forall (Forall (fun cell => covered cell = false)) grid ->
  forall (pairs : list (nat * nat)) m,
    fold_left (nearer grid latIndex lngIndex) pairs m = m.
Proof.
  intros Hall. induction pairs as [| [i j] pairs IH]; intros m; cbn [fold_left].
  - reflexivity.
  - rewrite IH. unfold nearer. cbv zeta.
    destruct (cellAt grid i j) as [cell |] eqn:Hcell; [| reflexivity].
    rewrite (uncovered_grid_lookup grid i j cell Hall Hcell). reflexivity.
Qed.

Lemma nearer_keeps_finite latIndex lngIndex (p : nat * nat) m :
  finiteNonneg m -> finiteNonneg (nearer grid latIndex lngIndex m p).
Proof.
  destruct p as [i j]. unfold nearer. intros Hm.
  destruct (cellAt grid i j) as [cell |]; [| assumption].
  destruct (covered cell); [| assumption].
  destruct m as [d | |]; try contradiction. simpl in *.
  apply Rmin_glb; [assumption | apply GeodesyFacts.haversine_nonneg].
Qed.

Lemma nearer_fold_finite latIndex lngIndex : forall (pairs : list (nat * nat)) m,
  finiteNonneg m -> finiteNonneg (fold_left (nearer grid latIndex lngIndex) pairs m).
Proof.
  induction pairs as [| p pairs IH]; intros m Hm; cbn [fold_left].
  - assumption.
  - apply IH, nearer_keeps_finite. assumption.
Qed.

Lemma nearer_fold_hit latIndex lngIndex : forall (pairs : list (nat * nat)) m i j cell,
  nonnegMin m -> In (i, j) pairs ->
  cellAt grid i j = Some cell -> covered cell = true ->
  finiteNonneg (fold_left (nearer grid latIndex lngIndex) pairs m).
Proof.
  induction pairs as [| p pairs IH]; intros m i j cell Hm Hin Hcell Hcov.
  - contradiction.
  - cbn [fold_left]. destruct Hin as [-> | Hin].
    + apply nearer_fold_finite. unfold nearer. rewrite Hcell, Hcov.
      destruct m as [d | |]; try contradiction; simpl in *.
      * apply Rmin_glb; [assumption | apply GeodesyFacts.haversine_nonneg].
      * apply GeodesyFacts.haversine_nonneg.
    + apply (IH _ i j cell); try assumption.
      destruct p as [i' j']. unfold nearer.
      destruct (cellAt grid i' j') as [cell' |]; [| assumption].
      destruct (covered cell'); [| assumption].
      destruct m as [d | |]; try contradiction; simpl in *.
      * apply Rmin_glb; [assumption | apply GeodesyFacts.haversine_nonneg].
      * apply GeodesyFacts.haversine_nonneg.
Qed.

Lemma estimateGapSize_fold latIndex lngIndex :
  estimateGapSize grid latIndex lngIndex =
  fold_left (nearer grid latIndex lngIndex) cellPairs PInf.
Proof. reflexivity. Qed.

(** With no covered cell the loop over the cells stays at the first cell. *)
Lemma gap_fold_infinite :
  Forall (Forall (fun cell => covered cell = false)) grid ->
  forall (pairs : list (nat * nat)) state,
    maxGapDistance state = PInf ->
    fold_left (gapStep grid) pairs state = state.
Proof.
  intros Hall. induction pairs as [| [i j] pairs IH]; intros state Hst; cbn [fold_left].
  - reflexivity.
  - assert (gapStep grid state (i, j) = state) as ->; [| apply IH; assumption].
    unfold gapStep. destruct (cellAt grid i j) as [cell |]; [| reflexivity].
    destruct (covered cell); [reflexivity |]. cbv zeta.
    rewrite estimateGapSize_fold, nearer_uncovered by assumption.
    rewrite Hst. reflexivity.
Qed.

(** With a covered cell the loop keeps the largest gap size met. *)
Lemma gap_fold_finite :
  (forall i j, finiteNonneg (estimateGapSize grid i j)) ->
  forall (pairs : list (nat * nat)) state d0,
    maxGapDistance state = Fin d0 -> (0 <= d0)%R ->
    exists d,
      maxGapDistance (fold_left (gapStep grid) pairs state) = Fin d /\
      (d0 <= d)%R /\
      forall i j cell, In (i, j) pairs ->
        cellAt grid i j = Some cell -> covered cell = false ->
        exists g, estimateGapSize grid i j = Fin g /\ (0 <= g <= d)%R.
Proof.
  intros Hfin. induction pairs as [| [i j] pairs IH]; intros state d0 Hst Hd0.
  - exists d0. split; [assumption |]. split; [lra |]. intros i j cell [].
  - cbn [fold_left].
    assert (exists d1,
              maxGapDistance (gapStep grid state (i, j)) = Fin d1 /\ (d0 <= d1)%R /\
              forall cell, cellAt grid i j = Some cell -> covered cell = false ->
                exists g, estimateGapSize grid i j = Fin g /\ (0 <= g <= d1)%R)
      as (d1 & Hst1 & Hle1 & Hcell1).
    { unfold gapStep. specialize (Hfin i j).
      destruct (cellAt grid i j) as [cell |] eqn:Hcell.
      - destruct (covered cell) eqn:Hcov.
        + exists d0. split; [assumption |]. split; [lra |].
          intros cell' Heq Hc. injection Heq as <-. congruence.
        + cbv zeta. destruct (estimateGapSize grid i j) as [g | |] eqn:Hg;
            try contradiction.
          simpl in Hfin. rewrite Hst. unfold gt_x, ltb.
          destruct (Rlt_dec d0 g) as [Hlt | Hge].
          * exists g. cbn [maxGapDistance]. split; [reflexivity |]. split; [lra |].
            intros cell' _ _. exists g. split; [reflexivity | lra].
          * exists d0. split; [assumption |]. split; [lra |].
            intros cell' _ _. exists g. split; [reflexivity | lra].
      - exists d0. split; [assumption |]. split; [lra |]. intros cell' Heq. discriminate. }
    destruct (IH _ d1 Hst1 ltac:(lra)) as (d & Hst2 & Hle2 & Hcells).
    exists d. split; [assumption |]. split; [lra |].
    intros i' j' cell [Heq | Hin] Hcell Hcov.
    + injection Heq as <- <-.
      destruct (Hcell1 cell Hcell Hcov) as (g & Hg & Hb).
      exists g. split; [assumption | lra].
    + exact (Hcells i' j' cell Hin Hcell Hcov).
Qed.

End OneGrid.

Lemma positive_sum_has_member {A : Type} (f : A -> nat) : forall l : list A,
  (0 < list_sum (map f l))%nat ->
  exists i x, l !! i = Some x /\ (0 < f x)%nat.
Proof.
  induction l as [| a l IH]; simpl; intros Hs; [lia |].
  destruct (f a) as [| n] eqn:Hfa.
  - destruct (IH Hs) as (i & x & Hl & Hx). exists (S i), x. split; assumption.
  - exists 0%nat, a. split; [reflexivity | lia].
Qed.

(** A grid with an occupant has a covered cell among the cells the loops
    visit. *)
Lemma counted_grid_has_cover (grid : Grid) :
  gridShape grid -> coveredIffCounted grid -> (0 < totalCount grid)%nat ->
  exists i j cell,
    In (i, j) cellPairs /\ cellAt grid i j = Some cell /\ covered cell = true.
Proof.
  intros [Hrows Hcols] Hcov Hpos. unfold totalCount in Hpos.
  destruct (positive_sum_has_member _ _ Hpos) as (i & row & Hrow & Hrowpos).
  destruct (positive_sum_has_member _ _ Hrowpos) as (j & cell & Hcell & Hcount).
  exists i, j, cell.
  pose proof (lookup_lt_Some _ _ _ Hrow) as Hi.
  pose proof (lookup_lt_Some _ _ _ Hcell) as Hj.
  rewrite Forall_forall in Hcols.
  rewrite (Hcols row) in Hj by (apply list_elem_of_lookup; eauto).
  split; [| split].
  - unfold cellPairs. apply in_flat_map. exists i.
    split; [apply in_seq; lia |]. apply in_map, in_seq. lia.
  - unfold cellAt.
    replace (grid !! i) with (Some row) by (symmetry; exact Hrow). exact Hcell.
  - unfold coveredIffCounted in Hcov. rewrite Forall_forall in Hcov.
    specialize (Hcov row ltac:(apply list_elem_of_lookup; eauto)).
    rewrite Forall_forall in Hcov.
    rewrite (Hcov cell) by (apply list_elem_of_lookup; eauto).
    apply Nat.ltb_lt. assumption.
Qed.

(** X27: the largest gap that [calculateCoverageMetrics] reports is infinite
    exactly when no position falls into the grid: then [maxGapDistance] is
    [Infinity] and the location is the centre of the first cell,
    (-82.5, -165).  As soon as one position is in the grid, [maxGapDistance]
    is a distance that is not negative, every cell that is not covered has a
    finite gap size, and none of them exceeds [maxGapDistance]. *)
Theorem largest_gap_is_infinite_without_cover (positions : list Position) :
  (List.filter guarded positions = [] ->
   largestGap positions = mkGap PInf (-82.5) (-165)) /\
  (List.filter guarded positions <> [] ->
   exists d,
     maxGapDistance (largestGap positions) = Fin d /\ (0 <= d)%R /\
     forall latIndex lngIndex cell,
       In (latIndex, lngIndex) cellPairs ->
       cellAt (markedGrid positions) latIndex lngIndex = Some cell ->
       covered cell = false ->
       exists g,
         estimateGapSize (markedGrid positions) latIndex lngIndex = Fin g /\
         (0 <= g <= d)%R).
Proof.
  split.
  - intros Hnone. unfold largestGap, markedGrid.
    rewrite (unguarded_leave_grid positions _ Hnone).
    assert (cellPairs = (0, 0)%nat :: tl cellPairs) as Hpairs by reflexivity.
    rewrite Hpairs. cbn [fold_left].
    assert (gapStep (generateEarthGrid 15 30) (mkGap (Fin 0) 0 0) (0%nat, 0%nat) =
            mkGap PInf (-82.5) (-165)) as ->.
    { unfold gapStep.
      change (cellAt (generateEarthGrid 15 30) 0 0)
        with (Some (mkCell false 0 (-90) (-180))).
      cbn [covered]. cbv zeta.
      rewrite estimateGapSize_fold, nearer_uncovered by apply fresh_grid_uncovered.
      cbn [gt_x maxGapDistance]. unfold latCenter, lngCenter. simpl INR.
      f_equal; lra. }
    apply gap_fold_infinite; [apply fresh_grid_uncovered | reflexivity].
  - intros Hsome.
    destruct (markedGrid_invariants positions) as [Hshape Hcov].
    assert (0 < totalCount (markedGrid positions))%nat as Hpos.
    { unfold markedGrid.
      rewrite CoverageMore.fold_markPosition_count by apply fresh_grid_shape.
      rewrite totalCount_fresh_grid.
      destruct (List.filter guarded positions); [contradiction | simpl; lia]. }
    destruct (counted_grid_has_cover _ Hshape Hcov Hpos) as (i & j & cell & Hin & Hcell & Hc).
    assert (forall a b, finiteNonneg (estimateGapSize (markedGrid positions) a b)) as Hfin.
    { intros a b. rewrite estimateGapSize_fold.
      apply (nearer_fold_hit _ a b cellPairs PInf i j cell); try assumption.
      exact I. }
    destruct (gap_fold_finite (markedGrid positions) Hfin cellPairs
                (mkGap (Fin 0) 0 0) 0 eq_refl ltac:(lra)) as (d & Hd & Hle & Hcells).
    exists d. split; [exact Hd |]. split; [assumption |]. exact Hcells.
Qed.

End GapsFacts.

(** ** The density map: every position in one cell *)

Module DensityMapFacts.

Import Js Coverage Spread DensityMap.

Lemma nearest_fold_found lat lng (n : nat) :
  forall (cells : list (nat * DensityCell)) nearestCell minDistance,
  Forall (fun ic => (fst ic < n)%nat) cells ->
  match nearestCell with
  | Some i => (i < n)%nat
  | None => minDistance = PInf /\ cells <> []
  end ->
  exists i,
    fst (fold_left (nearestCellStep lat lng) cells (nearestCell, minDistance)) = Some i /\
    (i < n)%nat.
Proof.
  induction cells as [| [j cell] cells IH]; intros nearestCell minDistance Hall Hst.
  - destruct nearestCell as [i |]; [exists i; split; [reflexivity | assumption] |].
    destruct Hst as [_ Hne]. contradiction.
  - apply Forall_cons in Hall as [Hj Hall]. cbn [fst] in Hj.
    cbn [fold_left]. unfold nearestCellStep at 2. cbv zeta.
    destruct (lt_x (cellDistance cell lat lng) minDistance) eqn:Hlt.
    + apply IH; assumption.
    + apply IH; [assumption |].
      destruct nearestCell as [i |]; [assumption |].
      destruct Hst as [-> _]. discriminate.
Qed.

Lemma nearestCellOf_found (grid : list DensityCell) (lat lng : R) :
  grid <> [] ->
  exists i, nearestCellOf grid lat lng = Some i /\ (i < length grid)%nat.
Proof.
  intros Hne. unfold nearestCellOf.
  destruct (SpreadFacts.indexed_bounded grid) as [Hall Hlen].
  apply nearest_fold_found; [assumption |].
  split; [reflexivity |]. intros Hnil. apply (f_equal length) in Hnil.
  rewrite Hlen in Hnil. destruct grid; [contradiction | discriminate].
Qed.

Lemma countPosition_counts (grid : list DensityCell) (pos : Position) :
  grid <> [] ->
  countPosition grid pos <> [] /\
  list_sum (map dc_count (countPosition grid pos)) = S (list_sum (map dc_count grid)).
Proof.
  intros Hne. unfold countPosition.
  destruct (nearestCellOf_found grid (pos0 pos) (pos1 pos) Hne) as (i & -> & Hi).
  destruct (lookup_lt_is_Some_2 grid i Hi) as [cell Hcell].
  split.
  - intros Hnil. apply (f_equal length) in Hnil. rewrite length_alter in Hnil.
    destruct grid; [contradiction | discriminate].
  - apply (CoverageFacts.list_sum_map_alter dc_count bump grid i cell Hcell).
    reflexivity.
Qed.

Lemma countPosition_fold : forall (positions : list Position) (grid : list DensityCell),
  grid <> [] ->
  fold_left countPosition positions grid <> [] /\
  list_sum (map dc_count (fold_left countPosition positions grid)) =
  (list_sum (map dc_count grid) + length positions)%nat.
Proof.
  induction positions as [| pos positions IH]; intros grid Hne; cbn [fold_left].
  - simpl. split; [assumption | lia].
  - destruct (countPosition_counts grid pos Hne) as [Hne' Hsum].
    destruct (IH _ Hne') as [Hne'' Hsum'].
    split; [assumption |]. rewrite Hsum', Hsum. simpl. lia.
Qed.

Lemma densityGrid_fresh :
  densityGrid <> [] /\ list_sum (map dc_count densityGrid) = 0%nat.
Proof.
  split.
  - unfold densityGrid.
    change (loopValues 180 (-90) 90 gridSize)
      with ((-90)%Z :: loopValues 179 (-80) 90 gridSize).
    change (loopValues 360 (-180) 180 gridSize)
      with ((-180)%Z :: loopValues 359 (-170) 180 gridSize).
    discriminate.
  - assert (Forall (fun cell => dc_count cell = 0%nat) densityGrid) as Hall.
    { apply Forall_forall. intros cell Hin. apply list_elem_of_In in Hin.
      unfold densityGrid in Hin. apply in_flat_map in Hin as (lat & _ & Hin).
      apply in_map_iff in Hin as (lng & <- & _). reflexivity. }
    induction Hall as [| cell cells Hcell _ IH]; simpl; [reflexivity |].
    rewrite Hcell, IH. reflexivity.
Qed.

Lemma occupied_sum : forall grid : list DensityCell,
  list_sum (map dc_count (List.filter (fun cell => (0 <? dc_count cell)%nat) grid)) =
  list_sum (map dc_count grid).
Proof.
  induction grid as [| cell grid IH]; simpl; [reflexivity |].
  destruct (Nat.ltb_spec 0 (dc_count cell)) as [Hpos | Hzero]; simpl; lia.
Qed.

Lemma highest_fold : forall (grid : list DensityCell) (first : DensityCell),
  (dc_count first <= dc_count (highestDensityCellOf first grid))%nat /\
  Forall (fun cell => (dc_count cell <= dc_count (highestDensityCellOf first grid))%nat)
         grid /\
  highestDensityCellOf first grid ∈ first :: grid.
Proof.
  unfold highestDensityCellOf.
  induction grid as [| cell grid IH]; intros first; cbn [fold_left].
  - split; [lia |]. split; [constructor | apply list_elem_of_here].
  - destruct (Nat.ltb_spec (dc_count first) (dc_count cell)) as [Hlt | Hge].
    + destruct (IH cell) as (H1 & H2 & H3).
      split; [lia |]. split; [constructor; assumption |].
      apply list_elem_of_further. assumption.
    + destruct (IH first) as (H1 & H2 & H3).
      split; [assumption |]. split; [constructor; [lia | assumption] |].
      apply elem_of_cons in H3 as [-> | H3].
      * apply list_elem_of_here.
      * apply list_elem_of_further, list_elem_of_further. assumption.
Qed.

(** X28: for a list that is not empty, of positions in the ranges of the
    data model, [calculateDensityDistribution] returns a density map that
    holds every position once: the counts of its cells add up to the number
    of positions; no cell of the map is empty; the
    count reported for the highest density is that of a cell of the map and
    no cell has a higher one; and there is one isolation score per
    position. *)
Theorem density_map_holds_every_position (positions : list Position) :
  positions <> [] ->
  Forall valid_position positions ->
  exists highest mostIsolated densityMap isolationScores,
    calculateDensityDistribution positions =
      Some (Distribution highest mostIsolated densityMap isolationScores) /\
    list_sum (map dc_count densityMap) = length positions /\
    Forall (fun cell => (1 <= dc_count cell <= snd highest)%nat) densityMap /\
    (exists cell, cell ∈ densityMap /\ highest = (region cell, dc_count cell)) /\
    length isolationScores = length positions.
Proof.
  intros Hne _. unfold calculateDensityDistribution.
  destruct (Nat.eqb_spec (length positions) 0) as [Hz | Hnz].
  { destruct positions; [contradiction | discriminate]. }
  cbv zeta.
  destruct densityGrid_fresh as [Hfresh Hzero].
  destruct (countPosition_fold positions densityGrid Hfresh) as [Hgrid Hsum].
  rewrite Hzero in Hsum. simpl in Hsum.
  set (grid := fold_left countPosition positions densityGrid) in *.
  destruct grid as [| first rest] eqn:Hg; [contradiction |].
  cbn [head mbind option_bind]. rewrite <- Hg in *.
  do 4 eexists. split; [reflexivity |].
  destruct (highest_fold grid first) as (Hfirst & Hall & Hin).
  split; [rewrite occupied_sum; exact Hsum |].
  assert (highestDensityCellOf first grid ∈ grid) as Hin'.
  { rewrite Hg in Hin |- *. apply elem_of_cons in Hin as [-> | Hin]; [| assumption].
    apply list_elem_of_here. }
  assert (0 < dc_count (highestDensityCellOf first grid))%nat as Hpos.
  { destruct (GapsFacts.positive_sum_has_member dc_count grid) as (i & cell & Hl & Hc);
      [lia |].
    rewrite Forall_forall in Hall.
    specialize (Hall cell ltac:(apply list_elem_of_lookup; eauto)). lia. }
  split; [| split].
  - apply Forall_forall. intros cell Hcell.
    apply list_elem_of_In, filter_In in Hcell as [Hcell Hc].
    apply Nat.ltb_lt in Hc. rewrite Forall_forall in Hall.
    specialize (Hall cell ltac:(apply list_elem_of_In; assumption)).
    cbn [snd]. lia.
  - exists (highestDensityCellOf first grid). split; [| reflexivity].
    apply list_elem_of_In, filter_In. split; [apply list_elem_of_In; assumption |].
    apply Nat.ltb_lt. assumption.
  - unfold isolationScoresOf. rewrite length_map.
    apply SpreadFacts.indexed_bounded.
Qed.

(** The statement above for the positions (0, 0) and (0, 90). *)
Lemma density_map_holds_every_position_witness :
  Samples.twoPoints <> ([] : list Position) /\
  Forall valid_position Samples.twoPoints /\
  exists highest mostIsolated densityMap isolationScores,
    calculateDensityDistribution Samples.twoPoints =
      Some (Distribution highest mostIsolated densityMap isolationScores) /\
    list_sum (map dc_count densityMap) = length Samples.twoPoints /\
    Forall (fun cell => (1 <= dc_count cell <= snd highest)%nat) densityMap /\
    (exists cell, cell ∈ densityMap /\ highest = (region cell, dc_count cell)) /\
    length isolationScores = length Samples.twoPoints.
Proof.
  assert (Samples.twoPoints <> ([] : list Position)) as Hne by discriminate.
  assert (Forall valid_position Samples.twoPoints) as Hvalid.
  { unfold Samples.twoPoints.
    repeat (apply Forall_cons; split;
            [unfold valid_position, pos0, pos1; simpl; lra |]).
    apply Forall_nil. exact I. }
  split; [exact Hne |]. split; [exact Hvalid |].
  exact (density_map_holds_every_position Samples.twoPoints Hne Hvalid).
Defined.

End DensityMapFacts.

(** ** The distance of an antipodal pair in double precision *)

Module IeeeFacts.

Import Floats Ieee.
Local Open Scope float_scope.

(** [==] with NaN on the left is false. *)
Lemma nan_equals_nothing (d : float) : (nan =? d) = false.
Proof. rewrite FloatAxioms.eqb_spec. reflexivity. Qed.

(** The conversions of the function at the positions (-12, -180), (12, 0). *)
Lemma conversions_at_12 :
  (12 - -12) * PI / 180 / 2 = deg12 /\
  (0 - -180) * PI / 180 / 2 = deg90 /\
  -12 * PI / 180 = - deg12 /\
  12 * PI / 180 = deg12.
Proof. repeat split; vm_compute; reflexivity. Qed.

(** The sum [a] of the function with the nearest doubles for the sine and
    the cosine is 1.0000000000000002, the square root of [1 - a] is NaN. *)
Lemma haversine_sum_above_one :
  sin12 * sin12 + cos12 * cos12 * 1 * 1 = 0x1.0000000000001p+0 /\
  sqrt (1 - (sin12 * sin12 + cos12 * cos12 * 1 * 1)) = nan.
Proof. split; vm_compute; reflexivity. Qed.

(** C8: the positions (-12, -180) and (12, 0) are valid and antipodal.  In
    an engine whose sine and cosine return the nearest double at the two
    angles the function reaches, and whose [Math.atan2] returns NaN for a
    NaN argument, the sum [a] rounds to 1.0000000000000002, [Math.sqrt(1 - a)]
    is NaN and so is the distance: the comparison [==] of this distance
    with any number, the distance in the other direction included, is
    false. *)
Theorem antipodal_distance_is_not_a_number (m : MathLib) :
  sin m deg12 = sin12 ->
  sin m deg90 = 1 ->
  cos m (- deg12) = cos12 ->
  cos m deg12 = cos12 ->
  (forall y, atan2 m y nan = nan) ->
  haversineDistance m (-12) (-180) 12 0 = nan /\
  (haversineDistance m (-12) (-180) 12 0 =? haversineDistance m 12 0 (-12) (-180))
    = false /\
  forall d, (haversineDistance m (-12) (-180) 12 0 =? d) = false.
Proof.
  intros Hs12 Hs90 Hc12' Hc12 Hatan.
  assert (haversineDistance m (-12) (-180) 12 0 = nan) as Hnan.
  { unfold haversineDistance. cbv zeta.
    destruct conversions_at_12 as (-> & -> & -> & ->).
    rewrite Hs12, Hs90, Hc12', Hc12.
    destruct haversine_sum_above_one as [_ ->].
    rewrite Hatan. vm_compute. reflexivity. }
  rewrite Hnan.
  split; [reflexivity |].
  split; [| intros d]; apply nan_equals_nothing.
Qed.

Lemma antipodal_distance_is_not_a_number_witness :
  sin nearestAt12 deg12 = sin12 /\
  sin nearestAt12 deg90 = 1 /\
  cos nearestAt12 (- deg12) = cos12 /\
  cos nearestAt12 deg12 = cos12 /\
  (forall y, atan2 nearestAt12 y nan = nan) /\
  haversineDistance nearestAt12 (-12) (-180) 12 0 = nan /\
  (haversineDistance nearestAt12 (-12) (-180) 12 0 =?
   haversineDistance nearestAt12 12 0 (-12) (-180)) = false /\
  forall d, (haversineDistance nearestAt12 (-12) (-180) 12 0 =? d) = false.
Proof.
  assert (forall y, atan2 nearestAt12 y nan = nan) as Hatan.
  { intros y. unfold nearestAt12, atan2.
    replace (is_nan nan) with true by reflexivity.
    rewrite orb_true_r. reflexivity. }
  do 4 (split; [vm_compute; reflexivity |]).
  split; [exact Hatan |].
  apply (antipodal_distance_is_not_a_number nearestAt12);
    first [exact Hatan | vm_compute; reflexivity].
Defined.

(** With the same table the distance of a position to itself is 0, and both
    directions of the antipodal pair are NaN. *)
Example distances_at_12 :
  haversineDistance nearestAt12 12 0 12 0 = 0 /\
  haversineDistance nearestAt12 (-12) (-180) (-12) (-180) = 0 /\
  haversineDistance nearestAt12 12 0 (-12) (-180) = nan.
Proof. repeat split; vm_compute; reflexivity. Qed.

End IeeeFacts.

(** ** The silhouette score over computed distances *)

Module ComputedScoring.

Import Js Centroid Computed.

Lemma exactDistance_lawful : lawful exactDistance.
Proof.
  intros lat1 lon1 lat2 lon2. unfold exactDistance. simpl.
  apply GeodesyFacts.haversine_nonneg.
Qed.

Lemma exactDistance_numbers positions : allNumbers exactDistance positions.
Proof. intros p q _ _. unfold exactDistance. discriminate. Qed.

(** What [filter] keeps is in the array. *)
Lemma filterIndex_subset {A : Type} (keep : nat -> bool) (l : list A) :
  forall start x, x ∈ Scoring.filterIndex start keep l -> x ∈ l.
Proof.
  induction l as [| y l IH]; intros start x Hx; simpl in Hx.
  - exact Hx.
  - destruct (keep start).
    + apply elem_of_cons in Hx as [-> | Hx].
      * apply list_elem_of_here.
      * apply list_elem_of_further. exact (IH _ _ Hx).
    + apply list_elem_of_further. exact (IH _ _ Hx).
Qed.

Lemma add_value strict a b :
  valueIf strict a -> valueIf strict b -> valueIf strict (add_x a b).
Proof.
  destruct a as [x | |], b as [y | |]; simpl; try tauto. lra.
Qed.

Lemma over_value strict a n :
  (0 < n)%nat -> valueIf strict a -> valueIf strict (over a n).
Proof.
  intros Hn Ha. unfold over.
  assert (0 < INR n)%R as Hpos by (apply lt_0_INR; exact Hn).
  destruct a as [x | |]; simpl in *; try tauto.
  destruct (Req_dec_T (INR n) 0) as [Hz | _]; [lra |]. simpl.
  apply Rmult_le_pos; [exact Ha |]. left. apply Rinv_0_lt_compat. exact Hpos.
Qed.

Section Scores.

Variable haversine : R -> R -> R -> R -> xnum.
Variable positions : list Position.
Variable strict : Prop.

(** The distances between the positions are values of the kind [strict]
    selects. *)
Hypothesis pairs :
  forall p q, p ∈ positions -> q ∈ positions ->
    valueIf strict (haversine (pos0 p) (pos1 p) (pos0 q) (pos1 q)).

Lemma totalDistanceFrom_value p others :
  p ∈ positions -> (forall o, o ∈ others -> o ∈ positions) ->
  valueIf strict (totalDistanceFrom haversine p others).
Proof.
  intros Hp. unfold totalDistanceFrom.
  assert (valueIf strict (Fin 0)) as Hstart by (simpl; lra).
  revert Hstart. generalize (Fin 0).
  induction others as [| o others IH]; intros acc Hacc Hsub; simpl.
  - exact Hacc.
  - apply IH.
    + apply add_value; [exact Hacc |].
      apply pairs; [exact Hp |]. apply Hsub, list_elem_of_here.
    + intros o' Ho'. apply Hsub, list_elem_of_further, Ho'.
Qed.

Lemma sameCluster_average_returns i assignments :
  (i < length positions)%nat ->
  exists a,
    calculateAverageDistanceToSameCluster haversine i positions assignments = Some a /\
    valueIf strict a.
Proof.
  intros Hi. unfold calculateAverageDistanceToSameCluster. cbv zeta.
  destruct (Nat.eqb_spec (length (Scoring.filterIndex 0
              (fun j => negb (j =? i)%nat &&
                        Scoring.sameCluster (assignments !! j) (assignments !! i))
              positions)) 0) as [Hz | Hnz].
  - exists (Fin 0). split; [reflexivity | simpl; lra].
  - destruct (lookup_lt_is_Some_2 positions i Hi) as [p Hp].
    rewrite Hp. simpl. eexists. split; [reflexivity |].
    apply over_value; [lia |].
    apply totalDistanceFrom_value.
    + apply list_elem_of_lookup. exists i. exact Hp.
    + intros o Ho. exact (filterIndex_subset _ _ _ _ Ho).
Qed.

Lemma min_value m x :
  minimumIf strict m -> valueIf strict x -> minimumIf strict (min_xx m x).
Proof.
  destruct m as [r | |], x as [y | |]; simpl; try tauto.
  intros Hr Hy. apply Rmin_glb; assumption.
Qed.

Lemma nearestStep_returns i assignments m clusterId :
  (i < length positions)%nat -> minimumIf strict m ->
  exists m',
    nearestStep haversine i positions assignments (Some m) clusterId = Some m' /\
    minimumIf strict m'.
Proof.
  intros Hi Hm. unfold nearestStep. simpl.
  destruct (Scoring.sameCluster _ _); [eauto |]. cbv zeta.
  destruct (Nat.eqb_spec (length (Scoring.filterIndex 0
              (fun j => Scoring.sameCluster (assignments !! j)
                                            (Some (Z.of_nat clusterId)))
              positions)) 0) as [Hz | Hnz]; [eauto |].
  destruct (lookup_lt_is_Some_2 positions i Hi) as [p Hp].
  rewrite Hp. simpl. eexists. split; [reflexivity |].
  apply min_value; [exact Hm |].
  apply over_value; [lia |].
  apply totalDistanceFrom_value.
  - apply list_elem_of_lookup. exists i. exact Hp.
  - intros o Ho. exact (filterIndex_subset _ _ _ _ Ho).
Qed.

Lemma nearest_fold_returns i assignments : forall ids m,
  (i < length positions)%nat -> minimumIf strict m ->
  exists m',
    fold_left (nearestStep haversine i positions assignments) ids (Some m) = Some m' /\
    minimumIf strict m'.
Proof.
  induction ids as [| id ids IH]; intros m Hi Hm; cbn [fold_left].
  - eauto.
  - destruct (nearestStep_returns i assignments m id Hi Hm) as (m1 & H1 & Hm1).
    rewrite H1. apply IH; assumption.
Qed.

Lemma nearestCluster_average_returns i assignments cs :
  (i < length positions)%nat ->
  exists b,
    calculateAverageDistanceToNearestCluster haversine i positions assignments cs
      = Some b /\
    valueIf strict b.
Proof.
  intros Hi. unfold calculateAverageDistanceToNearestCluster.
  destruct (nearest_fold_returns i assignments (seq 0 (length cs)) PInf Hi I)
    as (m & Hm & Hv).
  rewrite Hm. simpl.
  destruct m as [d | |]; simpl in Hv.
  - exists (Fin d). split; [reflexivity | exact Hv].
  - exists (Fin 0). split; [reflexivity | simpl; lra].
  - exists NaN. split; [reflexivity | exact Hv].
Qed.

Lemma silhouetteOf_value a b :
  valueIf strict a -> valueIf strict b -> scoreIf strict (silhouetteOf a b).
Proof.
  intros Ha Hb. unfold silhouetteOf.
  destruct (isZero a && isZero b) eqn:Hzero; [simpl; lra |].
  destruct a as [x | |], b as [y | |]; simpl in *; try tauto.
  pose proof (ScoringFacts.silhouetteOf_bounds x y Ha Hb) as Hbounds.
  unfold Scoring.silhouetteOf in Hbounds. rewrite Hzero in Hbounds. exact Hbounds.
Qed.

Lemma silhouetteValue_returns assignments cs i :
  (i < length positions)%nat ->
  exists s, silhouetteValue haversine positions assignments cs i = Some s /\
            scoreIf strict s.
Proof.
  intros Hi. unfold silhouetteValue.
  destruct (sameCluster_average_returns i assignments Hi) as (a & Ha & Hva).
  destruct (nearestCluster_average_returns i assignments cs Hi) as (b & Hb & Hvb).
  rewrite Ha. simpl. rewrite Hb. simpl.
  eexists. split; [reflexivity |]. apply silhouetteOf_value; assumption.
Qed.

Lemma mapM_silhouette_returns assignments cs : forall indices,
  Forall (fun i => (i < length positions)%nat) indices ->
  exists values,
    mapM (silhouetteValue haversine positions assignments cs) indices = Some values /\
    length values = length indices /\
    Forall (scoreIf strict) values.
Proof.
  induction indices as [| i indices IH]; intros Hall.
  - exists []. repeat split. apply Forall_nil. exact I.
  - apply Forall_cons in Hall as [Hi Hall].
    destruct (silhouetteValue_returns assignments cs i Hi) as (s & Hs & Hb).
    destruct (IH Hall) as (values & Hv & Hl & Hf).
    exists (s :: values). split.
    + apply mapM_Some. constructor; [assumption |]. apply mapM_Some. assumption.
    + split; [simpl; lia |]. apply Forall_cons. split; assumption.
Qed.

Lemma sum_value (values : list xnum) : forall acc,
  Forall (scoreIf strict) values ->
  sumIf strict acc (length values) (fold_left add_x values (Fin acc)).
Proof.
  assert (forall vs, Forall (scoreIf strict) vs -> strict ->
                     fold_left add_x vs NaN = NaN) as Hnan.
  { induction vs as [| v vs IH]; intros Hall Hs; [reflexivity |].
    simpl. apply IH; [| exact Hs]. apply Forall_cons in Hall as [_ Hall]. exact Hall. }
  assert (forall vs, fold_left add_x vs NaN = NaN) as Hsticky.
  { induction vs as [| v vs IH]; [reflexivity |]. simpl. destruct v; exact IH. }
  induction values as [| v values IH]; intros acc Hall.
  - simpl. lra.
  - apply Forall_cons in Hall as [Hv Hall].
    cbn [fold_left length].
    destruct v as [s | |]; simpl in Hv.
    + specialize (IH (acc + s)%R Hall). simpl.
      unfold sumIf in *.
      destruct (fold_left add_x values (Fin (acc + s))) as [t | |];
        try exact IH.
      rewrite S_INR. lra.
    + contradiction.
    + simpl. rewrite Hsticky. simpl. exact Hv.
Qed.

Lemma score_returns assignments cs :
  exists score,
    calculateSilhouetteScore haversine positions assignments cs = Some score /\
    scoreIf strict score /\
    ((length positions <= 1)%nat \/ (length cs <= 1)%nat -> score = Fin 0).
Proof.
  unfold calculateSilhouetteScore.
  destruct (Nat.leb_spec (length positions) 1) as [Hp | Hp].
  { exists (Fin 0). simpl. split; [reflexivity |]. split; [lra | reflexivity]. }
  destruct (Nat.leb_spec (length cs) 1) as [Hc | Hc].
  { exists (Fin 0). simpl. split; [reflexivity |]. split; [lra | reflexivity]. }
  cbn [orb].
  destruct (mapM_silhouette_returns assignments cs (seq 0 (length positions)))
    as (values & Hv & Hl & Hf).
  { apply Forall_forall. intros i Hi. apply list_elem_of_In, in_seq in Hi. lia. }
  rewrite Hv. simpl. eexists. split; [reflexivity |].
  rewrite length_seq in Hl.
  split; [| intros [H | H]; lia].
  pose proof (sum_value values 0%R Hf) as Hsum.
  assert (0 < INR (length values))%R as Hn by (apply lt_0_INR; lia).
  unfold over, sumIf in *.
  destruct (fold_left add_x values (Fin 0)) as [t | |]; simpl in *; try tauto.
  destruct (Req_dec_T (INR (length values)) 0) as [Hz | _]; [lra |]. simpl.
  split.
  - apply (Rmult_le_reg_r (INR (length values))); [assumption |].
    unfold Rdiv. rewrite Rmult_assoc, Rinv_l by lra. lra.
  - apply (Rmult_le_reg_r (INR (length values))); [assumption |].
    unfold Rdiv. rewrite Rmult_assoc, Rinv_l by lra. lra.
Qed.

End Scores.

(** With one other position in the cluster and no other cluster that has
    points, the silhouette of a position is -1. *)
Lemma silhouette_of_lone_cluster (d : R) :
  (0 < d)%R -> silhouetteOf (over (add_x (Fin 0) (Fin d)) 1) (Fin 0) = Fin (-1).
Proof.
  intros Hd. unfold over. simpl.
  destruct (Req_dec_T 1 0) as [H | _]; [lra |].
  unfold silhouetteOf, isZero.
  rewrite (JsFacts.eqb_false ((0 + d) / 1) 0) by lra. cbn [andb].
  f_equal. rewrite Rmax_left by lra. field. lra.
Qed.

Lemma lone_cluster_first_point :
  silhouetteValue exactDistance Samples.twoPoints [0; 0]%Z twoCentroids 0
  = Some (Fin (-1)).
Proof.
  unfold silhouetteValue, calculateAverageDistanceToSameCluster,
    calculateAverageDistanceToNearestCluster, Samples.twoPoints, twoCentroids,
    nearestStep, Scoring.sameCluster, exactDistance.
  cbn -[haversineDistance over silhouetteOf add_x].
  Scenarios.decide_ids.
  cbn -[haversineDistance over silhouetteOf add_x].
  rewrite (EquatorFacts.haversine_equator 0 90 90) by lra. f_equal.
  apply silhouette_of_lone_cluster, EquatorFacts.arc_pos. lra.
Qed.

Lemma lone_cluster_second_point :
  silhouetteValue exactDistance Samples.twoPoints [0; 0]%Z twoCentroids 1
  = Some (Fin (-1)).
Proof.
  unfold silhouetteValue, calculateAverageDistanceToSameCluster,
    calculateAverageDistanceToNearestCluster, Samples.twoPoints, twoCentroids,
    nearestStep, Scoring.sameCluster, exactDistance.
  cbn -[haversineDistance over silhouetteOf add_x].
  Scenarios.decide_ids.
  cbn -[haversineDistance over silhouetteOf add_x].
  rewrite Scenarios.quarter_great_circle_back. f_equal.
  apply silhouette_of_lone_cluster, EquatorFacts.arc_pos. lra.
Qed.

(** The positions (0, 0) and (0, 90), both in the first of two clusters:
    one cluster holds every position, and the score is -1, not 0. *)
Lemma one_occupied_cluster_scores_minus_one :
  calculateSilhouetteScore exactDistance Samples.twoPoints [0; 0]%Z twoCentroids
  = Some (Fin (-1)) /\
  Fin (-1) <> Fin 0.
Proof.
  split; [| intros H; injection H; lra].
  unfold calculateSilhouetteScore.
  change (length Samples.twoPoints) with 2%nat.
  change (length twoCentroids) with 2%nat. cbn [Nat.leb orb length seq mapM].
  rewrite lone_cluster_first_point, lone_cluster_second_point.
  cbn -[over]. unfold over. simpl.
  destruct (Req_dec_T (1 + 1) 0) as [H | _]; [lra |].
  do 2 f_equal. lra.
Qed.

(** C6: for a distance function that returns numbers that are not negative,
    or NaN, the silhouette score is computed for every input; it is exactly
    0 when there is at most one position or at most one centroid; it is NaN
    or lies between -1 and 1; and it lies between -1 and 1 when every
    distance between two of the positions is a number. *)
Theorem silhouette_score_zero_or_bounded
    (haversine : R -> R -> R -> R -> xnum) (positions : list Position)
    (assignments : list Z) (cs : list Point) :
  lawful haversine ->
  exists score,
    calculateSilhouetteScore haversine positions assignments cs = Some score /\
    ((length positions <= 1)%nat \/ (length cs <= 1)%nat -> score = Fin 0) /\
    scoreValue score /\
    (allNumbers haversine positions ->
     exists s, score = Fin s /\ (-1 <= s <= 1)%R).
Proof.
  intros Hlaw.
  assert (forall p q, p ∈ positions -> q ∈ positions ->
            valueIf False (haversine (pos0 p) (pos1 p) (pos0 q) (pos1 q)))
    as Hloose.
  { intros p q _ _. specialize (Hlaw (pos0 p) (pos1 p) (pos0 q) (pos1 q)).
    destruct (haversine _ _ _ _); simpl in *; tauto. }
  destruct (score_returns haversine positions False Hloose assignments cs)
    as (score & Hrun & Hvalue & Hzero).
  exists score. split; [exact Hrun |]. split; [exact Hzero |].
  split; [exact Hvalue |].
  intros Hnumbers.
  assert (forall p q, p ∈ positions -> q ∈ positions ->
            valueIf True (haversine (pos0 p) (pos1 p) (pos0 q) (pos1 q)))
    as Hstrict.
  { intros p q Hp Hq. specialize (Hlaw (pos0 p) (pos1 p) (pos0 q) (pos1 q)).
    specialize (Hnumbers p q Hp Hq).
    destruct (haversine _ _ _ _); simpl in *; tauto. }
  destruct (score_returns haversine positions True Hstrict assignments cs)
    as (score' & Hrun' & Hvalue' & _).
  rewrite Hrun in Hrun'. injection Hrun' as <-.
  destruct score as [s | |]; simpl in Hvalue'; try tauto.
  exists s. split; [reflexivity | exact Hvalue'].
Qed.

(** The statement above for the positions (0, 0) and (0, 90), one in each
    of two clusters, with the distances of exact arithmetic. *)
Lemma silhouette_score_zero_or_bounded_witness :
  lawful exactDistance /\
  exists score,
    calculateSilhouetteScore exactDistance Samples.twoPoints [0; 1]%Z
                             twoCentroids = Some score /\
    ((length Samples.twoPoints <= 1)%nat \/
     (length twoCentroids <= 1)%nat -> score = Fin 0) /\
    scoreValue score /\
    (allNumbers exactDistance Samples.twoPoints ->
     exists s, score = Fin s /\ (-1 <= s <= 1)%R).
Proof.
  split; [exact exactDistance_lawful |].
  exact (silhouette_score_zero_or_bounded exactDistance Samples.twoPoints
           [0; 1]%Z twoCentroids exactDistance_lawful).
Defined.

End ComputedScoring.

(** ** Centroid clustering over computed distances *)

Module ComputedKMeans.

Import Js Centroid CentroidFacts Computed.

Section Runs.

Variable haversine : R -> R -> R -> R -> xnum.

Lemma chooseNext_lt_x points cs randomValue :
  points <> [] -> (chooseNext haversine points cs randomValue < length points)%nat.
Proof.
  intros Hne. unfold chooseNext. cbv zeta.
  assert (0 < length points)%nat as Hpos.
  { destruct points; [contradiction | simpl; lia]. }
  match goal with
  | |- (pickFrom 0 ?c ?probs ?r < _)%nat =>
      destruct (pickFrom_range r probs 0%nat c) as [H | H];
      [rewrite H; assumption |]
  end.
  unfold seedDistances in H. rewrite !length_map in H.
  unfold seedDistances. lia.
Qed.

Lemma seedLoop_returns_x points : forall rounds cs g,
  points <> [] ->
  exists seeds g',
    seedLoop haversine rounds points cs g = Some (seeds, g') /\
    length seeds = (length cs + rounds)%nat.
Proof.
  induction rounds as [| rounds IH]; intros cs g Hne; simpl.
  - exists cs, g. split; [reflexivity | lia].
  - unfold bind, random at 1.
    destruct (lookup_lt_is_Some_2 points
                (chooseNext haversine points cs (u_val (g 0%nat)))) as [p Hp].
    { apply chooseNext_lt_x. assumption. }
    rewrite Hp. simpl.
    destruct (IH (cs ++ [p]) (fun n => g (S n)) Hne) as (seeds & g' & Hs & Hl).
    exists seeds, g'. split; [assumption |].
    rewrite Hl, length_app. simpl. lia.
Qed.

Lemma initializeCentroids_returns_x points k g :
  points <> [] -> (1 <= k)%nat ->
  exists seeds g',
    initializeCentroids haversine points k g = Some (seeds, g') /\ length seeds = k.
Proof.
  intros Hne Hk. unfold initializeCentroids.
  assert (0 < length points)%nat as Hpos.
  { destruct points; [contradiction | simpl; lia]. }
  destruct (Nat.eqb_spec (length points) 0) as [Hz | _]; [lia |].
  destruct (Nat.eqb_spec k 0) as [Hz | _]; [lia |]. simpl.
  unfold bind, random at 1.
  destruct (lookup_lt_is_Some_2 points
              (Z.to_nat (floor (u_val (g 0%nat) * INR (length points))))) as [p Hp].
  { apply firstCentroid_lt. assumption. }
  rewrite Hp. simpl.
  destruct (seedLoop_returns_x points (k - 1) [p] (fun n => g (S n)) Hne)
    as (seeds & g' & Hs & Hl).
  exists seeds, g'. split; [assumption |]. rewrite Hl. simpl. lia.
Qed.

Lemma closest_fold_range_x point : forall cs j minDistance closest,
  snd (fold_left (closestStep haversine point) cs (j, minDistance, closest)) = closest \/
  (j <= snd (fold_left (closestStep haversine point) cs (j, minDistance, closest))
     < j + length cs)%nat.
Proof.
  induction cs as [| c rest IH]; intros j minDistance closest; simpl.
  - left. reflexivity.
  - destruct (lt_xx (dist haversine point c) minDistance).
    + destruct (IH (S j) (dist haversine point c) j) as [H | H]; right; lia.
    + destruct (IH (S j) minDistance closest) as [H | H]; [left | right];
        [assumption | lia].
Qed.

Lemma closestCentroid_lt_x point cs :
  cs <> [] -> (closestCentroid haversine point cs < length cs)%nat.
Proof.
  intros Hne. unfold closestCentroid.
  assert (0 < length cs)%nat as Hpos.
  { destruct cs; [contradiction | simpl; lia]. }
  destruct (closest_fold_range_x point cs 0%nat PInf 0%nat) as [H | H];
    simpl in H; lia.
Qed.

Lemma assignPoints_length_x points cs :
  length (assignPoints haversine points cs) = length points.
Proof. unfold assignPoints. apply length_map. Qed.

Lemma assignPoints_inRange_x points cs :
  cs <> [] -> Forall (inRange (length cs)) (assignPoints haversine points cs).
Proof.
  intros Hne. unfold assignPoints. apply Forall_map, Forall_forall.
  intros p _. simpl. pose proof (closestCentroid_lt_x p cs Hne).
  unfold inRange. lia.
Qed.

(** The loop runs its first round whatever the arrays hold before. *)
Lemma refine_returns_x k points : forall fuel cs oldAssignments ids,
  (1 <= k)%nat -> length cs = k ->
  (fuel = 0%nat -> length ids = length points /\ Forall (inRange k) ids) ->
  exists ids' cs',
    refine haversine fuel k points cs oldAssignments ids = Some (ids', cs') /\
    length cs' = k /\
    length ids' = length points /\ Forall (inRange k) ids'.
Proof.
  induction fuel as [| fuel IH]; intros cs old ids Hk Hc Hids; simpl.
  - destruct (Hids eq_refl) as [Hl Hall]. eauto 10.
  - assert (cs <> []) as Hne by (destruct cs; [simpl in Hc; lia | discriminate]).
    pose proof (assignPoints_inRange_x points cs Hne) as Hin.
    rewrite Hc in Hin.
    pose proof (assignPoints_length_x points cs) as Hlen.
    destruct (unchanged _ _ _).
    + eauto 10.
    + destruct (updateCentroids_returns k points (assignPoints haversine points cs)
                  cs Hlen Hin Hc) as (cs' & Hup & Hc').
      rewrite Hup. simpl. apply IH; [assumption | assumption |].
      intros _. split; assumption.
Qed.

Lemma inertiaOf_returns_x k cs : forall points ids acc,
  length cs = k ->
  length ids = length points -> Forall (inRange k) ids ->
  exists total, inertiaOf haversine points ids cs acc = Some total.
Proof.
  induction points as [| p points IH]; intros ids acc Hc Hl Hall.
  - destruct ids; simpl; eauto.
  - destruct ids as [| a ids]; [discriminate |].
    apply Forall_cons in Hall as [Ha Hall]. unfold inRange in Ha. simpl.
    destruct (Z.leb_spec 0 a) as [_ | Hneg]; [| lia].
    destruct (lookup_lt_is_Some_2 cs (Z.to_nat a)) as [c Hlk]; [lia |].
    rewrite Hlk. simpl. apply IH; [assumption | simpl in Hl; lia | assumption].
Qed.

(** For a list of positions that is not empty and [k >= 1] the run returns
    one cluster id in [0, k) per position and [k] centroids. *)
Lemma kMeansCluster_returns positions k g :
  positions <> [] -> (1 <= k)%nat ->
  exists res g',
    kMeansCluster haversine positions k g = Some (res, g') /\
    length (assignments res) = length positions /\
    Forall (inRange k) (assignments res) /\
    length (centroids res) = k.
Proof.
  intros Hne Hk. unfold kMeansCluster.
  assert (0 < length positions)%nat as Hpos.
  { destruct positions; [contradiction | simpl; lia]. }
  destruct (Nat.eqb_spec (length positions) 0) as [Hz | _]; [lia |].
  destruct (Nat.eqb_spec k 0) as [Hz | _]; [lia |]. cbn [orb]. cbv zeta.
  assert (pointsOf positions <> []) as Hpts.
  { intros Hnil. apply (f_equal length) in Hnil.
    rewrite pointsOf_length in Hnil. simpl in Hnil. lia. }
  destruct (initializeCentroids_returns_x (pointsOf positions) k g Hpts Hk)
    as (seeds & g' & Hseeds & Hlen).
  unfold bind at 1. rewrite Hseeds.
  destruct (refine_returns_x k (pointsOf positions) maxIterations seeds
              (replicate (length (pointsOf positions)) (-1)%Z)
              (replicate (length (pointsOf positions)) (-1)%Z) Hk Hlen)
    as (ids & cs & Href & Hcs & Hids & Hall).
  { unfold maxIterations. discriminate. }
  unfold bind at 1, defined at 1. rewrite Href.
  destruct (inertiaOf_returns_x k cs (pointsOf positions) ids (Fin 0) Hcs Hids Hall)
    as (total & Htotal).
  unfold bind at 1, defined at 1. rewrite Htotal.
  eexists. exists g'. split; [reflexivity |].
  cbn [assignments centroids].
  rewrite pointsOf_length in Hids. repeat split; assumption.
Qed.

End Runs.

End ComputedKMeans.

(** ** The choice of k over computed distances *)

Module ComputedSelection.

Import Js Centroid Computed.

(** A NaN among the distances of the positions is the one way for a value
    computed from them to be NaN. *)
Lemma lawful_pairs haversine positions :
  lawful haversine ->
  forall p q, p ∈ positions -> q ∈ positions ->
    valueIf (allNumbers haversine positions)
            (haversine (pos0 p) (pos1 p) (pos0 q) (pos1 q)).
Proof.
  intros Hlaw p q Hp Hq.
  specialize (Hlaw (pos0 p) (pos1 p) (pos0 q) (pos1 q)).
  destruct (haversine (pos0 p) (pos1 p) (pos0 q) (pos1 q)) eqn:Hd; simpl in *.
  - exact Hlaw.
  - exact Hlaw.
  - intros Hall. exact (Hall p q Hp Hq Hd).
Qed.

Lemma scoreIf_loose strict score : scoreIf strict score -> scoreValue score.
Proof. destruct score; simpl; tauto. Qed.

Section Sweep.

Variable haversine : R -> R -> R -> R -> xnum.
Variable positions : list Position.
Hypothesis law : lawful haversine.
Hypothesis inhabited : positions <> [].

(** One candidate: the run returns and the invariant of the loop holds with
    the candidate added. *)
Lemma tryK_best done sw cand g :
  (1 <= cand)%nat ->
  bestSoFar (allNumbers haversine positions) (length positions) done sw ->
  exists sw' g',
    tryK haversine positions sw cand g = Some (sw', g') /\
    bestSoFar (allNumbers haversine positions) (length positions) (done ++ [cand]) sw'.
Proof.
  intros Hk Hinv. destruct Hinv as (Hls & Hli & Hrange & Hbest).
  destruct (ComputedKMeans.kMeansCluster_returns haversine positions cand g inhabited Hk)
    as (res & g' & Hrun & Ha & Hall & Hc).
  destruct (ComputedScoring.score_returns haversine positions (allNumbers haversine positions)
              (lawful_pairs haversine positions law)
              (assignments res) (centroids res))
    as (score & Hscore & Hsb & _).
  unfold tryK. unfold bind at 1. rewrite Hrun.
  unfold bind at 1, defined at 1. rewrite Hscore. cbv zeta.
  assert (Forall (scoreIf (allNumbers haversine positions)) (scores sw ++ [score])) as Hrange'.
  { apply Forall_app. split; [assumption |].
    apply Forall_cons. split; [exact Hsb | constructor]. }
  assert (wellFormed (length positions)
            (mkSweep cand (Some score) (assignments res) (centroids res)
                     (Scoring.sizesOf cand (assignments res))
                     (scores sw ++ [score]) (inertias sw ++ [inertia res])))
    as Hwf'.
  { unfold wellFormed.
    cbn [finalAssignments finalCentroids finalClusterSizes optimalK].
    repeat split; assumption. }
  destruct score as [s | |]; simpl in Hsb; [| contradiction |].
  - (* the score is a number *)
    destruct (bestScore sw) as [best |] eqn:Hb.
    + destruct Hbest as (Hwf & idx & b & -> & Hdone & Hsc & Hmax & Hfirst).
      assert (idx < length (scores sw))%nat as Hidx.
      { apply lookup_lt_is_Some. eauto. }
      unfold better, lt_xx, lt_x.
      destruct (Rlt_dec b s) as [Hlt | Hge].
      * eexists. eexists. split; [reflexivity |].
        unfold bestSoFar. cbn [scores inertias bestScore optimalK].
        rewrite !length_app. simpl.
        split; [lia |]. split; [lia |]. split; [exact Hrange' |].
        split; [exact Hwf' |].
        exists (length done), s. split; [reflexivity |]. split.
        { rewrite lookup_app_r by lia. rewrite Nat.sub_diag. reflexivity. }
        split.
        { rewrite lookup_app_r by lia. rewrite Hls, Nat.sub_diag. reflexivity. }
        split.
        -- intros j t Hj. apply lookup_app_Some in Hj as [Hj | [_ Hj]].
           ++ pose proof (Hmax j t Hj). lra.
           ++ destruct (j - length (scores sw))%nat; [| discriminate].
              injection Hj as <-. lra.
        -- intros j t Hlt' Hj. rewrite lookup_app_l in Hj by lia.
           pose proof (Hmax j t Hj). lra.
      * eexists. eexists. split; [reflexivity |].
        unfold bestSoFar. cbn [scores inertias bestScore optimalK].
        rewrite !length_app. simpl.
        split; [lia |]. split; [lia |]. split; [exact Hrange' |].
        split; [exact Hwf |].
        exists idx, b. split; [reflexivity |]. split.
        { rewrite lookup_app_l by lia. assumption. }
        split.
        { rewrite lookup_app_l by lia. assumption. }
        split.
        -- intros j t Hj. apply lookup_app_Some in Hj as [Hj | [_ Hj]].
           ++ exact (Hmax j t Hj).
           ++ destruct (j - length (scores sw))%nat; [| discriminate].
              injection Hj as <-. lra.
        -- intros j t Hlt' Hj. rewrite lookup_app_l in Hj by lia.
           exact (Hfirst j t Hlt' Hj).
    + destruct Hbest as [Hnan _].
      unfold better.
      eexists. eexists. split; [reflexivity |].
      unfold bestSoFar. cbn [scores inertias bestScore optimalK].
      rewrite !length_app. simpl.
      split; [lia |]. split; [lia |]. split; [exact Hrange' |].
      split; [exact Hwf' |].
      exists (length done), s. split; [reflexivity |]. split.
      { rewrite lookup_app_r by lia. rewrite Nat.sub_diag. reflexivity. }
      split.
      { rewrite lookup_app_r by lia. rewrite Hls, Nat.sub_diag. reflexivity. }
      rewrite Forall_lookup in Hnan.
      split.
      * intros j t Hj. apply lookup_app_Some in Hj as [Hj | [_ Hj]].
        -- specialize (Hnan j _ Hj). discriminate.
        -- destruct (j - length (scores sw))%nat; [| discriminate].
           injection Hj as <-. lra.
      * intros j t Hlt' Hj. rewrite lookup_app_l in Hj by lia.
        specialize (Hnan j _ Hj). discriminate.
  - (* the score is NaN: the comparison is false *)
    unfold better.
    eexists. eexists. split; [reflexivity |].
    unfold bestSoFar. cbn [scores inertias bestScore optimalK].
    rewrite !length_app. simpl.
    split; [lia |]. split; [lia |]. split; [exact Hrange' |].
    destruct (bestScore sw) as [best |] eqn:Hb.
    + destruct Hbest as (Hwf & idx & b & -> & Hdone & Hsc & Hmax & Hfirst).
      assert (idx < length (scores sw))%nat as Hidx.
      { apply lookup_lt_is_Some. eauto. }
      split; [exact Hwf |].
      exists idx, b. split; [reflexivity |]. split.
      { rewrite lookup_app_l by lia. assumption. }
      split.
      { rewrite lookup_app_l by lia. assumption. }
      split.
      * intros j t Hj. apply lookup_app_Some in Hj as [Hj | [_ Hj]].
        -- exact (Hmax j t Hj).
        -- destruct (j - length (scores sw))%nat; discriminate.
      * intros j t Hlt' Hj. rewrite lookup_app_l in Hj by lia.
        exact (Hfirst j t Hlt' Hj).
    + destruct Hbest as [Hnan Hu]. split; [| exact Hu].
      apply Forall_app. split; [exact Hnan |].
      apply Forall_cons. split; [reflexivity | constructor].
Qed.

Lemma sweep_best : forall candidates done sw g,
  Forall (fun cand => (1 <= cand)%nat) candidates ->
  bestSoFar (allNumbers haversine positions) (length positions) done sw ->
  exists sw' g',
    sweep haversine positions candidates sw g = Some (sw', g') /\
    bestSoFar (allNumbers haversine positions) (length positions) (done ++ candidates) sw'.
Proof.
  induction candidates as [| cand candidates IH]; intros done sw g Hall Hinv.
  - exists sw, g. split; [reflexivity |]. rewrite app_nil_r. assumption.
  - apply Forall_cons in Hall as [Hk Hall].
    destruct (tryK_best done sw cand g Hk Hinv) as (sw1 & g1 & Hrun1 & Hinv1).
    destruct (IH (done ++ [cand]) sw1 g1 Hall Hinv1) as (sw2 & g2 & Hrun2 & Hinv2).
    exists sw2, g2. split.
    { cbn [sweep]. unfold bind. rewrite Hrun1. exact Hrun2. }
    rewrite <- app_assoc in Hinv2. exact Hinv2.
Qed.

(** The run of [performKMeansClustering]. *)
Lemma performKMeansClustering_run g :
  exists sw g',
    performKMeansClustering haversine positions g =
      Some (mkSelection (optimalK sw) (finalAssignments sw) (finalCentroids sw)
              (finalClusterSizes sw) (Some (scores sw)) (Some (inertias sw))
              (Some (Scoring.candidateRange (length positions))), g') /\
    bestSoFar (allNumbers haversine positions) (length positions)
              (Scoring.candidateRange (length positions)) sw.
Proof.
  unfold performKMeansClustering.
  destruct (Nat.eqb_spec (length positions) 0) as [Hz | _].
  { destruct positions; [contradiction | discriminate]. }
  cbv zeta.
  destruct (sweep_best (Scoring.candidateRange (length positions)) []
              (mkSweep 2 None [] [] [] [] []) g) as (sw & g' & Hrun & Hinv).
  { unfold Scoring.candidateRange. apply Forall_map, Forall_forall.
    intros i _. simpl. lia. }
  { unfold bestSoFar, untouched. simpl. repeat split; constructor. }
  exists sw, g'. unfold bind. rewrite Hrun. unfold ret.
  split; [reflexivity | exact Hinv].
Qed.

End Sweep.

Lemma thirty_length : length Inputs.thirty = 30%nat.
Proof. reflexivity. Qed.

(** What the invariant gives once a candidate is selected. *)
Lemma selected_is_consistent strict n sw best :
  bestSoFar strict n (Scoring.candidateRange n) sw ->
  bestScore sw = Some best ->
  consistent n
    (mkSelection (optimalK sw) (finalAssignments sw) (finalCentroids sw)
       (finalClusterSizes sw) (Some (scores sw)) (Some (inertias sw))
       (Some (Scoring.candidateRange n))).
Proof.
  intros (_ & _ & _ & Hbest) Hb. rewrite Hb in Hbest.
  destruct Hbest as ((Ha & Hall & Hc & Hsizes) & idx & b & _ & Hdone & _).
  apply SelectionMore.candidateRange_lookup in Hdone as [Hk Hle].
  destruct (SelectionMore.sizesOf_total (optimalK sw) (finalAssignments sw) Hall)
    as [Hsl Hss].
  unfold consistent. cbn [k sel_assignments sel_centroids clusterSizes].
  split; [lia |]. split; [assumption |]. split; [exact Hall |].
  split; [assumption |]. rewrite Hsizes.
  split; [assumption | lia].
Qed.

(** X11: for 20 positions or more [performKMeansClustering] returns, with
    one silhouette score and one inertia per candidate k.  When at least one
    score is a number, and so whenever every distance between two of the
    positions is a number, the clustering returned is consistent: k is one
    of the candidates 2 .. min(20, floor(N / 10)), there is one cluster id
    in [0, k) per position, k centroids and k cluster sizes, and the sizes
    sum to the number of positions.  When every score is NaN no candidate
    passes the comparison and the result is k = 2 with empty arrays. *)
Theorem selection_is_consistent_or_empty
    (haversine : R -> R -> R -> R -> xnum) (positions : list Position)
    (g : RandomSource) :
  lawful haversine -> (20 <= length positions)%nat ->
  exists sel g' scoreList inertiaList,
    performKMeansClustering haversine positions g = Some (sel, g') /\
    kRange sel = Some (Scoring.candidateRange (length positions)) /\
    silhouetteScores sel = Some scoreList /\
    inertiaValues sel = Some inertiaList /\
    length scoreList = length (Scoring.candidateRange (length positions)) /\
    length inertiaList = length (Scoring.candidateRange (length positions)) /\
    ((exists s, Fin s ∈ scoreList) -> consistent (length positions) sel) /\
    (allNumbers haversine positions -> consistent (length positions) sel) /\
    (Forall (fun score => score = NaN) scoreList -> nothingSelected sel).
Proof.
  intros Hlaw Hn.
  assert (positions <> []) as Hne
    by (destruct positions; [simpl in Hn; lia | discriminate]).
  destruct (performKMeansClustering_run haversine positions Hlaw Hne g)
    as (sw & g' & Hrun & Hinv).
  eexists. exists g', (scores sw), (inertias sw).
  split; [exact Hrun |].
  cbn [kRange silhouetteScores inertiaValues].
  split; [reflexivity |]. split; [reflexivity |]. split; [reflexivity |].
  pose proof Hinv as (Hls & Hli & Hrange & Hbest).
  split; [exact Hls |]. split; [exact Hli |].
  destruct (bestScore sw) as [best |] eqn:Hb.
  - pose proof (selected_is_consistent _ _ _ _ Hinv Hb) as Hcons.
    split; [intros _; exact Hcons |]. split; [intros _; exact Hcons |].
    intros Hnan. exfalso.
    destruct Hbest as (_ & idx & b & _ & _ & Hsc & _).
    rewrite Forall_lookup in Hnan. specialize (Hnan idx _ Hsc). discriminate.
  - destruct Hbest as [Hnan Hu].
    split.
    { intros [s Hs]. exfalso. rewrite Forall_forall in Hnan.
      specialize (Hnan _ Hs). discriminate. }
    split.
    { intros Hnumbers. exfalso.
      destruct (scores sw) as [| score rest] eqn:Hscores.
      - simpl in Hls. symmetry in Hls. apply nil_length_inv in Hls.
        apply SelectionFacts.candidateRange_empty in Hls. lia.
      - apply Forall_cons in Hnan as [-> _].
        apply Forall_cons in Hrange as [Hscore _]. simpl in Hscore.
        exact (Hscore Hnumbers). }
    intros _. exact Hu.
Qed.

(** The statement above for thirty positions of the equator, with the
    distances of exact arithmetic and a generator that always gives 0. *)
Lemma selection_is_consistent_or_empty_witness :
  lawful exactDistance /\
  (20 <= length Inputs.thirty)%nat /\
  exists sel g' scoreList inertiaList,
    performKMeansClustering exactDistance Inputs.thirty Samples.zeroSource
      = Some (sel, g') /\
    kRange sel = Some (Scoring.candidateRange (length Inputs.thirty)) /\
    silhouetteScores sel = Some scoreList /\
    inertiaValues sel = Some inertiaList /\
    length scoreList = length (Scoring.candidateRange (length Inputs.thirty)) /\
    length inertiaList = length (Scoring.candidateRange (length Inputs.thirty)) /\
    ((exists s, Fin s ∈ scoreList) -> consistent (length Inputs.thirty) sel) /\
    (allNumbers exactDistance Inputs.thirty ->
     consistent (length Inputs.thirty) sel) /\
    (Forall (fun score => score = NaN) scoreList -> nothingSelected sel).
Proof.
  assert (20 <= length Inputs.thirty)%nat as Hn by (rewrite thirty_length; lia).
  split; [exact ComputedScoring.exactDistance_lawful |]. split; [exact Hn |].
  exact (selection_is_consistent_or_empty exactDistance Inputs.thirty
           Samples.zeroSource ComputedScoring.exactDistance_lawful Hn).
Defined.

(** X12: every silhouette score [performKMeansClustering] reports for 20
    positions or more is NaN or lies between -1 and 1; when at least one of
    them is a number, the k returned is the smallest candidate with the
    highest score among the scores that are numbers: the score at index
    k - 2 is a number, no reported number is above it, and every number
    reported for a smaller candidate is strictly below it. *)
Theorem selected_k_has_best_score
    (haversine : R -> R -> R -> R -> xnum) (positions : list Position)
    (g : RandomSource) :
  lawful haversine -> (20 <= length positions)%nat ->
  exists sel g' scoreList,
    performKMeansClustering haversine positions g = Some (sel, g') /\
    silhouetteScores sel = Some scoreList /\
    Forall scoreValue scoreList /\
    ((exists s, Fin s ∈ scoreList) ->
     exists best,
       (2 <= k sel)%nat /\
       scoreList !! (k sel - 2)%nat = Some (Fin best) /\
       (forall j s, scoreList !! j = Some (Fin s) -> (s <= best)%R) /\
       (forall j s, (j < k sel - 2)%nat ->
                    scoreList !! j = Some (Fin s) -> (s < best)%R)).
Proof.
  intros Hlaw Hn.
  assert (positions <> []) as Hne
    by (destruct positions; [simpl in Hn; lia | discriminate]).
  destruct (performKMeansClustering_run haversine positions Hlaw Hne g)
    as (sw & g' & Hrun & (Hls & Hli & Hrange & Hbest)).
  eexists. exists g', (scores sw).
  split; [exact Hrun |]. cbn [silhouetteScores k].
  split; [reflexivity |].
  split.
  { eapply Forall_impl; [exact Hrange |]. intros score. apply scoreIf_loose. }
  intros [s Hs].
  destruct (bestScore sw) as [best |].
  - destruct Hbest as (_ & idx & b & _ & Hdone & Hsc & Hmax & Hfirst).
    apply SelectionMore.candidateRange_lookup in Hdone as [Hk _].
    exists b. rewrite Hk.
    replace (idx + 2 - 2)%nat with idx by lia.
    split; [lia |]. split; [exact Hsc |]. split; [exact Hmax | exact Hfirst].
  - exfalso. destruct Hbest as [Hnan _]. rewrite Forall_forall in Hnan.
    specialize (Hnan _ Hs). discriminate.
Qed.

(** The statement above for thirty positions of the equator, where the
    candidates are 2 and 3. *)
Lemma selected_k_has_best_score_witness :
  lawful exactDistance /\
  (20 <= length Inputs.thirty)%nat /\
  exists sel g' scoreList,
    performKMeansClustering exactDistance Inputs.thirty Samples.zeroSource
      = Some (sel, g') /\
    silhouetteScores sel = Some scoreList /\
    Forall scoreValue scoreList /\
    ((exists s, Fin s ∈ scoreList) ->
     exists best,
       (2 <= k sel)%nat /\
       scoreList !! (k sel - 2)%nat = Some (Fin best) /\
       (forall j s, scoreList !! j = Some (Fin s) -> (s <= best)%R) /\
       (forall j s, (j < k sel - 2)%nat ->
                    scoreList !! j = Some (Fin s) -> (s < best)%R)).
Proof.
  assert (20 <= length Inputs.thirty)%nat as Hn by (rewrite thirty_length; lia).
  split; [exact ComputedScoring.exactDistance_lawful |]. split; [exact Hn |].
  exact (selected_k_has_best_score exactDistance Inputs.thirty
           Samples.zeroSource ComputedScoring.exactDistance_lawful Hn).
Defined.

End ComputedSelection.

(** ** Statistics of the selected clustering over computed distances *)

Module ComputedMetrics.

Import Js Centroid Computed.

Lemma lawful_value haversine :
  lawful haversine ->
  forall lat1 lon1 lat2 lon2, valueIf False (haversine lat1 lon1 lat2 lon2).
Proof.
  intros Hlaw lat1 lon1 lat2 lon2. specialize (Hlaw lat1 lon1 lat2 lon2).
  destruct (haversine lat1 lon1 lat2 lon2); simpl in *; tauto.
Qed.

Lemma value_loose x : valueIf False x -> distanceValue x.
Proof. destruct x; simpl; tauto. Qed.

Lemma sq_value x : valueIf False x -> valueIf False (sq_x x).
Proof. destruct x as [r | |]; simpl; try tauto. intros Hr. nra. Qed.

Lemma weighted_value n x : valueIf False x -> valueIf False (weighted n x).
Proof.
  destruct x as [r | |]; simpl; try tauto. intros Hr.
  pose proof (pos_INR n). rewrite Rmult_assoc. nra.
Qed.

Lemma distance_sum_value (values : list xnum) : forall acc,
  Forall (valueIf False) values -> valueIf False acc ->
  valueIf False (fold_left add_x values acc).
Proof.
  induction values as [| v values IH]; intros acc Hall Hacc; simpl.
  - assumption.
  - apply Forall_cons in Hall as [Hv Hall].
    apply IH; [assumption |]. apply ComputedScoring.add_value; assumption.
Qed.

Section Statistics.

Variable haversine : R -> R -> R -> R -> xnum.
Hypothesis law : lawful haversine.

Lemma distanceToCentroids_returns k ids cs :
  Forall (inRange k) ids -> length cs = k ->
  forall rest i total,
    (i + length rest <= length ids)%nat -> valueIf False total ->
    exists t,
      distanceToCentroids haversine rest i ids cs total = Some t /\
      valueIf False t.
Proof.
  intros Hall Hc. induction rest as [| pos rest IH]; intros i total Hi Ht.
  - exists total. split; [reflexivity | assumption].
  - simpl in Hi. cbn [distanceToCentroids].
    destruct (lookup_lt_is_Some_2 ids i) as [id Hid]; [lia |].
    rewrite Hid. cbn [mbind option_bind].
    rewrite Forall_forall in Hall.
    assert (inRange k id) as Hr.
    { apply Hall. apply list_elem_of_lookup. eauto. }
    unfold inRange in Hr.
    destruct (Z.leb_spec 0 id) as [_ | Hneg]; [| lia].
    destruct (lookup_lt_is_Some_2 cs (Z.to_nat id)) as [c Hcl]; [lia |].
    unfold Point in *. rewrite Hcl. cbn [mbind option_bind].
    apply IH; [lia |].
    apply ComputedScoring.add_value; [assumption |].
    apply lawful_value, law.
Qed.

Lemma pairDistances_value (cs : list Point) :
  Forall (valueIf False) (pairDistances haversine cs).
Proof.
  induction cs as [| c cs IH]; simpl; [constructor |].
  apply Forall_app. split; [| assumption].
  apply Forall_map, Forall_forall. intros q _. simpl.
  unfold dist. apply lawful_value, law.
Qed.

Lemma totalVariance_value positions globalCentroid :
  valueIf False (totalVarianceOf haversine positions globalCentroid).
Proof.
  unfold totalVarianceOf.
  assert (valueIf False (Fin 0)) as Hstart by (simpl; lra).
  revert Hstart. generalize (Fin 0).
  induction positions as [| pos positions IH]; intros acc Hacc; simpl.
  - assumption.
  - apply IH. apply ComputedScoring.add_value; [assumption |].
    apply sq_value, lawful_value, law.
Qed.

Lemma betweenVariance_value sizes globalCentroid : forall rest i acc,
  valueIf False acc ->
  valueIf False (betweenVariance haversine rest i sizes globalCentroid acc).
Proof.
  induction rest as [| c rest IH]; intros i acc Hacc; simpl.
  - assumption.
  - destruct (sizes !! i) as [size |]; [| apply IH; assumption].
    destruct (0 <? size)%nat; [| apply IH; assumption].
    apply IH. apply ComputedScoring.add_value; [assumption |].
    apply weighted_value. unfold dist. apply lawful_value, law.
Qed.

Lemma ratio_value between total :
  valueIf False between -> valueIf False total ->
  valueIf False (if isPositive total then div_x between total else Fin 0).
Proof.
  intros Hb Ht.
  destruct total as [t | |]; simpl in *; [| contradiction | lra].
  unfold ltb. destruct (Rlt_dec 0 t) as [Hpos | _]; [| simpl; lra].
  destruct between as [b | |]; simpl in *; [| contradiction | tauto].
  destruct (Req_dec_T t 0) as [Hz | _]; [lra |]. simpl.
  apply Rmult_le_pos; [assumption |]. left. apply Rinv_0_lt_compat. assumption.
Qed.

(** The metrics of a clustering the sweep selected. *)
Lemma metrics_of_selected strict positions sw best :
  positions <> [] ->
  bestSoFar strict (length positions)
            (Scoring.candidateRange (length positions)) sw ->
  bestScore sw = Some best ->
  exists m b largest smallest,
    calculateClusterMetrics haversine positions
      (mkSelection (optimalK sw) (finalAssignments sw) (finalCentroids sw)
         (finalClusterSizes sw) (Some (scores sw)) (Some (inertias sw))
         (Some (Scoring.candidateRange (length positions)))) = Some m /\
    silhouetteScore m = Some (Fin b) /\
    (forall s, Fin s ∈ scores sw -> (s <= b)%R) /\
    Fin b ∈ scores sw /\
    distanceValue (avgDistanceToCentroid m) /\
    distanceValue (avgInterClusterDistance m) /\
    distanceValue (varianceExplained m) /\
    largestCluster m = Metrics.Count largest /\
    smallestCluster m = Metrics.Count smallest /\
    (1 <= smallest <= largest)%nat /\ (largest <= length positions)%nat.
Proof.
  intros Hne (Hls & Hli & Hrange & Hbest) Hb. rewrite Hb in Hbest.
  destruct Hbest as ((Ha & Hall & Hc & Hsizes) & idx & b & _ & Hdone & Hsc & Hmax & _).
  assert (0 < length positions)%nat as Hpos.
  { destruct positions; [contradiction | simpl; lia]. }
  apply SelectionMore.candidateRange_lookup in Hdone as [Hk Hle].
  destruct (SelectionMore.sizesOf_total (optimalK sw) (finalAssignments sw) Hall)
    as [Hsl Hss].
  destruct (distanceToCentroids_returns (optimalK sw) (finalAssignments sw)
              (finalCentroids sw) Hall Hc positions 0%nat (Fin 0))
    as (t & Ht & Htv); [lia | simpl; lra |].
  destruct (MetricsFacts.extreme_sizes (finalClusterSizes sw))
    as (largest & smallest & HL & HS & Hb1 & Hb2).
  { rewrite Hsizes, Hss. lia. }
  assert (0 < length (scores sw))%nat as Hscores.
  { apply lookup_lt_Some in Hsc. lia. }
  unfold calculateClusterMetrics.
  cbn [k sel_assignments sel_centroids clusterSizes silhouetteScores]. cbv zeta.
  destruct (Nat.eqb_spec (length positions) 0) as [Hz | _]; [lia |].
  destruct (Nat.eqb_spec (optimalK sw) 0) as [Hz | _]; [lia |].
  cbn [orb]. rewrite Ht. cbn [mbind option_bind].
  destruct (Nat.ltb_spec 0 (length (scores sw))) as [_ | Hempty]; [| lia].
  cbn [mbind option_bind].
  eexists. exists b, largest, smallest. split; [reflexivity |].
  cbn [silhouetteScore avgDistanceToCentroid avgInterClusterDistance
       varianceExplained largestCluster smallestCluster].
  split.
  { unfold scoreAt. destruct (Nat.leb_spec 2 (optimalK sw)) as [_ | Hlt]; [| lia].
    rewrite Hk. replace (idx + 2 - 2)%nat with idx by lia. exact Hsc. }
  split.
  { intros s Hs. apply list_elem_of_lookup in Hs as [j Hj]. exact (Hmax j s Hj). }
  split; [apply list_elem_of_lookup; eauto |].
  split.
  { apply value_loose, ComputedScoring.over_value; assumption. }
  split.
  { apply value_loose.
    destruct (Nat.ltb_spec 0 (length (pairDistances haversine (finalCentroids sw))))
      as [Hpairs | _]; [| simpl; lra].
    apply ComputedScoring.over_value; [assumption |].
    apply distance_sum_value; [apply pairDistances_value | simpl; lra]. }
  split.
  { apply value_loose, ratio_value.
    - apply betweenVariance_value. simpl. lra.
    - apply totalVariance_value. }
  split; [assumption |]. split; [assumption |]. split; [assumption |].
  rewrite Hsizes, Hss, Ha in Hb2. assumption.
Qed.

End Statistics.

(** X14: for 20 positions or more the computation of the cluster statistics
    ends in a [TypeError] when every candidate's silhouette score is NaN:
    the clustering it gets has k = 2 and no assignment.  When at least one
    score is a number it returns: the silhouette score reported is the
    highest of the scores that are numbers and lies in [-1, 1]; the two
    average distances and the variance ratio are NaN or not negative; and
    the largest and the smallest cluster size are counts with
    1 <= smallest <= largest <= N. *)
Theorem statistics_return_unless_scores_are_nan
    (haversine : R -> R -> R -> R -> xnum) (positions : list Position)
    (g : RandomSource) :
  lawful haversine -> (20 <= length positions)%nat ->
  exists sel g' scoreList,
    performKMeansClustering haversine positions g = Some (sel, g') /\
    silhouetteScores sel = Some scoreList /\
    (Forall (fun score => score = NaN) scoreList ->
     displayClusterStatistics haversine positions g = None) /\
    ((exists s, Fin s ∈ scoreList) ->
     exists m best largest smallest,
       displayClusterStatistics haversine positions g = Some ((sel, m), g') /\
       silhouetteScore m = Some (Fin best) /\ (-1 <= best <= 1)%R /\
       (forall s, Fin s ∈ scoreList -> (s <= best)%R) /\
       distanceValue (avgDistanceToCentroid m) /\
       distanceValue (avgInterClusterDistance m) /\
       distanceValue (varianceExplained m) /\
       largestCluster m = Metrics.Count largest /\
       smallestCluster m = Metrics.Count smallest /\
       (1 <= smallest <= largest)%nat /\ (largest <= length positions)%nat).
Proof.
  intros Hlaw Hn.
  assert (positions <> []) as Hne
    by (destruct positions; [simpl in Hn; lia | discriminate]).
  destruct (ComputedSelection.performKMeansClustering_run haversine positions
              Hlaw Hne g) as (sw & g' & Hrun & Hinv).
  eexists. exists g', (scores sw).
  split; [exact Hrun |]. cbn [silhouetteScores]. split; [reflexivity |].
  pose proof Hinv as (Hls & Hli & Hrange & Hbest).
  destruct (bestScore sw) as [best |] eqn:Hb.
  - destruct (metrics_of_selected haversine Hlaw _ positions sw best Hne Hinv Hb)
      as (m & b & largest & smallest & Hm & Hscore & Hmax & Hin & Hrest).
    split.
    { intros Hnan. exfalso. rewrite Forall_forall in Hnan.
      specialize (Hnan _ Hin). discriminate. }
    intros _. exists m, b, largest, smallest.
    split.
    { unfold displayClusterStatistics, bind. rewrite Hrun. unfold defined.
      rewrite Hm. reflexivity. }
    split; [exact Hscore |].
    split.
    { rewrite Forall_forall in Hrange. exact (Hrange _ Hin). }
    split; [exact Hmax | exact Hrest].
  - destruct Hbest as [Hnan (Hk & Ha & Hc & Hs)].
    split.
    + intros _. unfold displayClusterStatistics, bind. rewrite Hrun.
      unfold defined, calculateClusterMetrics.
      cbn [k sel_assignments sel_centroids clusterSizes silhouetteScores].
      rewrite Hk, Ha, Hc, Hs.
      destruct positions as [| pos rest]; [contradiction |]. reflexivity.
    + intros [s Hs']. exfalso. rewrite Forall_forall in Hnan.
      specialize (Hnan _ Hs'). discriminate.
Qed.

(** The statement above for thirty positions of the equator, with the
    distances of exact arithmetic and a generator that always gives 0. *)
Lemma statistics_return_unless_scores_are_nan_witness :
  lawful exactDistance /\
  (20 <= length Inputs.thirty)%nat /\
  exists sel g' scoreList,
    performKMeansClustering exactDistance Inputs.thirty Samples.zeroSource
      = Some (sel, g') /\
    silhouetteScores sel = Some scoreList /\
    (Forall (fun score => score = NaN) scoreList ->
     displayClusterStatistics exactDistance Inputs.thirty Samples.zeroSource = None) /\
    ((exists s, Fin s ∈ scoreList) ->
     exists m best largest smallest,
       displayClusterStatistics exactDistance Inputs.thirty Samples.zeroSource
         = Some ((sel, m), g') /\
       silhouetteScore m = Some (Fin best) /\ (-1 <= best <= 1)%R /\
       (forall s, Fin s ∈ scoreList -> (s <= best)%R) /\
       distanceValue (avgDistanceToCentroid m) /\
       distanceValue (avgInterClusterDistance m) /\
       distanceValue (varianceExplained m) /\
       largestCluster m = Metrics.Count largest /\
       smallestCluster m = Metrics.Count smallest /\
       (1 <= smallest <= largest)%nat /\
       (largest <= length Inputs.thirty)%nat).
Proof.
  assert (20 <= length Inputs.thirty)%nat as Hn
    by (rewrite ComputedSelection.thirty_length; lia).
  split; [exact ComputedScoring.exactDistance_lawful |]. split; [exact Hn |].
  exact (statistics_return_unless_scores_are_nan exactDistance Inputs.thirty
           Samples.zeroSource ComputedScoring.exactDistance_lawful Hn).
Defined.

End ComputedMetrics.

(** ** Pairwise distances over computed distances *)

Module ComputedSpread.

Import Js Computed.

(** The positions of a list with their indices are positions of the list. *)
Lemma indexed_members {A : Type} (l : list A) (ip : nat * A) :
  ip ∈ Spread.indexed l -> snd ip ∈ l.
Proof.
  unfold Spread.indexed. destruct ip as [i x]. intros Hin.
  apply list_elem_of_In, in_combine_r in Hin. apply list_elem_of_In. exact Hin.
Qed.

Lemma rootOfVariance_value strict meanSquare mean :
  valueIf strict meanSquare -> valueIf strict mean ->
  valueIf strict (rootOfVariance meanSquare mean).
Proof.
  destruct meanSquare as [s | |], mean as [m | |]; simpl; try tauto.
  intros _ _. apply sqrt_pos.
Qed.

Section Sums.

Variable haversine : R -> R -> R -> R -> xnum.
Variable positions : list Position.
Variable strict : Prop.

Hypothesis pairs :
  forall p q, p ∈ positions -> q ∈ positions ->
    valueIf strict (haversine (pos0 p) (pos1 p) (pos0 q) (pos1 q)).

(** The three running sums are values, the running minimum is one or is
    still infinite. *)
Lemma innerStep_keeps i pi state jp :
  pi ∈ positions -> snd jp ∈ positions ->
  valueIf strict (fst (fst (fst state))) ->
  valueIf strict (snd (fst (fst state))) ->
  minimumIf strict (snd state) ->
  valueIf strict (fst (fst (fst (innerStep haversine i pi state jp)))) /\
  valueIf strict (snd (fst (fst (innerStep haversine i pi state jp)))) /\
  minimumIf strict (snd (innerStep haversine i pi state jp)).
Proof.
  destruct state as [[[total sq] count] nearest], jp as [j pj]. cbn [fst snd].
  intros Hpi Hpj Ht Hs Hn. unfold innerStep.
  destruct (i =? j)%nat; cbn [fst snd]; [repeat split; assumption |].
  pose proof (pairs pi pj Hpi Hpj) as Hd.
  split; [apply ComputedScoring.add_value; assumption |].
  split.
  - apply ComputedScoring.add_value; [assumption |].
    destruct (haversine _ _ _ _) as [r | |]; simpl in *; try tauto. nra.
  - apply ComputedScoring.min_value; assumption.
Qed.

Lemma inner_fold_keeps i pi : forall others state,
  pi ∈ positions -> (forall jp, jp ∈ others -> snd jp ∈ positions) ->
  valueIf strict (fst (fst (fst state))) ->
  valueIf strict (snd (fst (fst state))) ->
  minimumIf strict (snd state) ->
  valueIf strict
    (fst (fst (fst (fold_left (innerStep haversine i pi) others state)))) /\
  valueIf strict
    (snd (fst (fst (fold_left (innerStep haversine i pi) others state)))) /\
  minimumIf strict (snd (fold_left (innerStep haversine i pi) others state)).
Proof.
  induction others as [| jp others IH]; intros state Hpi Hsub Ht Hs Hn;
    cbn [fold_left].
  - repeat split; assumption.
  - destruct (innerStep_keeps i pi state jp Hpi
                (Hsub jp (list_elem_of_here _ _)) Ht Hs Hn) as (Ht' & Hs' & Hn').
    apply IH; try assumption.
    intros jp' Hin. apply Hsub, list_elem_of_further, Hin.
Qed.

Lemma outerStep_keeps state ip :
  snd ip ∈ positions ->
  valueIf strict (fst (fst (fst state))) ->
  valueIf strict (snd (fst (fst state))) ->
  valueIf strict (snd state) ->
  valueIf strict (fst (fst (fst (outerStep haversine positions state ip)))) /\
  valueIf strict (snd (fst (fst (outerStep haversine positions state ip)))) /\
  valueIf strict (snd (outerStep haversine positions state ip)).
Proof.
  destruct state as [[[total sq] count] nnSum], ip as [i pi]. cbn [fst snd].
  intros Hpi Ht Hs Hn. unfold outerStep.
  destruct (inner_fold_keeps i pi (Spread.indexed positions)
              (total, sq, count, PInf) Hpi
              (fun jp Hin => indexed_members positions jp Hin) Ht Hs I)
    as (Ht' & Hs' & Hn').
  destruct (fold_left (innerStep haversine i pi) (Spread.indexed positions)
              (total, sq, count, PInf)) as [[[t1 s1] c1] nearest].
  cbn [fst snd] in *.
  split; [assumption |]. split; [assumption |].
  destruct nearest as [d | |]; [| assumption |].
  - apply ComputedScoring.add_value; assumption.
  - apply ComputedScoring.add_value; assumption.
Qed.

Lemma outer_fold_keeps : forall rest state,
  (forall ip, ip ∈ rest -> snd ip ∈ positions) ->
  valueIf strict (fst (fst (fst state))) ->
  valueIf strict (snd (fst (fst state))) ->
  valueIf strict (snd state) ->
  valueIf strict
    (fst (fst (fst (fold_left (outerStep haversine positions) rest state)))) /\
  valueIf strict
    (snd (fst (fst (fold_left (outerStep haversine positions) rest state)))) /\
  valueIf strict (snd (fold_left (outerStep haversine positions) rest state)).
Proof.
  induction rest as [| ip rest IH]; intros state Hsub Ht Hs Hn; cbn [fold_left].
  - repeat split; assumption.
  - destruct (outerStep_keeps state ip (Hsub ip (list_elem_of_here _ _)) Ht Hs Hn)
      as (Ht' & Hs' & Hn').
    apply IH; try assumption.
    intros ip' Hin. apply Hsub, list_elem_of_further, Hin.
Qed.

Lemma metrics_values :
  valueIf strict (meanDistance (calculateDensityMetrics haversine positions)) /\
  valueIf strict (stdDevDistance (calculateDensityMetrics haversine positions)) /\
  valueIf strict (nearestNeighborAvg (calculateDensityMetrics haversine positions)).
Proof.
  unfold calculateDensityMetrics.
  assert (valueIf strict (Fin 0)) as Hzero by (simpl; lra).
  destruct (outer_fold_keeps (Spread.indexed positions) (Fin 0, Fin 0, 0%nat, Fin 0)
              (fun ip Hin => indexed_members positions ip Hin) Hzero Hzero Hzero)
    as (Ht & Hs & Hn).
  destruct (fold_left (outerStep haversine positions) (Spread.indexed positions)
              (Fin 0, Fin 0, 0%nat, Fin 0)) as [[[total sq] count] nnSum].
  cbn [fst snd] in *. cbv zeta.
  cbn [meanDistance stdDevDistance nearestNeighborAvg].
  assert (valueIf strict (if (0 <? count)%nat then over total count else Fin 0))
    as Hmean.
  { destruct (Nat.ltb_spec 0 count) as [Hpos | _]; [| exact Hzero].
    apply ComputedScoring.over_value; assumption. }
  split; [exact Hmean |].
  split.
  - destruct (Nat.ltb_spec 0 count) as [Hpos | _]; [| exact Hzero].
    apply rootOfVariance_value; [| exact Hmean].
    apply ComputedScoring.over_value; assumption.
  - destruct (Nat.ltb_spec 0 (length positions)) as [Hpos | _]; [| exact Hzero].
    apply ComputedScoring.over_value; assumption.
Qed.

End Sums.

Lemma strict_number x : valueIf True x -> exists r, x = Fin r /\ (0 <= r)%R.
Proof. destruct x as [r | |]; simpl; try tauto. eauto. Qed.

(** X26: for a distance function that returns numbers that are not negative,
    or NaN, each of the three metrics of [calculateDensityMetrics] is NaN or
    not negative; all three are numbers when every distance between two of
    the positions is a number; and all three are 0 for fewer than two
    positions, where no distance is computed. *)
Theorem density_metrics_values
    (haversine : R -> R -> R -> R -> xnum) (positions : list Position) :
  lawful haversine ->
  distanceValue (meanDistance (calculateDensityMetrics haversine positions)) /\
  distanceValue (stdDevDistance (calculateDensityMetrics haversine positions)) /\
  distanceValue (nearestNeighborAvg (calculateDensityMetrics haversine positions)) /\
  (allNumbers haversine positions ->
   exists mean deviation nearest,
     calculateDensityMetrics haversine positions =
       mkDensity (Fin mean) (Fin deviation) (Fin nearest) /\
     (0 <= mean)%R /\ (0 <= deviation)%R /\ (0 <= nearest)%R) /\
  ((length positions <= 1)%nat ->
   calculateDensityMetrics haversine positions = mkDensity (Fin 0) (Fin 0) (Fin 0)).
Proof.
  intros Hlaw.
  destruct (metrics_values haversine positions False) as (H1 & H2 & H3).
  { intros p q _ _. apply ComputedMetrics.lawful_value, Hlaw. }
  split; [apply ComputedMetrics.value_loose, H1 |].
  split; [apply ComputedMetrics.value_loose, H2 |].
  split; [apply ComputedMetrics.value_loose, H3 |].
  split.
  - intros Hnumbers.
    destruct (metrics_values haversine positions True) as (S1 & S2 & S3).
    { intros p q Hp Hq.
      pose proof (ComputedSelection.lawful_pairs haversine positions Hlaw p q Hp Hq)
        as Hv.
      destruct (haversine _ _ _ _); simpl in *; tauto. }
    destruct (calculateDensityMetrics haversine positions) as [mean dev nn].
    cbn [meanDistance stdDevDistance nearestNeighborAvg] in *.
    apply strict_number in S1 as (m & -> & Hm), S2 as (d & -> & Hd),
          S3 as (n & -> & Hn).
    exists m, d, n. repeat split; assumption.
  - intros Hsmall.
    destruct positions as [| p [| q rest]]; [| | simpl in Hsmall; lia].
    + reflexivity.
    + unfold calculateDensityMetrics, Spread.indexed. simpl.
      unfold over. simpl.
      destruct (Req_dec_T 1 0) as [H | _]; [lra |].
      do 2 f_equal. lra.
Qed.

(** The statement above for the positions (0, 0) and (0, 90) with the
    distances of exact arithmetic. *)
Lemma density_metrics_values_witness :
  lawful exactDistance /\
  distanceValue
    (meanDistance (calculateDensityMetrics exactDistance Samples.twoPoints)) /\
  distanceValue
    (stdDevDistance (calculateDensityMetrics exactDistance Samples.twoPoints)) /\
  distanceValue
    (nearestNeighborAvg (calculateDensityMetrics exactDistance Samples.twoPoints)) /\
  (allNumbers exactDistance Samples.twoPoints ->
   exists mean deviation nearest,
     calculateDensityMetrics exactDistance Samples.twoPoints =
       mkDensity (Fin mean) (Fin deviation) (Fin nearest) /\
     (0 <= mean)%R /\ (0 <= deviation)%R /\ (0 <= nearest)%R) /\
  ((length Samples.twoPoints <= 1)%nat ->
   calculateDensityMetrics exactDistance Samples.twoPoints =
     mkDensity (Fin 0) (Fin 0) (Fin 0)).
Proof.
  split; [exact ComputedScoring.exactDistance_lawful |].
  exact (density_metrics_values exactDistance Samples.twoPoints
           ComputedScoring.exactDistance_lawful).
Defined.

End ComputedSpread.
